(** * The transcript stitcher (lambdas/stitcher/handler.py), embedded in Rocq

    The stitcher reads a chunk manifest, loads the per-chunk transcription
    results, merges the chunk-relative segments into one global timeline and
    renders it as JSON, TXT, WebVTT and SubRip.

    Conventions of the embedding.
    - A finite Python [float] holding seconds is an exact rational ([Q]) and
      the arithmetic on finite values is exact; order is [Qle]/[Qlt],
      equality of times is [Qeq].
    - The handler is read twice. [Module Stitcher] reads it on finite
      times. [Module Ieee] reads the loader and the merge on every value of
      a [float], NaN and the two infinities included, as [json.loads] and
      [float()] can hand them over. On finite documents the two readings
      return the same, which is proved below; what fails on a special
      value is stated in [Ieee] with the finiteness it needs.
    - A Python [int] is a [Z]; a [str] is a [string] whose characters are the
      code points below 256.
    - A decoded JSON document is a [json] value; a JSON object is a [gmap]
      from its keys.
    - An exception is the [Raise] case of [result].
    - The services the handler calls (S3, [json.loads], [difflib], the
      string-to-number conversions of [int()] and [float()]) are the fields
      of [S3Client] and [PyLib]. *)

From Stdlib Require Import ZArith QArith Qround Lqa String Ascii DecimalString Sorted.
From stdpp Require Import base gmap strings list.

#[local] Set Warnings "-register-all".
#[local] Open Scope Z_scope.

(** ** The Python layer: exceptions, JSON values, builtins *)

Module Py.

Inductive pyerr :=
  | KeyError (key : string)
  | TypeError
  | ValueError
  | AttributeError
  | JSONDecodeError
  | ClientError
  | OverflowError.

Inductive result (A : Type) :=
  | Ok (a : A)
  | Raise (e : pyerr).
Arguments Ok {A} a.
Arguments Raise {A} e.

Definition bind {A B} (m : result A) (k : A -> result B) : result B :=
  match m with
  | Ok a => k a
  | Raise e => Raise e
  end.

Inductive json :=
  | JNull
  | JBool (b : bool)
  | JInt (z : Z)
  | JFloat (q : Q)
  | JStr (s : string)
  | JArr (l : list json)
  | JObj (m : gmap string json).

(** [float(z)] of an int raises [OverflowError] when [z] rounds to a
    magnitude above the largest binary64 value, [2^1024 - 2^971]: from
    [2^1024 - 2^970] on. *)
Definition float_overflows (z : Z) : bool := 2 ^ 1024 - 2 ^ 970 <=? Z.abs z.

(** [sys.float_info.max], the largest binary64 value. *)
Definition float_max : Q := inject_Z (2 ^ 1024 - 2 ^ 971).

(** Order tests on seconds, as booleans. *)
Definition Qlt_bool (a b : Q) : bool := negb (Qle_bool b a).

(** [max(a, b)] and [min(a, b)]: the first argument wins a tie. *)
Definition py_max (a b : Q) : Q := if Qlt_bool a b then b else a.
Definition py_min (a b : Q) : Q := if Qlt_bool b a then b else a.

(** [round(x)]: to the nearest integer, a tie goes to the even one. *)
Definition py_round (x : Q) : Z :=
  let f := Qfloor x in
  let d := (x - inject_Z f)%Q in
  if Qlt_bool d (1 # 2) then f
  else if Qlt_bool (1 # 2) d then f + 1
  else if Z.even f then f else f + 1.

(** [round(x, 3)]: to the nearest multiple of 1/1000, ties to even. *)
Definition py_round3 (x : Q) : Q := py_round (x * 1000) # 1000.

(** [str(n)] for an int. *)
Definition str_int (n : Z) : string := NilZero.string_of_int (Z.to_int n).

Fixpoint zeros (n : nat) : string :=
  match n with
  | O => EmptyString
  | S n' => String "0" (zeros n')
  end.

(** [format(n, "0<w>d")]: the sign first, then zeros up to width [w]. *)
Definition fmt_0d (w : nat) (n : Z) : string :=
  if n <? 0 then
    let d := str_int (- n) in
    String "-" (zeros (w - 1 - String.length d) +:+ d)
  else
    let d := str_int n in
    zeros (w - String.length d) +:+ d.

(** [sep.join(parts)]. *)
Fixpoint join (sep : string) (parts : list string) : string :=
  match parts with
  | [] => EmptyString
  | [p] => p
  | p :: rest => p +:+ sep +:+ join sep rest
  end.

(** [c.isspace()] for a code point below 256. *)
Definition isspace (c : ascii) : bool :=
  let n := nat_of_ascii c in
  ((9 <=? n) && (n <=? 13) || (28 <=? n) && (n <=? 32) || (n =? 133) || (n =? 160))%nat.

Definition is_empty (s : string) : bool :=
  match s with
  | EmptyString => true
  | String _ _ => false
  end.

Fixpoint lstrip (s : string) : string :=
  match s with
  | EmptyString => EmptyString
  | String c s' => if isspace c then lstrip s' else s
  end.

Fixpoint rstrip (s : string) : string :=
  match s with
  | EmptyString => EmptyString
  | String c s' =>
      let r := rstrip s' in
      if isspace c && is_empty r then EmptyString else String c r
  end.

(** [s.strip()]. *)
Definition strip (s : string) : string := rstrip (lstrip s).

(** A line boundary of [str.splitlines] (the carriage return apart). *)
Definition is_linebreak (c : ascii) : bool :=
  let n := nat_of_ascii c in
  ((n =? 10) || (n =? 11) || (n =? 12) || (28 <=? n) && (n <=? 30) || (n =? 133))%nat.

Fixpoint splitlines_from (cur : string) (s : string) : list string :=
  match s with
  | EmptyString => if is_empty cur then [] else [cur]
  | String c s' =>
      if (nat_of_ascii c =? 13)%nat then
        match s' with
        | String c' s'' =>
            if (nat_of_ascii c' =? 10)%nat
            then cur :: splitlines_from EmptyString s''
            else cur :: splitlines_from EmptyString s'
        | EmptyString => cur :: splitlines_from EmptyString s'
        end
      else if is_linebreak c then cur :: splitlines_from EmptyString s'
      else splitlines_from (cur +:+ String c EmptyString) s'
  end.

(** [s.splitlines()]. *)
Definition splitlines (s : string) : list string := splitlines_from EmptyString s.

(** [s.rstrip("/")]. *)
Fixpoint rstrip_slash (s : string) : string :=
  match s with
  | EmptyString => EmptyString
  | String c s' =>
      let r := rstrip_slash s' in
      if (nat_of_ascii c =? 47)%nat && is_empty r then EmptyString else String c r
  end.

(** [s.split("/")[-1]]: what follows the last slash. *)
Fixpoint last_component (s : string) : string :=
  match s with
  | EmptyString => EmptyString
  | String c s' =>
      if existsb (fun d => (nat_of_ascii d =? 47)%nat) (list_ascii_of_string s)
      then last_component s'
      else s
  end.

(** Truth value of a JSON value, as [or] tests it. *)
Definition truthy (v : json) : bool :=
  match v with
  | JNull => false
  | JBool b => b
  | JInt z => negb (z =? 0)
  | JFloat q => negb (Qeq_bool q 0)
  | JStr s => negb (is_empty s)
  | JArr l => match l with [] => false | _ => true end
  | JObj m => negb (bool_decide (m = ∅))
  end.

(** [obj[key]]. *)
Definition getitem (obj : json) (key : string) : result json :=
  match obj with
  | JObj m =>
      match m !! key with
      | Some v => Ok v
      | None => Raise (KeyError key)
      end
  | _ => Raise TypeError
  end.

(** [obj.get(key)] (None when absent) and [obj.get(key, default)]. *)
Definition dict_get (obj : json) (key : string) (dflt : json) : result json :=
  match obj with
  | JObj m => Ok (default dflt (m !! key))
  | _ => Raise AttributeError
  end.

(** [s.endswith(suffix)]. *)
Definition endswith (s suffix : string) : bool :=
  (String.length suffix <=? String.length s)%nat
  && String.eqb
       (substring (String.length s - String.length suffix) (String.length suffix) s)
       suffix.

(** [s[:-n]]: [s] without its last [n] characters. *)
Definition drop_last (n : nat) (s : string) : string :=
  substring 0 (String.length s - n) s.

(** [s.split("/")]: the pieces between the slashes, at least one. *)
Fixpoint split_slash (s : string) : list string :=
  match s with
  | EmptyString => [EmptyString]
  | String c s' =>
      if (nat_of_ascii c =? 47)%nat then EmptyString :: split_slash s'
      else
        match split_slash s' with
        | piece :: rest => String c piece :: rest
        | [] => [String c EmptyString]
        end
  end.

(** [c.lower()] for a code point below 256. *)
Definition lower_char (c : ascii) : ascii :=
  let n := nat_of_ascii c in
  if ((65 <=? n) && (n <=? 90) || (192 <=? n) && (n <=? 222) && negb (n =? 215))%nat
  then ascii_of_nat (n + 32)
  else c.

(** [s.lower()]. *)
Fixpoint lower (s : string) : string :=
  match s with
  | EmptyString => EmptyString
  | String c s' => String (lower_char c) (lower s')
  end.

End Py.

(** ** [difflib.SequenceMatcher(None, a, b).ratio()]

    The standard library's matcher with no junk test and [autojunk] on:
    the longest common block is found first, then the blocks to its left and
    to its right, and the ratio is twice the matched length over the total
    length. *)

Module Difflib.

#[local] Open Scope nat_scope.

Definition nth_char (l : list ascii) (i : nat) : ascii := nth i l zero.

Fixpoint indices_from (c : ascii) (b : list ascii) (j : nat) : list nat :=
  match b with
  | [] => []
  | d :: b' =>
      if Ascii.eqb c d then j :: indices_from c b' (S j) else indices_from c b' (S j)
  end.

(** An element of [b] is popular, and indexed nowhere, when [b] has at
    least 200 elements and more than [len(b) // 100 + 1] of them are it. *)
Definition popular (b : list ascii) (c : ascii) : bool :=
  let n := length b in
  (200 <=? n) && (n / 100 + 1 <? length (indices_from c b 0)).

(** [b2j.get(c, [])]. *)
Definition b2j (b : list ascii) (c : ascii) : list nat :=
  if popular b c then [] else indices_from c b 0.

Definition j2len_get (j2len : list (nat * nat)) (j : nat) : nat :=
  match find (fun p => fst p =? j) j2len with
  | Some p => snd p
  | None => 0
  end.

(** The loop over [j] for one [i]: the new [j2len] and the best block. *)
Fixpoint row (js : list nat) (blo bhi i : nat) (j2len newj2len : list (nat * nat))
    (best : nat * nat * nat) : list (nat * nat) * (nat * nat * nat) :=
  match js with
  | [] => (newj2len, best)
  | j :: js' =>
      if j <? blo then row js' blo bhi i j2len newj2len best
      else if bhi <=? j then (newj2len, best)
      else
        let k := (match j with O => 0 | S j' => j2len_get j2len j' end) + 1 in
        let best := if snd best <? k then (i + 1 - k, j + 1 - k, k) else best in
        row js' blo bhi i j2len ((j, k) :: newj2len) best
  end.

(** The loop over [i] in [alo .. ahi-1]; [n] counts the turns left. *)
Fixpoint rows (a b : list ascii) (n i blo bhi : nat) (j2len : list (nat * nat))
    (best : nat * nat * nat) : nat * nat * nat :=
  match n with
  | O => best
  | S n' =>
      let '(newj2len, best) := row (b2j b (nth_char a i)) blo bhi i j2len [] best in
      rows a b n' (S i) blo bhi newj2len best
  end.

Fixpoint extend_left (a b : list ascii) (n alo blo : nat) (best : nat * nat * nat)
    : nat * nat * nat :=
  match n with
  | O => best
  | S n' =>
      let '(besti, bestj, bestsize) := best in
      if (alo <? besti) && (blo <? bestj)
         && Ascii.eqb (nth_char a (besti - 1)) (nth_char b (bestj - 1))
      then extend_left a b n' alo blo (besti - 1, bestj - 1, bestsize + 1)
      else best
  end.

Fixpoint extend_right (a b : list ascii) (n ahi bhi : nat) (best : nat * nat * nat)
    : nat * nat * nat :=
  match n with
  | O => best
  | S n' =>
      let '(besti, bestj, bestsize) := best in
      if (besti + bestsize <? ahi) && (bestj + bestsize <? bhi)
         && Ascii.eqb (nth_char a (besti + bestsize)) (nth_char b (bestj + bestsize))
      then extend_right a b n' ahi bhi (besti, bestj, bestsize + 1)
      else best
  end.

Definition find_longest_match (a b : list ascii) (alo ahi blo bhi : nat)
    : nat * nat * nat :=
  let best := rows a b (ahi - alo) alo blo bhi [] (alo, blo, 0) in
  let best := extend_left a b (length a) alo blo best in
  extend_right a b (length a) ahi bhi best.

(** The total size of the matching blocks of [a[alo:ahi]] and
    [b[blo:bhi]]; [fuel] bounds the depth of the splitting. *)
Fixpoint matches (fuel : nat) (a b : list ascii) (alo ahi blo bhi : nat) : nat :=
  match fuel with
  | O => 0
  | S fuel' =>
      let '(i, j, k) := find_longest_match a b alo ahi blo bhi in
      if k =? 0 then 0
      else
        k + (if (alo <? i) && (blo <? j) then matches fuel' a b alo i blo j else 0)
          + (if (i + k <? ahi) && (j + k <? bhi)
             then matches fuel' a b (i + k) ahi (j + k) bhi else 0)
  end.

Definition ratio (a b : string) : Q :=
  let la := list_ascii_of_string a in
  let lb := list_ascii_of_string b in
  let total := length la + length lb in
  match total with
  | O => 1%Q
  | S _ =>
      (2 * Z.of_nat (matches (S (length la)) la lb 0 (length la) 0 (length lb))
       # Pos.of_nat total)%Q
  end.

End Difflib.

Import Py.

Notation "x <- m ;; k" := (bind m (fun x => k))
  (at level 100, m at next level, right associativity).

(** ** What the handler calls but does not define *)

(** The answer of S3 to [head_object]: the object is there, or a
    [ClientError] with its HTTP status and error code. *)
Inductive head_response :=
  | HeadFound
  | HeadClientError (status : Z) (code : string).

(** The S3 client, per bucket and key:
    - [head_object]: the existence probe;
    - [list_common_prefixes bucket prefix]: the [CommonPrefixes] of
      [list_objects_v2] with delimiter [/], each with its [Prefix] if any;
    - [get_object_json]: the object's body read and decoded
      ([_read_s3_json]), or the exception of the read or of the decoding. *)
Record S3Client := {
  head_object : string -> string -> head_response;
  list_common_prefixes : string -> string -> list (option string);
  get_object_json : string -> string -> result json;
}.

(** The Python library: [json.loads], [int(str)], [float(str)] and
    [difflib.SequenceMatcher(None, a, b).ratio()]. *)
Record PyLib := {
  json_loads : string -> result json;
  int_of_str : string -> result Z;
  float_of_str : string -> result Q;
  sequence_ratio : string -> string -> Q;
}.

(** ** The stitcher *)

Module Stitcher.

(** A manifest entry, [{"index", "start_sec", "end_sec"}]. *)
Record Entry := {
  index : Z;
  start_sec : Q;
  end_sec : Q;
}.

(** A normalized chunk segment, [{"start", "end", "text"}]. *)
Record ChunkSeg := {
  c_start : Q;
  c_end : Q;
  c_text : string;
}.

(** A global segment, [{"id", "start", "end", "text"}]. *)
Record Seg := {
  id : Z;
  start : Q;
  end_ : Q;
  text : string;
}.

(** The merge counters, [{"chunks", "dropped_short", "dropped_overlap"}]. *)
Record Meta := {
  chunks : Z;
  dropped_short : Z;
  dropped_overlap : Z;
}.

(** The locals of the first pass of [_merge_segments]. *)
Record MergeState := {
  merged : list Seg;
  seg_id : Z;
  last_end : Q;
  meta : Meta;
}.

(** The payload of [_to_transcript_json]. *)
Record Transcript := {
  job_id : string;
  language : option string;
  duration_sec : Q;
  segments : list Seg;
}.

Definition EPS : Q := 1 # 1000000.
Definition DEDUP_SIM_THRESH : Q := 85 # 100.

(** *** Time formatting *)

Definition hhmmss_msec (sep : string) (s : Q) : string :=
  let ms := py_round (s * 1000) in
  let hours := ms / 3600000 in
  let ms := ms - hours * 3600000 in
  let minutes := ms / 60000 in
  let ms := ms - minutes * 60000 in
  let seconds := ms / 1000 in
  let ms := ms - seconds * 1000 in
  fmt_0d 2 hours +:+ ":" +:+ fmt_0d 2 minutes +:+ ":" +:+ fmt_0d 2 seconds
    +:+ sep +:+ fmt_0d 3 ms.

Definition _sec_to_hhmmss_msec_vtt (s : Q) : string := hhmmss_msec "." s.
Definition _sec_to_hhmmss_msec_srt (s : Q) : string := hhmmss_msec "," s.

(** *** Output formatters *)

Definition _to_transcript_json (job : string) (lang : option string)
    (segs : list Seg) : Transcript :=
  {| job_id := job;
     language := lang;
     duration_sec := match last segs with Some s => end_ s | None => 0%Q end;
     segments := segs |}.

Definition _to_txt (segs : list Seg) : string :=
  join (String (ascii_of_nat 10) EmptyString) (map text segs)
    +:+ (match segs with [] => EmptyString | _ => String (ascii_of_nat 10) EmptyString end).

Definition vtt_cue (s : Seg) : list string :=
  [ _sec_to_hhmmss_msec_vtt (start s) +:+ " --> " +:+ _sec_to_hhmmss_msec_vtt (end_ s);
    text s;
    EmptyString ].

Definition _to_vtt (segs : list Seg) : string :=
  join (String (ascii_of_nat 10) EmptyString)
    (["WEBVTT"; EmptyString] ++ concat (map vtt_cue segs)).

Definition srt_cue (i : Z) (s : Seg) : list string :=
  [ str_int i;
    _sec_to_hhmmss_msec_srt (start s) +:+ " --> " +:+ _sec_to_hhmmss_msec_srt (end_ s);
    text s;
    EmptyString ].

(** The loop over [enumerate(segments, start=i)]. *)
Fixpoint srt_parts (i : Z) (segs : list Seg) : list string :=
  match segs with
  | [] => []
  | s :: rest => srt_cue i s ++ srt_parts (i + 1) rest
  end.

Definition _to_srt (segs : list Seg) : string :=
  join (String (ascii_of_nat 10) EmptyString) (srt_parts 1 segs).

(** *** Job id *)

(** [os.path.basename] of a key: what follows the last slash. *)
Definition basename (p : string) : string := last_component p.

Definition _derive_job_id_from_manifest_key (manifest_key : string) : string :=
  let name := basename manifest_key in
  if endswith name ".jsonl" then drop_last 6 name else name.

Section Handler.

(** The tunables, read once from the environment ([OVERLAP_SECONDS],
    [MIN_SEGMENT_SECONDS]), and the services. *)
Variable OVERLAP_SEC : Q.
Variable MIN_SEGMENT_SEC : Q.
Variable lib : PyLib.
Variable s3 : S3Client.

(** [float(v)] and [int(v)] on a decoded JSON value whose numbers are
    finite; [Ieee.py_float] is [float(v)] on any decoded value. *)
Definition py_float (v : json) : result Q :=
  match v with
  | JInt z => if float_overflows z then Raise OverflowError else Ok (inject_Z z)
  | JFloat q => Ok q
  | JBool b => Ok (if b then 1%Q else 0%Q)
  | JStr s => float_of_str lib s
  | JNull | JArr _ | JObj _ => Raise TypeError
  end.

Definition py_int (v : json) : result Z :=
  match v with
  | JInt z => Ok z
  | JFloat q => Ok (Z.quot (Qnum q) (Zpos (Qden q)))
  | JBool b => Ok (if b then 1 else 0)
  | JStr s => int_of_str lib s
  | JNull | JArr _ | JObj _ => Raise TypeError
  end.

(** [v.strip()]: only a [str] has the method. *)
Definition py_strip (v : json) : result string :=
  match v with
  | JStr s => Ok (strip s)
  | _ => Raise AttributeError
  end.

(** [for s in v]: the items a loop over [v] visits. *)
Definition py_iter (v : json) : result (list json) :=
  match v with
  | JArr l => Ok l
  | JStr s => Ok (map (fun c => JStr (String c EmptyString)) (list_ascii_of_string s))
  | JObj m => Ok (map (fun kv => JStr (fst kv)) (map_to_list m))
  | JNull | JBool _ | JInt _ | JFloat _ => Raise TypeError
  end.

(** *** Manifest parsing *)

(** The dict built from one decoded manifest line. *)
Definition manifest_entry (obj : json) : result Entry :=
  v <- getitem obj "index";;
  i <- py_int v;;
  v <- getitem obj "start_sec";;
  s <- py_float v;;
  v <- getitem obj "end_sec";;
  e <- py_float v;;
  Ok {| index := i; start_sec := s; end_sec := e |}.

(** The loop over the lines; [entries] is the list built so far. *)
Fixpoint parse_lines (lines : list string) (entries : list Entry)
    : result (list Entry) :=
  match lines with
  | [] => Ok entries
  | line :: rest =>
      let line := strip line in
      if is_empty line then parse_lines rest entries
      else
        obj <- json_loads lib line;;
        entry <- manifest_entry obj;;
        parse_lines rest (entries ++ [entry])
  end.

(** [entries.sort(key=lambda x: x["index"])]: a stable sort. *)
Fixpoint insert_by_index (e : Entry) (l : list Entry) : list Entry :=
  match l with
  | [] => [e]
  | x :: r => if index e <=? index x then e :: l else x :: insert_by_index e r
  end.

Definition sort_by_index (l : list Entry) : list Entry :=
  foldr insert_by_index [] l.

Definition _parse_manifest_jsonl (text : string) : result (list Entry) :=
  entries <- parse_lines (splitlines text) [];;
  Ok (sort_by_index entries).

(** *** Result discovery and loading *)

Definition _s3_key_exists (bucket key : string) : result bool :=
  match head_object s3 bucket key with
  | HeadFound => Ok true
  | HeadClientError status code =>
      if (status =? 404)
         || bool_decide (code ∈ ["404"; "NotFound"; "NoSuchKey"])
      then Ok false
      else Raise ClientError
  end.

(** The loop over the exact candidate keys. *)
Fixpoint first_existing (bucket : string) (keys : list string)
    : result (option string) :=
  match keys with
  | [] => Ok None
  | k :: rest =>
      found <- _s3_key_exists bucket k;;
      if found then Ok (Some k) else first_existing bucket rest
  end.

(** The loop over the immediate subfolders. *)
Fixpoint match_prefixes (bucket : string) (idx : Z) (cps : list (option string))
    : result (option string) :=
  match cps with
  | [] => Ok None
  | cp :: rest =>
      let pfx := default EmptyString cp in
      let leaf := last_component (rstrip_slash pfx) in
      if bool_decide (leaf = fmt_0d 5 idx) || bool_decide (leaf = str_int idx) then
        let k := pfx +:+ "out.json" in
        found <- _s3_key_exists bucket k;;
        if found then Ok (Some k) else match_prefixes bucket idx rest
      else match_prefixes bucket idx rest
  end.

Definition _guess_chunk_key (results_bucket job : string) (idx : Z)
    : result (option string) :=
  let exact :=
    [ "chunks/" +:+ job +:+ "/" +:+ fmt_0d 5 idx +:+ "/out.json";
      "chunks/" +:+ job +:+ "/" +:+ str_int idx +:+ "/out.json" ] in
  hit <- first_existing results_bucket exact;;
  match hit with
  | Some k => Ok (Some k)
  | None =>
      let prefix := "chunks/" +:+ job +:+ "/" in
      match_prefixes results_bucket idx (list_common_prefixes s3 results_bucket prefix)
  end.

(** The loop over the raw segments; [norm] is the list built so far. *)
Fixpoint load_loop (segs : list json) (norm : list ChunkSeg)
    : result (list ChunkSeg) :=
  match segs with
  | [] => Ok norm
  | s :: rest =>
      v <- dict_get s "start" (JFloat 0);;
      start <- py_float v;;
      v <- dict_get s "end" (JFloat 0);;
      end' <- py_float v;;
      v <- dict_get s "text" JNull;;
      text <- py_strip (if truthy v then v else JStr EmptyString);;
      if is_empty text then load_loop rest norm
      else if Qle_bool (end' - start) EPS then load_loop rest norm
      else load_loop rest (norm ++ [{| c_start := start; c_end := end'; c_text := text |}])
  end.

Definition _load_chunk_segments (results_bucket chunk_key : string)
    : result (list ChunkSeg) :=
  data <- get_object_json s3 results_bucket chunk_key;;
  segs <- dict_get data "segments" (JArr []);;
  items <- py_iter segs;;
  load_loop items [].

(** *** Segment merging *)

Definition _similar (a b : string) : Q := sequence_ratio lib a b.

Definition DEDUP_BACK_WINDOW : Q := py_max OVERLAP_SEC 2.

(** The backward scan [while k >= 0 and merged[k]["start"] >= gs - W]
    over [recent], the accepted segments from the last one back. *)
Fixpoint scan_back (recent : list Seg) (gs : Q) (t : string) : bool :=
  match recent with
  | [] => false
  | m :: older =>
      if Qle_bool (gs - DEDUP_BACK_WINDOW) (start m) then
        if Qle_bool DEDUP_SIM_THRESH (_similar (text m) t) then true
        else scan_back older gs t
      else false
  end.

Definition bump_overlap (m : Meta) : Meta :=
  {| chunks := chunks m;
     dropped_short := dropped_short m;
     dropped_overlap := dropped_overlap m + 1 |}.

Definition bump_short (m : Meta) : Meta :=
  {| chunks := chunks m;
     dropped_short := dropped_short m + 1;
     dropped_overlap := dropped_overlap m |}.

Definition bump_chunks (m : Meta) : Meta :=
  {| chunks := chunks m + 1;
     dropped_short := dropped_short m;
     dropped_overlap := dropped_overlap m |}.

Definition drop_overlap (st : MergeState) : MergeState :=
  {| merged := merged st; seg_id := seg_id st; last_end := last_end st;
     meta := bump_overlap (meta st) |}.

Definition drop_short (st : MergeState) : MergeState :=
  {| merged := merged st; seg_id := seg_id st; last_end := last_end st;
     meta := bump_short (meta st) |}.

(** The clamp test: the converted span lies outside the chunk window. *)
Definition outside_window (w_start w_end gs ge : Q) : bool :=
  Qlt_bool ge (w_start + EPS) || Qlt_bool (w_end - EPS) gs.

(** One turn of the loop [for s in segs], in the window
    [w_start .. w_end]. *)
Definition merge_segment (w_start w_end : Q) (st : MergeState) (s : ChunkSeg)
    : MergeState :=
  let gs := (c_start s + w_start)%Q in
  let ge := (c_end s + w_start)%Q in
  if outside_window w_start w_end gs ge then st
  else
    let gs := py_max gs w_start in
    let ge := py_min ge w_end in
    if scan_back (rev (merged st)) gs (c_text s) then drop_overlap st
    else if Qle_bool ge (last_end st + EPS) then drop_overlap st
    else
      let gs := if Qlt_bool gs (last_end st) then last_end st else gs in
      if Qlt_bool (ge - gs) MIN_SEGMENT_SEC then drop_short st
      else
        {| merged := merged st ++
             [{| id := seg_id st; start := py_round3 gs; end_ := py_round3 ge;
                 text := c_text s |}];
           seg_id := seg_id st + 1;
           last_end := ge;
           meta := meta st |}.

(** One turn of the loop [for entry in manifest]. *)
Definition merge_entry (results_bucket job : string) (st : MergeState) (entry : Entry)
    : result MergeState :=
  chunk_key <- _guess_chunk_key results_bucket job (index entry);;
  match chunk_key with
  | None => Ok st
  | Some key =>
      segs <- _load_chunk_segments results_bucket key;;
      let st := fold_left (merge_segment (start_sec entry) (end_sec entry)) segs st in
      Ok {| merged := merged st; seg_id := seg_id st; last_end := last_end st;
            meta := bump_chunks (meta st) |}
  end.

Fixpoint merge_loop (results_bucket job : string) (manifest : list Entry)
    (st : MergeState) : result MergeState :=
  match manifest with
  | [] => Ok st
  | entry :: rest =>
      st' <- merge_entry results_bucket job st entry;;
      merge_loop results_bucket job rest st'
  end.

(** The locals of the repair pass: [fixed] and [last]. *)
Definition repair_segment (acc : list Seg * Q) (seg : Seg) : list Seg * Q :=
  let '(fixed, last) := acc in
  let s := start seg in
  let e := end_ seg in
  let s := if Qlt_bool s last then last else s in
  let s := if Qlt_bool 0 (s - last) then py_max last s else s in
  if Qlt_bool (e - s) MIN_SEGMENT_SEC then (fixed, last)
  else
    (fixed ++ [{| id := Z.of_nat (length fixed); start := py_round3 s;
                  end_ := py_round3 e; text := text seg |}],
     e).

Definition repair (merged : list Seg) : list Seg :=
  fst (fold_left repair_segment merged ([], 0%Q)).

Definition initial_state : MergeState :=
  {| merged := []; seg_id := 0; last_end := 0%Q;
     meta := {| chunks := 0; dropped_short := 0; dropped_overlap := 0 |} |}.

Definition _merge_segments (manifest : list Entry) (results_bucket job : string)
    : result (list Seg * Meta) :=
  st <- merge_loop results_bucket job manifest initial_state;;
  Ok (repair (merged st), meta st).

End Handler.

End Stitcher.

(** ** The stitcher on times that are not finite

    [json.loads] accepts [NaN], [Infinity] and [-Infinity] and decodes a
    literal too large for binary64 as an infinity, and [float()] of the
    strings [nan] and [inf] returns them. [Module Stitcher] reads the
    handler on finite times; this module reads the same lines on every
    value of a Python [float]: a finite one, exact as before, or one of the
    three special values, with the arithmetic and the comparisons of
    IEEE 754 on them (every comparison with NaN is false). The discovery
    of the chunk results handles no time and is that of [Stitcher]. *)

Module Ieee.

Inductive float :=
  | Fin (q : Q)
  | PosInf
  | NegInf
  | NaN.

(** [x + y] and [x - y]. *)
Definition add (x y : float) : float :=
  match x with
  | Fin a =>
      match y with
      | Fin b => Fin (a + b)
      | PosInf => PosInf
      | NegInf => NegInf
      | NaN => NaN
      end
  | PosInf => match y with NegInf | NaN => NaN | Fin _ | PosInf => PosInf end
  | NegInf => match y with PosInf | NaN => NaN | Fin _ | NegInf => NegInf end
  | NaN => NaN
  end.

Definition sub (x y : float) : float :=
  match x with
  | Fin a =>
      match y with
      | Fin b => Fin (a - b)
      | PosInf => NegInf
      | NegInf => PosInf
      | NaN => NaN
      end
  | PosInf => match y with PosInf | NaN => NaN | Fin _ | NegInf => PosInf end
  | NegInf => match y with NegInf | NaN => NaN | Fin _ | PosInf => NegInf end
  | NaN => NaN
  end.

(** [x < y] and [x <= y]; [x > y] is [y < x] and [x >= y] is [y <= x]. *)
Definition lt (x y : float) : bool :=
  match x with
  | Fin a => match y with Fin b => Qlt_bool a b | PosInf => true | NegInf | NaN => false end
  | NegInf => match y with Fin _ | PosInf => true | NegInf | NaN => false end
  | PosInf | NaN => false
  end.

Definition le (x y : float) : bool :=
  match x with
  | Fin a => match y with Fin b => Qle_bool a b | PosInf => true | NegInf | NaN => false end
  | NegInf => match y with Fin _ | PosInf | NegInf => true | NaN => false end
  | PosInf => match y with PosInf => true | Fin _ | NegInf | NaN => false end
  | NaN => false
  end.

(** [max(a, b)] and [min(a, b)]: the second argument is taken only when
    it compares above (below) the first, so a NaN in first place stays
    and a NaN in second place is passed over. *)
Definition py_max (a b : float) : float := if lt a b then b else a.
Definition py_min (a b : float) : float := if lt b a then b else a.

(** [round(x, 3)]: a special value is returned as it is. *)
Definition py_round3 (x : float) : float :=
  match x with
  | Fin q => Fin (Py.py_round3 q)
  | PosInf | NegInf | NaN => x
  end.

(** A decoded JSON document whose numbers may be special values. *)
Inductive json :=
  | JNull
  | JBool (b : bool)
  | JInt (z : Z)
  | JFloat (x : float)
  | JStr (s : string)
  | JArr (l : list json)
  | JObj (m : gmap string json).

Definition truthy (v : json) : bool :=
  match v with
  | JNull => false
  | JBool b => b
  | JInt z => negb (z =? 0)
  | JFloat (Fin q) => negb (Qeq_bool q 0)
  | JFloat _ => true
  | JStr s => negb (is_empty s)
  | JArr l => match l with [] => false | _ => true end
  | JObj m => negb (bool_decide (m = ∅))
  end.

Definition dict_get (obj : json) (key : string) (dflt : json) : result json :=
  match obj with
  | JObj m => Ok (default dflt (m !! key))
  | _ => Raise AttributeError
  end.

Definition py_strip (v : json) : result string :=
  match v with
  | JStr s => Ok (strip s)
  | _ => Raise AttributeError
  end.

Definition py_iter (v : json) : result (list json) :=
  match v with
  | JArr l => Ok l
  | JStr s => Ok (map (fun c => JStr (String c EmptyString)) (list_ascii_of_string s))
  | JObj m => Ok (map (fun kv => JStr (fst kv)) (map_to_list m))
  | JNull | JBool _ | JInt _ | JFloat _ => Raise TypeError
  end.

Record Entry := {
  index : Z;
  start_sec : float;
  end_sec : float;
}.

Record ChunkSeg := {
  c_start : float;
  c_end : float;
  c_text : string;
}.

Record Seg := {
  id : Z;
  start : float;
  end_ : float;
  text : string;
}.

Record MergeState := {
  merged : list Seg;
  seg_id : Z;
  last_end : float;
  meta : Stitcher.Meta;
}.

Record Transcript := {
  job_id : string;
  language : option string;
  duration_sec : float;
  segments : list Seg;
}.

Definition EPS : float := Fin Stitcher.EPS.

Definition _to_transcript_json (job : string) (lang : option string)
    (segs : list Seg) : Transcript :=
  {| job_id := job;
     language := lang;
     duration_sec := match last segs with Some s => end_ s | None => Fin 0 end;
     segments := segs |}.

Section Handler.

(** The tunables, the probes of S3 and the matcher as in [Stitcher]; the
    two services that can hand over a special value are given apart:
    [float(s)] of a string, and [_read_s3_json]. *)
Variable OVERLAP_SEC : float.
Variable MIN_SEGMENT_SEC : float.
Variable lib : PyLib.
Variable s3 : S3Client.
Variable float_of_str : string -> result float.
Variable _read_s3_json : string -> string -> result json.

(** [float(v)] on a decoded JSON value. *)
Definition py_float (v : json) : result float :=
  match v with
  | JInt z => if float_overflows z then Raise OverflowError else Ok (Fin (inject_Z z))
  | JFloat x => Ok x
  | JBool b => Ok (Fin (if b then 1%Q else 0%Q))
  | JStr s => float_of_str s
  | JNull | JArr _ | JObj _ => Raise TypeError
  end.

Fixpoint load_loop (segs : list json) (norm : list ChunkSeg)
    : result (list ChunkSeg) :=
  match segs with
  | [] => Ok norm
  | s :: rest =>
      v <- dict_get s "start" (JFloat (Fin 0));;
      start <- py_float v;;
      v <- dict_get s "end" (JFloat (Fin 0));;
      end' <- py_float v;;
      v <- dict_get s "text" JNull;;
      text <- py_strip (if truthy v then v else JStr EmptyString);;
      if is_empty text then load_loop rest norm
      else if le (sub end' start) EPS then load_loop rest norm
      else load_loop rest (norm ++ [{| c_start := start; c_end := end'; c_text := text |}])
  end.

Definition _load_chunk_segments (results_bucket chunk_key : string)
    : result (list ChunkSeg) :=
  data <- _read_s3_json results_bucket chunk_key;;
  segs <- dict_get data "segments" (JArr []);;
  items <- py_iter segs;;
  load_loop items [].

Definition _similar (a b : string) : Q := sequence_ratio lib a b.

Definition DEDUP_BACK_WINDOW : float := py_max OVERLAP_SEC (Fin 2).

Fixpoint scan_back (recent : list Seg) (gs : float) (t : string) : bool :=
  match recent with
  | [] => false
  | m :: older =>
      if le (sub gs DEDUP_BACK_WINDOW) (start m) then
        if Qle_bool Stitcher.DEDUP_SIM_THRESH (_similar (text m) t) then true
        else scan_back older gs t
      else false
  end.

Definition drop_overlap (st : MergeState) : MergeState :=
  {| merged := merged st; seg_id := seg_id st; last_end := last_end st;
     meta := Stitcher.bump_overlap (meta st) |}.

Definition drop_short (st : MergeState) : MergeState :=
  {| merged := merged st; seg_id := seg_id st; last_end := last_end st;
     meta := Stitcher.bump_short (meta st) |}.

Definition outside_window (w_start w_end gs ge : float) : bool :=
  lt ge (add w_start EPS) || lt (sub w_end EPS) gs.

Definition merge_segment (w_start w_end : float) (st : MergeState) (s : ChunkSeg)
    : MergeState :=
  let gs := add (c_start s) w_start in
  let ge := add (c_end s) w_start in
  if outside_window w_start w_end gs ge then st
  else
    let gs := py_max gs w_start in
    let ge := py_min ge w_end in
    if scan_back (rev (merged st)) gs (c_text s) then drop_overlap st
    else if le ge (add (last_end st) EPS) then drop_overlap st
    else
      let gs := if lt gs (last_end st) then last_end st else gs in
      if lt (sub ge gs) MIN_SEGMENT_SEC then drop_short st
      else
        {| merged := merged st ++
             [{| id := seg_id st; start := py_round3 gs; end_ := py_round3 ge;
                 text := c_text s |}];
           seg_id := seg_id st + 1;
           last_end := ge;
           meta := meta st |}.

Definition merge_entry (results_bucket job : string) (st : MergeState) (entry : Entry)
    : result MergeState :=
  chunk_key <- Stitcher._guess_chunk_key s3 results_bucket job (index entry);;
  match chunk_key with
  | None => Ok st
  | Some key =>
      segs <- _load_chunk_segments results_bucket key;;
      let st := fold_left (merge_segment (start_sec entry) (end_sec entry)) segs st in
      Ok {| merged := merged st; seg_id := seg_id st; last_end := last_end st;
            meta := Stitcher.bump_chunks (meta st) |}
  end.

Fixpoint merge_loop (results_bucket job : string) (manifest : list Entry)
    (st : MergeState) : result MergeState :=
  match manifest with
  | [] => Ok st
  | entry :: rest =>
      st' <- merge_entry results_bucket job st entry;;
      merge_loop results_bucket job rest st'
  end.

Definition repair_segment (acc : list Seg * float) (seg : Seg) : list Seg * float :=
  let '(fixed, last) := acc in
  let s := start seg in
  let e := end_ seg in
  let s := if lt s last then last else s in
  let s := if lt (Fin 0) (sub s last) then py_max last s else s in
  if lt (sub e s) MIN_SEGMENT_SEC then (fixed, last)
  else
    (fixed ++ [{| id := Z.of_nat (length fixed); start := py_round3 s;
                  end_ := py_round3 e; text := text seg |}],
     e).

Definition repair (merged : list Seg) : list Seg :=
  fst (fold_left repair_segment merged ([], Fin 0)).

Definition initial_state : MergeState :=
  {| merged := []; seg_id := 0; last_end := Fin 0;
     meta := {| Stitcher.chunks := 0; Stitcher.dropped_short := 0;
                Stitcher.dropped_overlap := 0 |} |}.

Definition _merge_segments (manifest : list Entry) (results_bucket job : string)
    : result (list Seg * Stitcher.Meta) :=
  st <- merge_loop results_bucket job manifest initial_state;;
  Ok (repair (merged st), meta st).

End Handler.

End Ieee.

(** ** The prepare handler (lambdas/prepare/handler.py)

    The prepare handler splits the source audio into overlapping windows,
    cuts a chunk per window and writes the manifest the stitcher reads. *)

Module Prepare.

(** A number as [compute_chunks] holds it: an [int] or a [float]. *)
Inductive number :=
  | NInt (z : Z)
  | NFloat (q : Q).

Definition value (x : number) : Q :=
  match x with
  | NInt z => inject_Z z
  | NFloat q => q
  end.

(** [max(a, b)] and [min(a, b)] return one of their arguments, the first
    on a tie; [round(x, 3)] returns an [int] as it is. *)
Definition max_number (a b : number) : number :=
  if Qlt_bool (value a) (value b) then b else a.

Definition min_number (a b : number) : number :=
  if Qlt_bool (value b) (value a) then b else a.

Definition round3_number (x : number) : number :=
  match x with
  | NInt z => NInt z
  | NFloat q => NFloat (py_round3 q)
  end.

(** A window, [(index, start, end)]; [w_start] and [w_end] are the values
    of its two bounds. *)
Definition Window : Type := Z * number * number.

Definition w_index (w : Window) : Z := fst (fst w).
Definition start_number (w : Window) : number := snd (fst w).
Definition end_number (w : Window) : number := snd w.
Definition w_start (w : Window) : Q := value (start_number w).
Definition w_end (w : Window) : Q := value (end_number w).

Definition s3_uri (bucket key : string) : string :=
  "s3://" +:+ bucket +:+ "/" +:+ key.

(** One turn of the loop of [compute_chunks]: the window of index [i], if
    it is not empty. The duration is a [float]; the chunk length and the
    overlap are [int]s, and so are the products and the difference. *)
Definition chunk_window (duration : Q) (chunk_sec overlap_sec : Z) (i : Z)
    : option Window :=
  let start :=
    max_number (NFloat 0)
      (NInt (i * chunk_sec - (if 0 <? i then overlap_sec else 0))) in
  let end' := min_number (NFloat duration) (NInt ((i + 1) * chunk_sec)) in
  if Qle_bool (value end') (value start) then None
  else Some (i, round3_number start, round3_number end').

(** [range(n)]. *)
Definition range (n : Z) : list Z := map Z.of_nat (seq 0 (Z.to_nat n)).

(** [compute_chunks(duration, chunk_sec, overlap_sec)]; [None] is the
    [ZeroDivisionError] of [duration / chunk_sec]. *)
Definition compute_chunks (duration : Q) (chunk_sec overlap_sec : Z)
    : option (list Window) :=
  if Qle_bool duration 0 then Some []
  else if chunk_sec =? 0 then None
  else
    let n := Qceiling (duration / inject_Z chunk_sec) in
    Some (omap (chunk_window duration chunk_sec overlap_sec) (range n)).

(** The first piece after the first piece that is [audio], if any. *)
Fixpoint after_audio (parts : list string) : option string :=
  match parts with
  | [] => None
  | piece :: rest =>
      if String.eqb piece "audio" then
        match rest with
        | next :: _ => Some next
        | [] => None
        end
      else after_audio rest
  end.

Section Config.

(** The bucket of the chunks and the manifest, the two key prefixes and the
    chunk extension (environment), and what the handler calls:
    [str(uuid.uuid5(uuid.NAMESPACE_URL, url))] and [str(x)] for a float. *)
Variables (INGEST_BUCKET CHUNK_PREFIX_BASE MANIFEST_PREFIX_BASE CHUNK_EXT : string).
Variable uuid5_url : string -> string.
Variable str_float : Q -> string.

Definition infer_job_id_from_key (key : string) : string :=
  let parts := split_slash key in
  match after_audio parts with
  | Some job => job
  | None =>
      match parts with
      | first :: _ :: _ =>
          if is_empty first then uuid5_url ("s3://" +:+ INGEST_BUCKET +:+ "/" +:+ key)
          else first
      | _ => uuid5_url ("s3://" +:+ INGEST_BUCKET +:+ "/" +:+ key)
      end
  end.

(** The command [ffmpeg_cut] hands to [subprocess.run], or the
    [ValueError] it raises before; [start] and [end'] are the values of
    the two bounds and [str_float] is [str] of a bound or of the
    duration. *)
Definition ffmpeg_cut (ffmpeg_bin input_path : string) (start end' : Q)
    (out_path ext : string) : result (list string) :=
  let duration := py_max 0 (end' - start) in
  if Qle_bool duration 0 then Raise ValueError
  else
    acodec <-
      (if String.eqb (lower ext) "wav"
       then Ok ["-acodec"; "pcm_s16le"; "-ar"; "16000"; "-ac"; "1"]%string
       else if String.eqb (lower ext) "mp3"
       then Ok ["-acodec"; "libmp3lame"; "-ar"; "16000"; "-ac"; "1"; "-b:a"; "128k"]%string
       else Raise ValueError);;
    Ok ([ffmpeg_bin; "-hide_banner"; "-nostdin";
         "-ss"; str_float start; "-i"; input_path;
         "-t"; str_float duration]%string
        ++ acodec ++ ["-y"; out_path]%string).

(** The key of the manifest of a job, and the record of a window in it. *)
Definition manifest_key (job : string) : string :=
  MANIFEST_PREFIX_BASE +:+ "/" +:+ job +:+ ".jsonl".

(** A number as [json.dumps] writes it and [json.loads] reads it back. *)
Definition number_json (x : number) : json :=
  match x with
  | NInt z => JInt z
  | NFloat q => JFloat q
  end.

Definition manifest_line (job src_bucket src_key : string) (w : Window) : json :=
  JObj (<["s3_uri" :=
            JStr (s3_uri INGEST_BUCKET
                    (CHUNK_PREFIX_BASE +:+ "/" +:+ job +:+ "/"
                     +:+ fmt_0d 3 (w_index w) +:+ "." +:+ CHUNK_EXT))]>
        (<["start_sec" := number_json (start_number w)]>
        (<["end_sec" := number_json (end_number w)]>
        (<["index" := JInt (w_index w)]>
        (<["job_id" := JStr job]>
        (<["source_bucket" := JStr src_bucket]>
        {["source_key" := JStr src_key]})))))).

End Config.

End Prepare.

Import Stitcher.

(** ** Vocabulary of the properties *)

Definition LF : string := String (ascii_of_nat 10) EmptyString.

(** A loop that converts every item and stops at the first exception. *)
Fixpoint map_result {A B} (f : A -> result B) (l : list A) : result (list B) :=
  match l with
  | [] => Ok []
  | x :: rest =>
      y <- f x;;
      ys <- map_result f rest;;
      Ok (y :: ys)
  end.

(** What the loader reads off one raw segment: [start], [end] and the
    trimmed [text]. *)
Definition normalized_segment (lib : PyLib) (s : json) : result ChunkSeg :=
  v <- dict_get s "start" (JFloat 0);;
  a <- py_float lib v;;
  v <- dict_get s "end" (JFloat 0);;
  b <- py_float lib v;;
  v <- dict_get s "text" JNull;;
  t <- py_strip (if truthy v then v else JStr EmptyString);;
  Ok {| c_start := a; c_end := b; c_text := t |}.

(** The load-time rule: the text is not empty and the span is longer than
    [EPS]. *)
Definition kept (c : ChunkSeg) : bool :=
  negb (is_empty (c_text c)) && negb (Qle_bool (c_end c - c_start c) EPS).

(** The raw segments of the chunk result stored under a key. *)
Definition raw_segments (s3 : S3Client) (bucket key : string) : result (list json) :=
  data <- get_object_json s3 bucket key;;
  segs <- dict_get data "segments" (JArr []);;
  py_iter segs.

(** A manifest line that is not blank, and its entry. *)
Definition nonblank (line : string) : bool := negb (is_empty (strip line)).

Definition decode_line (lib : PyLib) (line : string) : result Entry :=
  obj <- json_loads lib (strip line);;
  manifest_entry lib obj.

(** The order of the manifest. *)
Definition by_index (a b : Entry) : Prop := index a <= index b.

(** The chunk result of a window was found. *)
Definition chunk_found (s3 : S3Client) (bucket job : string) (e : Entry) : bool :=
  match _guess_chunk_key s3 bucket job (index e) with
  | Ok (Some _) => true
  | _ => false
  end.

(** The window contributes nothing: its chunk is missing, or loads as an
    empty list. *)
Definition contributes_nothing (lib : PyLib) (s3 : S3Client) (bucket job : string)
    (e : Entry) : Prop :=
  _guess_chunk_key s3 bucket job (index e) = Ok None
  \/ exists k, _guess_chunk_key s3 bucket job (index e) = Ok (Some k)
               /\ _load_chunk_segments lib s3 bucket k = Ok [].

(** Each segment starts at or after the end of the one before it. *)
Definition no_overlap (fixed : list Seg) : Prop :=
  forall (i : nat) (a b : Seg),
    fixed !! i = Some a -> fixed !! S i = Some b -> (end_ a <= start b)%Q.

(** Each segment lasts at least the minimum, and the ids are 0, 1, 2, ... *)
Definition long_enough_and_dense (MIN_SEGMENT_SEC : Q) (fixed : list Seg) : Prop :=
  forall (i : nat) (a : Seg),
    fixed !! i = Some a ->
    (MIN_SEGMENT_SEC <= end_ a - start a)%Q /\ id a = Z.of_nat i.

(** The posted invariant of the final sequence. *)
Definition posted_invariant (MIN_SEGMENT_SEC : Q) (fixed : list Seg) : Prop :=
  (forall (i : nat) (a b : Seg),
      fixed !! i = Some a -> fixed !! S i = Some b ->
      (start a <= start b)%Q /\ (end_ a <= start b)%Q /\ (end_ a <= end_ b)%Q)
  /\ long_enough_and_dense MIN_SEGMENT_SEC fixed.

(** A time is a multiple of 1/1000: rounding to three digits returns it. *)
Definition on_grid (q : Q) : Prop := (py_round3 q == q)%Q.

Definition seg_on_grid (s : Seg) : Prop := on_grid (start s) /\ on_grid (end_ s).

(** What the repair loop keeps true of [fixed] and [last]. *)
Definition repair_inv (MIN_SEGMENT_SEC : Q) (acc : list Seg * Q) : Prop :=
  let '(fixed, cursor) := acc in
  on_grid cursor
  /\ (forall a : Seg, last fixed = Some a -> (end_ a <= cursor)%Q)
  /\ long_enough_and_dense MIN_SEGMENT_SEC fixed
  /\ no_overlap fixed.

(** The longest run of leading items that pass a test. *)
Fixpoint take_while {A} (p : A -> bool) (l : list A) : list A :=
  match l with
  | [] => []
  | x :: rest => if p x then x :: take_while p rest else []
  end.

(** The accepted segments the backward scan visits for a candidate that
    starts at [gs]: from the last one back, while the start is within the
    look-back window. *)
Definition scanned (OVERLAP_SEC : Q) (accepted : list Seg) (gs : Q) : list Seg :=
  take_while (fun m => Qle_bool (gs - DEDUP_BACK_WINDOW OVERLAP_SEC) (start m))
    (rev accepted).

(** A text has no white space at either end. *)
Definition trimmed (t : string) : Prop :=
  (forall c rest, t = String c rest -> isspace c = false)
  /\ (forall front c, t = front +:+ String c EmptyString -> isspace c = false).

(** A text is the trimmed text of a raw segment of a chunk result that
    the discovery finds for a window of the manifest. *)
Definition chunk_text (s3 : S3Client) (bucket job : string) (manifest : list Entry)
    (t : string) : Prop :=
  exists (e : Entry) (key : string) (items : list json) (raw : json) (raw_text : string),
    e ∈ manifest
    /\ _guess_chunk_key s3 bucket job (index e) = Ok (Some key)
    /\ raw_segments s3 bucket key = Ok items
    /\ raw ∈ items
    /\ dict_get raw "text" JNull = Ok (JStr raw_text)
    /\ t = strip raw_text.

(** A segment lies in the span [lo .. hi], both rounded to three digits,
    and carries the text [t]. *)
Definition spans (lo hi : Q) (t : string) (seg : Seg) : Prop :=
  (py_round3 lo <= start seg)%Q /\ (end_ seg <= py_round3 hi)%Q /\ text seg = t.

(** A segment lies in one of the spans [X] offers. *)
Definition placed (X : Q -> Q -> string -> Prop) (seg : Seg) : Prop :=
  exists lo hi t, X lo hi t /\ spans lo hi t seg.

(** The span and text of a loaded segment of a chunk that the discovery
    finds for a window of the manifest, offset by the start of that
    window. *)
Definition offset_span (lib : PyLib) (s3 : S3Client) (bucket job : string)
    (manifest : list Entry) (lo hi : Q) (t : string) : Prop :=
  exists (e : Entry) (key : string) (segs : list ChunkSeg) (c : ChunkSeg),
    e ∈ manifest
    /\ _guess_chunk_key s3 bucket job (index e) = Ok (Some key)
    /\ _load_chunk_segments lib s3 bucket key = Ok segs
    /\ c ∈ segs
    /\ lo = (c_start c + start_sec e)%Q
    /\ hi = (c_end c + start_sec e)%Q
    /\ t = c_text c.

(** A string holds no slash. *)
Definition no_slash (s : string) : Prop :=
  existsb (fun d => (nat_of_ascii d =? 47)%nat) (list_ascii_of_string s) = false.

(** The two keys the discovery probes first for a chunk. *)
Definition padded_key (job : string) (idx : Z) : string :=
  "chunks/" +:+ job +:+ "/" +:+ fmt_0d 5 idx +:+ "/out.json".

Definition plain_key (job : string) (idx : Z) : string :=
  "chunks/" +:+ job +:+ "/" +:+ str_int idx +:+ "/out.json".

(** The strings of a list, one after the other. *)
Definition concat_strings (l : list string) : string := foldr String.append EmptyString l.

(** A cue of the WebVTT output: a blank line, the time line, the text. *)
Definition vtt_block (s : Seg) : string :=
  LF +:+ _sec_to_hhmmss_msec_vtt (start s) +:+ " --> " +:+ _sec_to_hhmmss_msec_vtt (end_ s)
  +:+ LF +:+ text s +:+ LF.

(** A cue of the SubRip output: the number, the time line, the text. *)
Definition srt_block (i : Z) (s : Seg) : string :=
  str_int i +:+ LF
  +:+ _sec_to_hhmmss_msec_srt (start s) +:+ " --> " +:+ _sec_to_hhmmss_msec_srt (end_ s)
  +:+ LF +:+ text s +:+ LF.

Fixpoint srt_blocks (i : Z) (segs : list Seg) : list string :=
  match segs with
  | [] => []
  | s :: rest => srt_block i s :: srt_blocks (i + 1) rest
  end.

(** The candidates the first pass has settled: accepted, dropped as
    short, or dropped as overlap. *)
Definition settled (st : MergeState) : Z :=
  Z.of_nat (length (merged st)) + dropped_short (meta st) + dropped_overlap (meta st).

(** A loaded segment passes the clamp of its window. *)
Definition inside_window (w_start w_end : Q) (c : ChunkSeg) : bool :=
  negb (outside_window w_start w_end (c_start c + w_start) (c_end c + w_start)).

(** The loaded segments that pass the clamp, over the found chunks of a
    manifest. *)
Fixpoint candidates (lib : PyLib) (s3 : S3Client) (bucket job : string)
    (manifest : list Entry) : Z :=
  match manifest with
  | [] => 0
  | e :: rest =>
      match _guess_chunk_key s3 bucket job (index e) with
      | Ok (Some key) =>
          match _load_chunk_segments lib s3 bucket key with
          | Ok segs =>
              Z.of_nat (length (List.filter (inside_window (start_sec e) (end_sec e)) segs))
          | Raise _ => 0
          end
      | _ => 0
      end
      + candidates lib s3 bucket job rest
  end.

(** The two times of a segment are what [round(., 3)] returns for them. *)
Definition rounded (s : Seg) : Prop :=
  py_round3 (start s) = start s /\ py_round3 (end_ s) = end_ s.

(** From the cursor [cur] and the id [n] on, the repair loop keeps every
    segment of [l] as it is. *)
Fixpoint stable_from (MIN_SEGMENT_SEC : Q) (n : nat) (cur : Q) (l : list Seg) : Prop :=
  match l with
  | [] => True
  | a :: rest =>
      id a = Z.of_nat n /\ rounded a /\ (cur <= start a)%Q
      /\ (MIN_SEGMENT_SEC <= end_ a - start a)%Q
      /\ stable_from MIN_SEGMENT_SEC (S n) (end_ a) rest
  end.

(** The end of the last segment of [l], or [cur] when there is none. *)
Definition final_end (cur : Q) (l : list Seg) : Q :=
  match last l with
  | Some a => end_ a
  | None => cur
  end.

(** The span of a window of the manifest whose chunk was found. *)
Definition found_window (s3 : S3Client) (bucket job : string) (manifest : list Entry)
    (lo hi : Q) (t : string) : Prop :=
  exists e : Entry,
    e ∈ manifest /\ chunk_found s3 bucket job e = true
    /\ lo = start_sec e /\ hi = end_sec e.

(** The window of index [i], as [compute_chunks] emits it. *)
Definition window_at (duration : Q) (chunk_sec overlap_sec : Z) (i : Z) : Prepare.Window :=
  (i,
   Prepare.round3_number
     (Prepare.max_number (Prepare.NFloat 0)
        (Prepare.NInt (i * chunk_sec - (if 0 <? i then overlap_sec else 0)))),
   Prepare.round3_number
     (Prepare.min_number (Prepare.NFloat duration) (Prepare.NInt ((i + 1) * chunk_sec)))).

(** A number that [float()] converts: a [float], or an [int] within the
    range of binary64. *)
Definition converts (x : Prepare.number) : Prop :=
  match x with
  | Prepare.NInt z => float_overflows z = false
  | Prepare.NFloat _ => True
  end.

(** The manifest entry of a window. *)
Definition entry_of (w : Prepare.Window) : Entry :=
  {| index := Prepare.w_index w;
     start_sec := Prepare.w_start w;
     end_sec := Prepare.w_end w |}.

(** *** Finite times

    What ties [Module Ieee] to [Module Stitcher]: a time is finite, the
    records of [Stitcher] as records of [Ieee], and the order of times as
    the comparisons of the code answer it. *)

Definition finite (x : Ieee.float) : Prop :=
  match x with
  | Ieee.Fin _ => True
  | _ => False
  end.

(** The value of a finite time (0 for a special value). *)
Definition val (x : Ieee.float) : Q :=
  match x with
  | Ieee.Fin q => q
  | _ => 0%Q
  end.

Definition finite_entry (e : Ieee.Entry) : Prop :=
  finite (Ieee.start_sec e) /\ finite (Ieee.end_sec e).

Definition finite_seg (s : Ieee.Seg) : Prop :=
  finite (Ieee.start s) /\ finite (Ieee.end_ s).

(** A time is a number: finite or infinite, not NaN. *)
Definition is_number (x : Ieee.float) : Prop :=
  match x with
  | Ieee.NaN => False
  | _ => True
  end.

Definition numeric_chunk_seg (c : Ieee.ChunkSeg) : Prop :=
  is_number (Ieee.c_start c) /\ is_number (Ieee.c_end c).

(** No segment the loader returns for a chunk that the discovery finds for
    a window of the manifest has NaN as its start or as its end. *)
Definition numeric_results (s3 : S3Client) (float_of_str : string -> result Ieee.float)
    (_read_s3_json : string -> string -> result Ieee.json) (bucket job : string)
    (manifest : list Ieee.Entry) : Prop :=
  forall (e : Ieee.Entry) (key : string) (segs : list Ieee.ChunkSeg),
    e ∈ manifest ->
    _guess_chunk_key s3 bucket job (Ieee.index e) = Ok (Some key) ->
    Ieee._load_chunk_segments float_of_str _read_s3_json bucket key = Ok segs ->
    Forall numeric_chunk_seg segs.

Definition of_chunk_seg (c : ChunkSeg) : Ieee.ChunkSeg :=
  {| Ieee.c_start := Ieee.Fin (c_start c);
     Ieee.c_end := Ieee.Fin (c_end c);
     Ieee.c_text := c_text c |}.

(** Two finite offsets: one puts a time before the window
    [w_start .. w_end] and before its clamp, one puts it after both. *)
Definition before_window (w_start w_end : Q) : Q :=
  (py_min 0 (w_end - EPS - w_start) - 1)%Q.

Definition after_window (w_start w_end : Q) : Q :=
  (py_max EPS (w_end - w_start) + 1)%Q.

(** A finite segment that the merge treats, in the window
    [w_start .. w_end], as it treats [c]: an infinite start or end is
    moved to a finite time on the same side of the window. *)
Definition stand_in_time (w_start w_end : Q) (x : Ieee.float) : Q :=
  match x with
  | Ieee.Fin q => q
  | Ieee.NegInf => before_window w_start w_end
  | Ieee.PosInf => after_window w_start w_end
  | Ieee.NaN => 0%Q
  end.

Definition stand_in (w_start w_end : Q) (c : Ieee.ChunkSeg) : ChunkSeg :=
  {| c_start := stand_in_time w_start w_end (Ieee.c_start c);
     c_end := stand_in_time w_start w_end (Ieee.c_end c);
     c_text := Ieee.c_text c |}.

Definition of_seg (s : Seg) : Ieee.Seg :=
  {| Ieee.id := id s;
     Ieee.start := Ieee.Fin (start s);
     Ieee.end_ := Ieee.Fin (end_ s);
     Ieee.text := text s |}.

Definition of_state (st : MergeState) : Ieee.MergeState :=
  {| Ieee.merged := map of_seg (merged st);
     Ieee.seg_id := seg_id st;
     Ieee.last_end := Ieee.Fin (last_end st);
     Ieee.meta := meta st |}.

(** A document, a window and a result of [Stitcher], in [Ieee]. *)
Fixpoint of_json (v : json) : Ieee.json :=
  match v with
  | JNull => Ieee.JNull
  | JBool b => Ieee.JBool b
  | JInt z => Ieee.JInt z
  | JFloat q => Ieee.JFloat (Ieee.Fin q)
  | JStr s => Ieee.JStr s
  | JArr l => Ieee.JArr (map of_json l)
  | JObj m => Ieee.JObj (of_json <$> m)
  end.

Definition of_entry (e : Entry) : Ieee.Entry :=
  {| Ieee.index := index e;
     Ieee.start_sec := Ieee.Fin (start_sec e);
     Ieee.end_sec := Ieee.Fin (end_sec e) |}.

Definition of_result {A B} (f : A -> B) (r : result A) : result B :=
  match r with
  | Ok a => Ok (f a)
  | Raise e => Raise e
  end.

(** [x <= y] is true. *)
Definition at_most (x y : Ieee.float) : Prop := Ieee.le x y = true.

(** The posted invariant, on times of [Ieee]. *)
Definition float_no_overlap (fixed : list Ieee.Seg) : Prop :=
  forall (i : nat) (a b : Ieee.Seg),
    fixed !! i = Some a -> fixed !! S i = Some b ->
    at_most (Ieee.end_ a) (Ieee.start b).

Definition float_long_enough_and_dense (MIN_SEGMENT_SEC : Ieee.float)
    (fixed : list Ieee.Seg) : Prop :=
  forall (i : nat) (a : Ieee.Seg),
    fixed !! i = Some a ->
    at_most MIN_SEGMENT_SEC (Ieee.sub (Ieee.end_ a) (Ieee.start a))
    /\ Ieee.id a = Z.of_nat i.

Definition float_posted_invariant (MIN_SEGMENT_SEC : Ieee.float)
    (fixed : list Ieee.Seg) : Prop :=
  (forall (i : nat) (a b : Ieee.Seg),
      fixed !! i = Some a -> fixed !! S i = Some b ->
      at_most (Ieee.start a) (Ieee.start b)
      /\ at_most (Ieee.end_ a) (Ieee.start b)
      /\ at_most (Ieee.end_ a) (Ieee.end_ b))
  /\ float_long_enough_and_dense MIN_SEGMENT_SEC fixed.

(** ** Test doubles for the services *)

Module Fixture.

Fixpoint strip_prefix (p s : string) : option string :=
  match p, s with
  | EmptyString, _ => Some s
  | String a p', String b s' => if Ascii.eqb a b then strip_prefix p' s' else None
  | String _ _, EmptyString => None
  end.

Fixpoint upto_slash (s : string) : option string :=
  match s with
  | EmptyString => None
  | String c s' =>
      if (nat_of_ascii c =? 47)%nat then Some "/"%string
      else option_map (String c) (upto_slash s')
  end.

Definition common_prefix (prefix key : string) : option string :=
  rest ← strip_prefix prefix key;
  d ← upto_slash rest;
  Some (prefix +:+ d).

(** A bucket holding the decoded documents [objs]: a key that is absent
    answers 404. *)
Definition bucket_client (objs : gmap string json) : S3Client :=
  {| head_object := fun _ key =>
       match objs !! key with
       | Some _ => HeadFound
       | None => HeadClientError 404 "404"
       end;
     list_common_prefixes := fun _ prefix =>
       map Some (remove_dups (omap (common_prefix prefix) (map fst (map_to_list objs))));
     get_object_json := fun _ key =>
       match objs !! key with
       | Some doc => Ok doc
       | None => Raise ClientError
       end |}.

(** A library whose [json.loads] knows the documents of [table], whose
    matcher is [Difflib.ratio], and whose conversions of a string to a
    number reject the string (the documents below hold numbers). *)
Definition lib (table : list (string * json)) : PyLib :=
  {| json_loads := fun text =>
       match find (fun p => String.eqb (fst p) text) table with
       | Some p => Ok (snd p)
       | None => Raise JSONDecodeError
       end;
     int_of_str := fun _ => Raise ValueError;
     float_of_str := fun _ => Raise ValueError;
     sequence_ratio := Difflib.ratio |}.

Definition segment_json (a b : Q) (t : string) : json :=
  JObj (<["start" := JFloat a]> (<["end" := JFloat b]> {["text" := JStr t]})).

Definition chunk_json (segs : list json) : json :=
  JObj {["segments" := JArr segs]}.

Definition record_json (i : Z) (a b : Q) : json :=
  JObj (<["index" := JInt i]> (<["start_sec" := JFloat a]> {["end_sec" := JFloat b]})).

(** The text of a manifest line, from the texts of its three numbers. *)
Definition dq : string := String (ascii_of_nat 34) EmptyString.

Definition record_text (i a b : string) : string :=
  "{" +:+ dq +:+ "index" +:+ dq +:+ ": " +:+ i +:+ ", "
  +:+ dq +:+ "start_sec" +:+ dq +:+ ": " +:+ a +:+ ", "
  +:+ dq +:+ "end_sec" +:+ dq +:+ ": " +:+ b +:+ "}".

(** A manifest of four windows, out of order, two of them with index 1,
    and a blank line. *)
Definition manifest_table : list (string * json) :=
  [ (record_text "2" "1199.0" "1800.0", record_json 2 1199 1800);
    (record_text "1" "599.0" "1200.0", record_json 1 599 1200);
    (record_text "0" "0.0" "600.0", record_json 0 0 600);
    (record_text "1" "600.0" "1201.0", record_json 1 600 1201) ].

Definition manifest_text : string :=
  record_text "2" "1199.0" "1800.0" +:+ LF
  +:+ record_text "1" "599.0" "1200.0" +:+ LF
  +:+ "  " +:+ LF
  +:+ record_text "0" "0.0" "600.0" +:+ LF
  +:+ record_text "1" "600.0" "1201.0" +:+ LF.

(** A manifest of one window that ends before it starts, with a negative
    index. *)
Definition backward_table : list (string * json) :=
  [ (record_text "-1" "5.0" "2.0", record_json (-1) 5 2) ].

Definition backward_text : string := record_text "-1" "5.0" "2.0" +:+ LF.

(** Two windows that overlap by a second; the first chunk ends with the
    words the second begins with. *)
Definition hello_manifest : list Entry :=
  [ {| index := 0; start_sec := 0; end_sec := 600 |};
    {| index := 1; start_sec := 599; end_sec := 1200 |} ].

Definition hello_objects : gmap string json :=
  <["chunks/job/00000/out.json" :=
      chunk_json [ segment_json 590 598 "good morning";
                   segment_json (5985 # 10) (5998 # 10) "hello world" ]]>
    {["chunks/job/00001/out.json" :=
        chunk_json [ segment_json (1 # 10) (13 # 10) "hello world";
                     segment_json 2 5 "how are you" ]]}.

(** Three windows; the result of the second chunk is absent. *)
Definition gap_manifest : list Entry :=
  [ {| index := 0; start_sec := 0; end_sec := 600 |};
    {| index := 1; start_sec := 599; end_sec := 1200 |};
    {| index := 2; start_sec := 1199; end_sec := 1800 |} ].

Definition gap_objects : gmap string json :=
  <["chunks/job/00000/out.json" := chunk_json [ segment_json 1 4 "first window" ]]>
    {["chunks/job/2/out.json" :=
        chunk_json [ segment_json (3 # 2) 3 " third window " ]]}.

(** The merge state once the first chunk of a job is through, with
    "hello world" accepted last, and the candidate that repeats it. *)
Definition after_first_chunk : MergeState :=
  {| merged := [ {| id := 0; start := 5985 # 10; end_ := 5998 # 10;
                    text := "hello world" |} ];
     seg_id := 1;
     last_end := 5998 # 10;
     meta := {| chunks := 1; dropped_short := 0; dropped_overlap := 0 |} |}.

Definition hello_again : ChunkSeg :=
  {| c_start := 1 # 10; c_end := 13 # 10; c_text := "hello world" |}.

Definition hi : Seg := {| id := 0; start := 0; end_ := 15 # 10; text := "Hi" |}.

(** The configuration of a prepare handler, the record it writes for a
    window of the job [job-7], and the text of that record from the texts
    of its numbers. *)
Definition prepared_record (w : Prepare.Window) : json :=
  Prepare.manifest_line "ingest" "chunks" "wav" "job-7" "uploads"
    "audio/job-7/talk.wav" w.

Definition prepared_text (i3 i a b : string) : string :=
  "{" +:+ dq +:+ "s3_uri" +:+ dq +:+ ": " +:+ dq
  +:+ "s3://ingest/chunks/job-7/" +:+ i3 +:+ ".wav" +:+ dq +:+ ", "
  +:+ dq +:+ "start_sec" +:+ dq +:+ ": " +:+ a +:+ ", "
  +:+ dq +:+ "end_sec" +:+ dq +:+ ": " +:+ b +:+ ", "
  +:+ dq +:+ "index" +:+ dq +:+ ": " +:+ i +:+ ", "
  +:+ dq +:+ "job_id" +:+ dq +:+ ": " +:+ dq +:+ "job-7" +:+ dq +:+ ", "
  +:+ dq +:+ "source_bucket" +:+ dq +:+ ": " +:+ dq +:+ "uploads" +:+ dq +:+ ", "
  +:+ dq +:+ "source_key" +:+ dq +:+ ": " +:+ dq +:+ "audio/job-7/talk.wav" +:+ dq
  +:+ "}".

(** The manifest of a recording of half an hour, cut into windows of ten
    minutes that overlap by a second: the first start and the last end are
    [float]s, the bounds between are [int]s. *)
Definition prepared_windows : list Prepare.Window :=
  [ (0, Prepare.NFloat (py_round3 0), Prepare.NInt 600);
    (1, Prepare.NInt 599, Prepare.NInt 1200);
    (2, Prepare.NInt 1199, Prepare.NFloat (py_round3 1800)) ].

Definition prepared_table : list (string * json) :=
  [ (prepared_text "000" "0" "0.0" "600",
     prepared_record (0, Prepare.NFloat (py_round3 0), Prepare.NInt 600));
    (prepared_text "001" "1" "599" "1200",
     prepared_record (1, Prepare.NInt 599, Prepare.NInt 1200));
    (prepared_text "002" "2" "1199" "1800.0",
     prepared_record (2, Prepare.NInt 1199, Prepare.NFloat (py_round3 1800))) ].

Definition prepared_manifest : string :=
  prepared_text "000" "0" "0.0" "600" +:+ LF
  +:+ prepared_text "001" "1" "599" "1200" +:+ LF
  +:+ prepared_text "002" "2" "1199" "1800.0" +:+ LF.

(** A reader of documents whose numbers may be special values, and a
    [float()] that rejects every string. *)
Definition reader (docs : gmap string Ieee.json) : string -> string -> result Ieee.json :=
  fun _ key =>
    match docs !! key with
    | Some doc => Ok doc
    | None => Raise ClientError
    end.

Definition no_float_of_str : string -> result Ieee.float := fun _ => Raise ValueError.

(** The reader and the [float()] of [Ieee] that hand over what a client and
    a library of [Stitcher] do. *)
Definition finite_reader (s3 : S3Client) : string -> string -> result Ieee.json :=
  fun bucket key => of_result of_json (get_object_json s3 bucket key).

Definition finite_float_of_str (lib : PyLib) : string -> result Ieee.float :=
  fun s => of_result Ieee.Fin (float_of_str lib s).

Definition float_segment_json (a b : Ieee.float) (t : string) : Ieee.json :=
  Ieee.JObj (<["start" := Ieee.JFloat a]>
            (<["end" := Ieee.JFloat b]> {["text" := Ieee.JStr t]})).

Definition float_chunk_json (segs : list Ieee.json) : Ieee.json :=
  Ieee.JObj {["segments" := Ieee.JArr segs]}.

(** One window of ten minutes whose chunk result holds three segments, the
    second with [NaN] as its end. *)
Definition nan_manifest : list Ieee.Entry :=
  [ {| Ieee.index := 0; Ieee.start_sec := Ieee.Fin 0; Ieee.end_sec := Ieee.Fin 600 |} ].

Definition nan_bucket : gmap string json :=
  {["chunks/job/00000/out.json" := JNull]}.

Definition nan_documents : gmap string Ieee.json :=
  {["chunks/job/00000/out.json" :=
      float_chunk_json
        [ float_segment_json (Ieee.Fin 5) (Ieee.Fin 6) "a";
          float_segment_json (Ieee.Fin 0) Ieee.NaN "b";
          float_segment_json (Ieee.Fin 1) (Ieee.Fin 2) "c" ]]}.

(** One window whose start and end are both [Infinity], and a chunk
    result of one finite segment. *)
Definition endless_manifest : list Ieee.Entry :=
  [ {| Ieee.index := 0; Ieee.start_sec := Ieee.PosInf; Ieee.end_sec := Ieee.PosInf |} ].

Definition plain_documents : gmap string Ieee.json :=
  {["chunks/job/00000/out.json" :=
      float_chunk_json [ float_segment_json (Ieee.Fin 0) (Ieee.Fin 1) "a" ]]}.

(** The two windows and the documents of [hello_objects], for [Ieee]. *)
Definition hello_windows : list Ieee.Entry :=
  [ {| Ieee.index := 0; Ieee.start_sec := Ieee.Fin 0; Ieee.end_sec := Ieee.Fin 600 |};
    {| Ieee.index := 1; Ieee.start_sec := Ieee.Fin 599; Ieee.end_sec := Ieee.Fin 1200 |} ].

Definition hello_documents : gmap string Ieee.json :=
  <["chunks/job/00000/out.json" :=
      float_chunk_json
        [ float_segment_json (Ieee.Fin 590) (Ieee.Fin 598) "good morning";
          float_segment_json (Ieee.Fin (5985 # 10)) (Ieee.Fin (5998 # 10)) "hello world" ]]>
    {["chunks/job/00001/out.json" :=
        float_chunk_json
          [ float_segment_json (Ieee.Fin (1 # 10)) (Ieee.Fin (13 # 10)) "hello world";
            float_segment_json (Ieee.Fin 2) (Ieee.Fin 5) "how are you" ]]}.

(** Two windows, the first of which ends before it starts, and in its
    chunk a segment that begins before the chunk does. *)
Definition crossed_manifest : list Entry :=
  [ {| index := 0; start_sec := 5; end_sec := 2 |};
    {| index := 1; start_sec := 3; end_sec := 4 |} ].

Definition crossed_objects : gmap string json :=
  <["chunks/job/00000/out.json" := chunk_json [ segment_json (-4) 1 "a" ]]>
    {["chunks/job/00001/out.json" := chunk_json [ segment_json 0 1 "b" ]]}.

End Fixture.

(** ** Properties *)

(** Case analysis on the first call in a chain of [bind]s. *)
Ltac step_bind :=
  match goal with
  | |- context [bind ?m _] => destruct m eqn:?; cbn [bind]
  end.

(** *** Order tests *)

Lemma Qlt_bool_iff (a b : Q) : Qlt_bool a b = true <-> (a < b)%Q.
Proof.
  unfold Qlt_bool. rewrite negb_true_iff.
  split.
  - intros H. apply Qnot_le_lt. intros Hle. apply Qle_bool_iff in Hle. congruence.
  - intros H. destruct (Qle_bool b a) eqn:E; [|done].
    apply Qle_bool_iff in E. exfalso. apply (Qlt_not_le _ _ H E).
Qed.

Lemma Qlt_bool_false (a b : Q) : Qlt_bool a b = false <-> (b <= a)%Q.
Proof.
  unfold Qlt_bool. rewrite negb_false_iff. apply Qle_bool_iff.
Qed.

Lemma Qle_bool_false (a b : Q) : Qle_bool a b = false <-> (b < a)%Q.
Proof.
  split.
  - intros H. apply Qnot_le_lt. intros Hle. apply Qle_bool_iff in Hle. congruence.
  - intros H. destruct (Qle_bool a b) eqn:E; [|done].
    apply Qle_bool_iff in E. exfalso. apply (Qlt_not_le _ _ H E).
Qed.

(** *** Rendering *)

(** C2, as amended: for the one-segment sequence
    [{id:0, start:0.0, end:1.5, text:"Hi"}] the WebVTT renderer returns the
    header, a blank line, the cue line and the text, each ended by one line
    feed, and the SubRip renderer returns the cue number, the cue line and
    the text, each ended by one line feed: the output ends with a single
    line feed. *)
Theorem render_one_segment :
  _to_vtt [Fixture.hi]
    = "WEBVTT" +:+ LF +:+ LF +:+ "00:00:00.000 --> 00:00:01.500" +:+ LF +:+ "Hi" +:+ LF
  /\ _to_srt [Fixture.hi]
    = "1" +:+ LF +:+ "00:00:00,000 --> 00:00:01,500" +:+ LF +:+ "Hi" +:+ LF.
Proof. split; reflexivity. Qed.

(** C2, as stated, fails: neither output ends with two line feeds. *)
Lemma render_one_segment_counterexample :
  String.eqb (_to_vtt [Fixture.hi])
    ("WEBVTT" +:+ LF +:+ LF +:+ "00:00:00.000 --> 00:00:01.500" +:+ LF +:+ "Hi" +:+ LF +:+ LF)
    = false
  /\ String.eqb (_to_srt [Fixture.hi])
    ("1" +:+ LF +:+ "00:00:00,000 --> 00:00:01,500" +:+ LF +:+ "Hi" +:+ LF +:+ LF)
    = false.
Proof. split; reflexivity. Qed.

(** *** The clamp *)

(** C9: a candidate whose converted span ends before [window start + EPS]
    or starts after [window end - EPS] leaves the whole merge state as it
    was: the accepted list, the next id, the last accepted end and the
    three counters. *)
Theorem clamp_discard_is_silent (OVERLAP_SEC MIN_SEGMENT_SEC : Q) (lib : PyLib)
    (w_start w_end : Q) (st : MergeState) (s : ChunkSeg) :
  (c_end s + w_start < w_start + EPS)%Q \/ (c_start s + w_start > w_end - EPS)%Q ->
  merge_segment OVERLAP_SEC MIN_SEGMENT_SEC lib w_start w_end st s = st.
Proof.
  intros H. unfold merge_segment.
  replace (outside_window w_start w_end (c_start s + w_start) (c_end s + w_start))
    with true; [reflexivity|].
  symmetry. unfold outside_window. apply orb_true_iff.
  destruct H as [H|H]; [left|right]; by apply Qlt_bool_iff.
Qed.

Lemma clamp_discard_is_silent_witness :
  merge_segment 1 (6 # 100) (Fixture.lib []) 599 1200 initial_state
    {| c_start := 700; c_end := 702; c_text := "late" |}
  = initial_state.
Proof.
  apply clamp_discard_is_silent. right. vm_compute. reflexivity.
Defined.

(** *** Empty input *)

Section EmptyInput.

Variables (OVERLAP_SEC MIN_SEGMENT_SEC : Q) (lib : PyLib) (s3 : S3Client).
Variables (bucket job : string).

Lemma merge_loop_nothing (manifest : list Entry) (st : MergeState) :
  (forall e, e ∈ manifest -> contributes_nothing lib s3 bucket job e) ->
  exists st',
    merge_loop OVERLAP_SEC MIN_SEGMENT_SEC lib s3 bucket job manifest st = Ok st'
    /\ merged st' = merged st
    /\ dropped_short (meta st') = dropped_short (meta st)
    /\ dropped_overlap (meta st') = dropped_overlap (meta st).
Proof.
  revert st. induction manifest as [|e rest IH]; intros st H.
  - exists st. done.
  - assert (He : contributes_nothing lib s3 bucket job e) by (apply H; left).
    assert (Hrest : forall e', e' ∈ rest -> contributes_nothing lib s3 bucket job e')
      by (intros e' Hin; apply H; by right).
    cbn [merge_loop]. unfold merge_entry.
    destruct He as [He | (k & He & Hload)]; rewrite He; cbn [bind].
    + apply IH, Hrest.
    + rewrite Hload. cbn [bind fold_left].
      destruct (IH {| merged := merged st; seg_id := seg_id st;
                      last_end := last_end st;
                      meta := bump_chunks (meta st) |} Hrest)
        as (st' & -> & ? & ? & ?).
      exists st'. done.
Qed.

End EmptyInput.

(** C5, as amended: when the manifest has no window, or every window's
    chunk is missing or loads no segment, the merge returns the empty
    sequence and drops nothing; for the empty sequence the plain text is
    empty, the WebVTT output is the header followed by one line feed, the
    SubRip output is empty and [duration_sec] is 0.0; for a sequence that is
    not empty [duration_sec] is the end of its last segment. *)
Theorem empty_input (OVERLAP_SEC MIN_SEGMENT_SEC : Q) (lib : PyLib) (s3 : S3Client)
    (manifest : list Entry) (bucket job : string) (lang : option string) :
  (forall e, e ∈ manifest -> contributes_nothing lib s3 bucket job e) ->
  (exists meta,
      _merge_segments OVERLAP_SEC MIN_SEGMENT_SEC lib s3 manifest bucket job
        = Ok ([], meta)
      /\ dropped_short meta = 0 /\ dropped_overlap meta = 0)
  /\ _to_txt [] = EmptyString
  /\ _to_vtt [] = "WEBVTT" +:+ LF
  /\ _to_srt [] = EmptyString
  /\ duration_sec (_to_transcript_json job lang []) = 0%Q
  /\ (forall segs s, last segs = Some s ->
        duration_sec (_to_transcript_json job lang segs) = end_ s).
Proof.
  intros H. split; [|repeat split].
  - destruct (merge_loop_nothing OVERLAP_SEC MIN_SEGMENT_SEC lib s3 bucket job
                manifest initial_state H) as (st' & Hloop & Hm & Hs & Ho).
    exists (meta st'). unfold _merge_segments. rewrite Hloop. cbn [bind].
    rewrite Hm. done.
  - intros segs s Hlast. cbn. by rewrite Hlast.
Qed.

Lemma empty_input_witness :
  exists meta,
    _merge_segments 1 (6 # 100) (Fixture.lib [])
      (Fixture.bucket_client {["chunks/job/00001/out.json" := Fixture.chunk_json []]})
      [ {| index := 0; start_sec := 0; end_sec := 600 |};
        {| index := 1; start_sec := 599; end_sec := 1200 |} ]
      "results" "job"
    = Ok ([], meta)
    /\ dropped_short meta = 0 /\ dropped_overlap meta = 0.
Proof.
  refine (proj1 (empty_input 1 (6 # 100) (Fixture.lib []) _ _ "results" "job" None _)).
  intros e He.
  apply list_elem_of_In in He. simpl in He.
  destruct He as [<- | [<- | []]].
  - left. vm_compute. reflexivity.
  - right. exists "chunks/job/00001/out.json"%string. split; vm_compute; reflexivity.
Defined.

(** C5, as stated, fails: the WebVTT output of the empty sequence is not
    the header followed by two line feeds. *)
Lemma empty_input_counterexample :
  _to_vtt [] = "WEBVTT" +:+ LF
  /\ String.eqb (_to_vtt []) ("WEBVTT" +:+ LF +:+ LF) = false.
Proof. split; reflexivity. Qed.

(** *** The loader *)

Lemma load_loop_filter (lib : PyLib) (items : list json) (norm : list ChunkSeg) :
  load_loop lib items norm
  = (raws <- map_result (normalized_segment lib) items;;
     Ok (norm ++ List.filter kept raws)).
Proof.
  revert norm. induction items as [|s rest IH]; intros norm.
  - cbn. by rewrite app_nil_r.
  - cbn [load_loop map_result]. unfold normalized_segment at 1.
    do 6 (step_bind; [|reflexivity]).
    rewrite !IH.
    destruct (map_result (normalized_segment lib) rest) as [ys|e]; cbn [bind].
    + cbn [List.filter].
      match goal with
      | |- context [if kept ?c then _ else _] =>
          replace (kept c)
            with (negb (is_empty (c_text c))
                  && negb (Qle_bool (c_end c - c_start c) EPS)) by reflexivity;
          cbn [c_text c_start c_end]
      end.
      repeat match goal with
             | |- context [if ?b then _ else _] => destruct b; cbn [negb andb]
             end; rewrite <- ?app_assoc; reflexivity.
    + repeat match goal with
             | |- context [if ?b then _ else _] => destruct b
             end; reflexivity.
Qed.

(** C7: the loader returns the raw segments of the chunk result, each
    read as [start], [end] and trimmed [text], without exactly those whose
    trimmed text is empty or whose [end - start] is at most [EPS] (1e-6);
    the others come out in their order with these three fields. *)
Theorem loader_discards_exactly (lib : PyLib) (s3 : S3Client) (bucket key : string) :
  _load_chunk_segments lib s3 bucket key
  = (items <- raw_segments s3 bucket key;;
     raws <- map_result (normalized_segment lib) items;;
     Ok (List.filter kept raws))
  /\ (forall c, kept c = false
                <-> c_text c = EmptyString \/ (c_end c - c_start c <= EPS)%Q)
  /\ (forall (m : gmap string json) a b t,
        m !! "start"%string = Some (JFloat a) ->
        m !! "end"%string = Some (JFloat b) ->
        m !! "text"%string = Some (JStr t) ->
        normalized_segment lib (JObj m)
        = Ok {| c_start := a; c_end := b; c_text := strip t |}).
Proof.
  split; [|split].
  - unfold _load_chunk_segments, raw_segments.
    repeat (step_bind; [|reflexivity]).
    rewrite load_loop_filter. reflexivity.
  - intros c. unfold kept. rewrite andb_false_iff, !negb_false_iff, Qle_bool_iff.
    destruct (c_text c); cbn; intuition congruence.
  - intros m a b t Ha Hb Ht. unfold normalized_segment. cbn.
    rewrite Ha, Hb, Ht. cbn. by destruct t.
Qed.

Lemma loader_discards_exactly_witness :
  _load_chunk_segments (Fixture.lib [])
    (Fixture.bucket_client
       {["chunks/job/00000/out.json" :=
           Fixture.chunk_json
             [ Fixture.segment_json 1 2 "  hello ";
               Fixture.segment_json 2 3 "   ";
               Fixture.segment_json 3 3 "point";
               Fixture.segment_json 4 (9 # 2) "world" ]]})
    "results" "chunks/job/00000/out.json"
  = Ok [ {| c_start := 1; c_end := 2; c_text := "hello" |};
         {| c_start := 4; c_end := 9 # 2; c_text := "world" |} ]
  /\ normalized_segment (Fixture.lib [])
       (Fixture.segment_json 1 2 "  hello ")
     = Ok {| c_start := 1; c_end := 2; c_text := "hello" |}.
Proof.
  split.
  - rewrite (proj1 (loader_discards_exactly _ _ _ _)). vm_compute. reflexivity.
  - apply (proj2 (proj2 (loader_discards_exactly (Fixture.lib []) (Fixture.bucket_client ∅)
                           EmptyString EmptyString)) _ 1%Q 2%Q "  hello "%string);
      vm_compute; reflexivity.
Defined.

(** *** Manifest parsing *)

Lemma parse_lines_decode (lib : PyLib) (lines : list string) (acc : list Entry) :
  parse_lines lib lines acc
  = (es <- map_result (decode_line lib) (List.filter nonblank lines);;
     Ok (acc ++ es)).
Proof.
  revert acc. induction lines as [|line rest IH]; intros acc.
  - cbn. by rewrite app_nil_r.
  - cbn [parse_lines List.filter]. unfold nonblank at 1.
    destruct (is_empty (strip line)) eqn:E; cbn [negb].
    + apply IH.
    + cbn [map_result]. unfold decode_line at 1.
      destruct (json_loads lib (strip line)); cbn [bind]; [|reflexivity].
      destruct (manifest_entry lib a); cbn [bind]; [|reflexivity].
      rewrite IH.
      destruct (map_result (decode_line lib) (List.filter nonblank rest));
        cbn [bind]; [|reflexivity].
      by rewrite <- app_assoc.
Qed.

Lemma parse_manifest_decode (lib : PyLib) (text : string) :
  _parse_manifest_jsonl lib text
  = (es <- map_result (decode_line lib) (List.filter nonblank (splitlines text));;
     Ok (sort_by_index es)).
Proof.
  unfold _parse_manifest_jsonl. rewrite parse_lines_decode.
  by destruct (map_result _ _).
Qed.

Lemma insert_by_index_perm (e : Entry) (l : list Entry) :
  insert_by_index e l ≡ₚ e :: l.
Proof.
  induction l as [|x r IH]; cbn; [done|].
  destruct (index e <=? index x); [done|].
  rewrite IH. apply Permutation_swap.
Qed.

Lemma sort_by_index_perm (l : list Entry) : sort_by_index l ≡ₚ l.
Proof.
  induction l as [|x r IH]; cbn; [done|].
  fold (sort_by_index r). rewrite insert_by_index_perm. by rewrite IH.
Qed.

Lemma insert_by_index_sorted (e : Entry) (l : list Entry) :
  StronglySorted by_index l -> StronglySorted by_index (insert_by_index e l).
Proof.
  induction 1 as [|x r Hr IH Hx]; cbn.
  - repeat constructor.
  - destruct (index e <=? index x) eqn:E.
    + apply Z.leb_le in E. constructor; [by constructor|].
      constructor; [exact E|].
      eapply Forall_impl; [exact Hx|]. unfold by_index. intros; lia.
    + apply Z.leb_gt in E. constructor; [exact IH|].
      rewrite insert_by_index_perm. constructor; [unfold by_index; lia | exact Hx].
Qed.

Lemma sort_by_index_sorted (l : list Entry) : StronglySorted by_index (sort_by_index l).
Proof.
  induction l as [|x r IH]; cbn; [constructor|].
  by apply insert_by_index_sorted.
Qed.

Lemma sorted_lookup (l : list Entry) (i j : nat) (a b : Entry) :
  StronglySorted by_index l -> (i < j)%nat ->
  l !! i = Some a -> l !! j = Some b -> index a <= index b.
Proof.
  intros Hs. revert i j. induction Hs as [|x r Hr IH Hx]; intros i j Hij Ha Hb.
  - by rewrite lookup_nil in Ha.
  - destruct j as [|j]; [lia|]. cbn in Hb. destruct i as [|i]; cbn in Ha.
    + injection Ha as <-. rewrite Forall_forall in Hx.
      apply Hx. by eapply list_elem_of_lookup_2.
    + eapply (IH i j); [lia|done..].
Qed.

Lemma insert_by_index_stable (k : Z) (e : Entry) (l : list Entry) :
  List.filter (fun x => index x =? k) (insert_by_index e l)
  = List.filter (fun x => index x =? k) (e :: l).
Proof.
  induction l as [|x r IH]; [done|].
  cbn [insert_by_index]. destruct (index e <=? index x) eqn:E; [done|].
  apply Z.leb_gt in E. cbn [List.filter] in *. rewrite IH.
  destruct (index e =? k) eqn:Ee; [|done].
  apply Z.eqb_eq in Ee.
  replace (index x =? k) with false; [done|].
  symmetry. apply Z.eqb_neq. lia.
Qed.

Lemma sort_by_index_stable (k : Z) (l : list Entry) :
  List.filter (fun x => index x =? k) (sort_by_index l)
  = List.filter (fun x => index x =? k) l.
Proof.
  induction l as [|x r IH]; [done|].
  cbn [sort_by_index foldr]. fold (sort_by_index r).
  rewrite insert_by_index_stable. cbn [List.filter]. by rewrite IH.
Qed.

(** C8: the parse returns the entries of the lines that are not blank,
    all of them (a permutation: entries with the same index are all kept),
    in ascending order of index, and for every index the entries with that
    index stand in the order of their lines. *)
Theorem manifest_sorted_stable (lib : PyLib) (text : string) (entries : list Entry) :
  _parse_manifest_jsonl lib text = Ok entries ->
  exists parsed,
    map_result (decode_line lib) (List.filter nonblank (splitlines text)) = Ok parsed
    /\ entries ≡ₚ parsed
    /\ (forall (i j : nat) (a b : Entry),
          (i < j)%nat -> entries !! i = Some a -> entries !! j = Some b ->
          index a <= index b)
    /\ (forall k : Z,
          List.filter (fun e => index e =? k) entries
          = List.filter (fun e => index e =? k) parsed).
Proof.
  rewrite parse_manifest_decode.
  destruct (map_result _ _) as [parsed|e]; cbn [bind]; [|discriminate].
  intros [= <-]. exists parsed. split; [done|]. split; [apply sort_by_index_perm|].
  split.
  - intros i j a b. apply sorted_lookup, sort_by_index_sorted.
  - intros k. apply sort_by_index_stable.
Qed.

Lemma manifest_sorted_stable_witness :
  _parse_manifest_jsonl (Fixture.lib Fixture.manifest_table) Fixture.manifest_text
  = Ok [ {| index := 0; start_sec := 0; end_sec := 600 |};
         {| index := 1; start_sec := 599; end_sec := 1200 |};
         {| index := 1; start_sec := 600; end_sec := 1201 |};
         {| index := 2; start_sec := 1199; end_sec := 1800 |} ]
  /\ exists parsed,
       map_result (decode_line (Fixture.lib Fixture.manifest_table))
         (List.filter nonblank (splitlines Fixture.manifest_text)) = Ok parsed
       /\ List.filter (fun e => index e =? 1)
            [ {| index := 0; start_sec := 0; end_sec := 600 |};
              {| index := 1; start_sec := 599; end_sec := 1200 |};
              {| index := 1; start_sec := 600; end_sec := 1201 |};
              {| index := 2; start_sec := 1199; end_sec := 1800 |} ]
          = List.filter (fun e => index e =? 1) parsed.
Proof.
  assert (H : _parse_manifest_jsonl (Fixture.lib Fixture.manifest_table)
                Fixture.manifest_text
              = Ok [ {| index := 0; start_sec := 0; end_sec := 600 |};
                     {| index := 1; start_sec := 599; end_sec := 1200 |};
                     {| index := 1; start_sec := 600; end_sec := 1201 |};
                     {| index := 2; start_sec := 1199; end_sec := 1800 |} ])
    by (vm_compute; reflexivity).
  split; [exact H|].
  destruct (manifest_sorted_stable _ _ _ H) as (parsed & Hp & _ & _ & Hk).
  exists parsed. split; [exact Hp | exact (Hk 1)].
Defined.

(** C4, as amended: the parse validates nothing. It converts [index]
    with [int()] and [start_sec], [end_sec] with [float()] and accepts every
    record whose three fields convert, whatever the sign of the index and
    the order of start and end; a record without [index] fails with
    [KeyError], a record without any of the three fields fails, a field
    that is [null] fails with [TypeError]; and the parse as a whole returns
    the sorted entries when every line that is not blank decodes and
    converts, and the first exception otherwise. *)
Theorem manifest_not_validated (lib : PyLib) :
  (forall (m : gmap string json) i a b,
      m !! "index"%string = Some (JInt i) ->
      m !! "start_sec"%string = Some (JFloat a) ->
      m !! "end_sec"%string = Some (JFloat b) ->
      manifest_entry lib (JObj m) = Ok {| index := i; start_sec := a; end_sec := b |})
  /\ (forall m : gmap string json,
        m !! "index"%string = None ->
        manifest_entry lib (JObj m) = Raise (KeyError "index"))
  /\ (forall (m : gmap string json) (k : string),
        k ∈ ["index"; "start_sec"; "end_sec"]%string -> m !! k = None ->
        exists e, manifest_entry lib (JObj m) = Raise e)
  /\ (forall (m : gmap string json) (k : string),
        k ∈ ["index"; "start_sec"; "end_sec"]%string -> m !! k = Some JNull ->
        exists e, manifest_entry lib (JObj m) = Raise e)
  /\ (forall m : gmap string json,
        m !! "index"%string = Some JNull ->
        manifest_entry lib (JObj m) = Raise TypeError)
  /\ (forall text,
        _parse_manifest_jsonl lib text
        = (es <- map_result (decode_line lib)
                   (List.filter nonblank (splitlines text));;
           Ok (sort_by_index es))).
Proof.
  assert (Hany : forall (m : gmap string json) (k : string) (bad : option json),
             (bad = None \/ bad = Some JNull) ->
             k ∈ ["index"; "start_sec"; "end_sec"]%string -> m !! k = bad ->
             exists e, manifest_entry lib (JObj m) = Raise e).
  { intros m k bad Hbad Hk Hm. unfold manifest_entry. cbn [getitem].
    assert (Hcase : k = "index"%string \/ k = "start_sec"%string \/ k = "end_sec"%string).
    { apply list_elem_of_In in Hk. cbn in Hk. intuition. }
    destruct (m !! "index"%string) as [vi|] eqn:Ei; cbn [bind]; [|eauto].
    destruct (py_int lib vi) eqn:Epi; cbn [bind]; [|eauto].
    destruct (m !! "start_sec"%string) as [vs|] eqn:Es; cbn [bind]; [|eauto].
    destruct (py_float lib vs) eqn:Eps; cbn [bind]; [|eauto].
    destruct (m !! "end_sec"%string) as [ve|] eqn:Ee; cbn [bind]; [|eauto].
    destruct (py_float lib ve) eqn:Epe; cbn [bind]; [|eauto].
    exfalso.
    destruct Hcase as [-> | [-> | ->]]; rewrite Hm in *;
      destruct Hbad as [-> | ->]; simplify_eq/=. }
  repeat split.
  - intros m i a b Hi Ha Hb. unfold manifest_entry. cbn [getitem].
    rewrite Hi, Ha, Hb. reflexivity.
  - intros m Hi. unfold manifest_entry. cbn [getitem]. by rewrite Hi.
  - intros m k Hk Hm. eapply (Hany m k None); eauto.
  - intros m k Hk Hm. eapply (Hany m k (Some JNull)); eauto.
  - intros m Hi. unfold manifest_entry. cbn [getitem]. by rewrite Hi.
  - apply parse_manifest_decode.
Qed.

Lemma manifest_not_validated_witness :
  manifest_entry (Fixture.lib []) (Fixture.record_json (-1) 5 2)
  = Ok {| index := -1; start_sec := 5; end_sec := 2 |}
  /\ manifest_entry (Fixture.lib []) (JObj {["start_sec" := JFloat 0]})
     = Raise (KeyError "index").
Proof.
  split.
  - apply (proj1 (manifest_not_validated (Fixture.lib []))); vm_compute; reflexivity.
  - apply (proj1 (proj2 (manifest_not_validated (Fixture.lib [])))).
    vm_compute; reflexivity.
Defined.

(** C4, as stated, fails: a record with index -1 that ends (2.0) before
    it starts (5.0) is accepted. *)
Lemma manifest_not_validated_counterexample :
  _parse_manifest_jsonl (Fixture.lib Fixture.backward_table) Fixture.backward_text
  = Ok [ {| index := -1; start_sec := 5; end_sec := 2 |} ].
Proof. vm_compute. reflexivity. Qed.

(** *** Rounding *)

Lemma py_round_integer (q : Q) (n : Z) : (q == inject_Z n)%Q -> py_round q = n.
Proof.
  intros H. unfold py_round.
  assert (Hf : Qfloor q = n) by (rewrite H; apply Qfloor_Z).
  rewrite Hf.
  replace (Qlt_bool (q - inject_Z n) (1 # 2)) with true; [reflexivity|].
  symmetry. apply Qlt_bool_iff. lra.
Qed.

Lemma py_round3_idempotent (x : Q) : py_round3 (py_round3 x) = py_round3 x.
Proof.
  unfold py_round3 at 1 3. f_equal. apply py_round_integer.
  unfold py_round3. generalize (py_round (x * 1000)). intros n.
  unfold Qeq, Qmult, inject_Z. cbn [Qnum Qden]. lia.
Qed.

Lemma round3_on_grid (x : Q) : on_grid (py_round3 x).
Proof. unfold on_grid. by rewrite py_round3_idempotent. Qed.

Lemma zero_on_grid : on_grid 0.
Proof. reflexivity. Qed.

Lemma py_round_mono (x y : Q) : (x <= y)%Q -> py_round x <= py_round y.
Proof.
  intros H. pose proof (Qfloor_resp_le _ _ H) as Hf. unfold py_round.
  destruct (Z.eq_dec (Qfloor x) (Qfloor y)) as [E|N].
  - rewrite E. set (f := Qfloor y).
    destruct (Qlt_bool (x - inject_Z f) (1 # 2)) eqn:X1;
      destruct (Qlt_bool (y - inject_Z f) (1 # 2)) eqn:Y1;
      destruct (Qlt_bool (1 # 2) (x - inject_Z f)) eqn:X2;
      destruct (Qlt_bool (1 # 2) (y - inject_Z f)) eqn:Y2;
      destruct (Z.even f);
      try lia;
      rewrite ?Qlt_bool_iff, ?Qlt_bool_false in *; exfalso; lra.
  - repeat match goal with
           | |- context [if ?b then _ else _] => destruct b
           end; lia.
Qed.

Lemma py_round3_mono (x y : Q) : (x <= y)%Q -> (py_round3 x <= py_round3 y)%Q.
Proof.
  intros H. unfold py_round3.
  assert (Hr : py_round (x * 1000) <= py_round (y * 1000))
    by (apply py_round_mono; lra).
  unfold Qle. cbn [Qnum Qden]. lia.
Qed.

Lemma py_max_ge (a b : Q) : (a <= py_max a b)%Q.
Proof.
  unfold py_max. destruct (Qlt_bool a b) eqn:E; [|lra].
  apply Qlt_bool_iff in E. lra.
Qed.

Lemma py_min_le (a b : Q) : (py_min a b <= a)%Q.
Proof.
  unfold py_min. destruct (Qlt_bool b a) eqn:E; [|lra].
  apply Qlt_bool_iff in E. lra.
Qed.

(** *** The first pass emits multiples of 1/1000 *)

Section GridKept.

Variables (OVERLAP_SEC MIN_SEGMENT_SEC : Q) (lib : PyLib) (s3 : S3Client).
Variables (bucket job : string).

Lemma merge_segment_grid (w_start w_end : Q) (st : MergeState) (s : ChunkSeg) :
  Forall seg_on_grid (merged st) ->
  Forall seg_on_grid
    (merged (merge_segment OVERLAP_SEC MIN_SEGMENT_SEC lib w_start w_end st s)).
Proof.
  intros Hst. unfold merge_segment.
  repeat match goal with
         | |- context [if ?b then _ else _] => destruct b
         end; cbn [merged drop_overlap drop_short]; try exact Hst.
  all: apply Forall_app; split; [exact Hst|];
    constructor; [|constructor]; split; apply round3_on_grid.
Qed.

Lemma fold_merge_grid (w_start w_end : Q) (segs : list ChunkSeg) (st : MergeState) :
  Forall seg_on_grid (merged st) ->
  Forall seg_on_grid
    (merged (fold_left (merge_segment OVERLAP_SEC MIN_SEGMENT_SEC lib w_start w_end)
               segs st)).
Proof.
  revert st. induction segs as [|s rest IH]; intros st Hst; [exact Hst|].
  cbn [fold_left]. by apply IH, merge_segment_grid.
Qed.

Lemma merge_loop_grid (manifest : list Entry) (st st' : MergeState) :
  Forall seg_on_grid (merged st) ->
  merge_loop OVERLAP_SEC MIN_SEGMENT_SEC lib s3 bucket job manifest st = Ok st' ->
  Forall seg_on_grid (merged st').
Proof.
  revert st. induction manifest as [|e rest IH]; intros st Hst.
  - cbn. by intros [= <-].
  - cbn [merge_loop]. unfold merge_entry.
    destruct (_guess_chunk_key s3 bucket job (index e)) as [[key|]|];
      cbn [bind]; [| |discriminate].
    + destruct (_load_chunk_segments lib s3 bucket key) as [segs|];
        cbn [bind]; [|discriminate].
      apply IH. cbn [merged]. by apply fold_merge_grid.
    + by apply IH.
Qed.

End GridKept.

(** *** Where the output segments come from *)

Section Provenance.

Variables (OVERLAP_SEC MIN_SEGMENT_SEC : Q) (lib : PyLib) (s3 : S3Client).
Variables (bucket job : string).
Variable X : Q -> Q -> string -> Prop.

Lemma merge_segment_placed (w_start w_end : Q) (st : MergeState) (s : ChunkSeg) :
  Forall (placed X) (merged st) ->
  X (c_start s + w_start)%Q (c_end s + w_start)%Q (c_text s) ->
  Forall (placed X)
    (merged (merge_segment OVERLAP_SEC MIN_SEGMENT_SEC lib w_start w_end st s)).
Proof.
  intros Hst Hs. unfold merge_segment.
  destruct (outside_window _ _ _ _); [exact Hst|].
  destruct (scan_back _ _ _ _ _); [exact Hst|].
  destruct (Qle_bool _ _); [exact Hst|].
  destruct (Qlt_bool (_ - _) MIN_SEGMENT_SEC); [exact Hst|].
  cbn [merged]. apply Forall_app. split; [exact Hst|].
  constructor; [|constructor].
  exists (c_start s + w_start)%Q, (c_end s + w_start)%Q, (c_text s).
  split; [exact Hs|]. unfold spans. cbn [start end_ text].
  split; [|split; [|reflexivity]].
  - apply py_round3_mono.
    pose proof (py_max_ge (c_start s + w_start) w_start) as Hmax.
    destruct (Qlt_bool _ (last_end st)) eqn:E; [|exact Hmax].
    apply Qlt_bool_iff in E.
    eapply Qle_trans; [exact Hmax | by apply Qlt_le_weak].
  - apply py_round3_mono, py_min_le.
Qed.

Lemma fold_merge_placed (w_start w_end : Q) (segs : list ChunkSeg) (st : MergeState) :
  Forall (placed X) (merged st) ->
  Forall (fun c => X (c_start c + w_start)%Q (c_end c + w_start)%Q (c_text c)) segs ->
  Forall (placed X)
    (merged (fold_left (merge_segment OVERLAP_SEC MIN_SEGMENT_SEC lib w_start w_end)
               segs st)).
Proof.
  revert st. induction segs as [|s rest IH]; intros st Hst Hs; [exact Hst|].
  apply Forall_cons in Hs as [Hs Hrest]. cbn [fold_left].
  apply IH; [by apply merge_segment_placed | exact Hrest].
Qed.

Lemma merge_loop_placed (manifest : list Entry) (st st' : MergeState) :
  (forall e key segs c,
      e ∈ manifest ->
      _guess_chunk_key s3 bucket job (index e) = Ok (Some key) ->
      _load_chunk_segments lib s3 bucket key = Ok segs ->
      c ∈ segs ->
      X (c_start c + start_sec e)%Q (c_end c + start_sec e)%Q (c_text c)) ->
  Forall (placed X) (merged st) ->
  merge_loop OVERLAP_SEC MIN_SEGMENT_SEC lib s3 bucket job manifest st = Ok st' ->
  Forall (placed X) (merged st').
Proof.
  revert st. induction manifest as [|e rest IH]; intros st HX Hst.
  - cbn. by intros [= <-].
  - cbn [merge_loop]. unfold merge_entry.
    destruct (_guess_chunk_key s3 bucket job (index e)) as [[key|]|] eqn:Eg;
      cbn [bind]; [| |discriminate].
    + destruct (_load_chunk_segments lib s3 bucket key) as [segs|] eqn:El;
        cbn [bind]; [|discriminate].
      apply IH.
      * intros e' key' segs' c ?. apply HX. by right.
      * cbn [merged]. apply fold_merge_placed; [exact Hst|].
        apply Forall_forall. intros c Hc. eapply (HX e key segs c); [by left|done..].
    + apply IH; [|exact Hst]. intros e' key' segs' c ?. apply HX. by right.
Qed.

Lemma repair_fold_placed (l : list Seg) (acc : list Seg * Q) :
  Forall (placed X) (fst acc) -> Forall seg_on_grid l -> Forall (placed X) l ->
  Forall (placed X) (fst (fold_left (repair_segment MIN_SEGMENT_SEC) l acc)).
Proof.
  revert acc. induction l as [|seg rest IH]; intros [fixed last] Hacc Hg Hl;
    [exact Hacc|].
  apply Forall_cons in Hl as [Hseg Hrest]. apply Forall_cons in Hg as [Hgrid Hg].
  cbn [fold_left]. apply IH; [|exact Hg|exact Hrest].
  unfold repair_segment.
  set (s1 := if Qlt_bool (start seg) last then last else start seg).
  assert (Hs1 : (start seg <= s1)%Q).
  { subst s1. destruct (Qlt_bool (start seg) last) eqn:E; [|lra].
    apply Qlt_bool_iff in E. lra. }
  set (s2 := if Qlt_bool 0 (s1 - last) then py_max last s1 else s1).
  assert (Hs2 : (start seg <= s2)%Q).
  { subst s2. destruct (Qlt_bool 0 (s1 - last)) eqn:E; [|exact Hs1].
    unfold py_max. destruct (Qlt_bool last s1) eqn:E'; [exact Hs1|].
    apply Qlt_bool_iff in E. apply Qlt_bool_false in E'. lra. }
  clearbody s2. clear s1 Hs1.
  destruct (Qlt_bool _ MIN_SEGMENT_SEC); cbn [fst]; [exact Hacc|].
  apply Forall_app. split; [exact Hacc|]. constructor; [|constructor].
  destruct Hseg as (lo & hi & t & HX & Hlo & Hhi & Ht).
  destruct Hgrid as [Hgs Hge]. unfold on_grid in *.
  exists lo, hi, t. split; [exact HX|]. unfold spans. cbn [start end_ text].
  split; [|split; [lra | exact Ht]].
  apply py_round3_mono in Hs2. lra.
Qed.

End Provenance.

(** *** Missing chunks *)

Section MissingChunks.

Variables (OVERLAP_SEC MIN_SEGMENT_SEC : Q) (lib : PyLib) (s3 : S3Client).
Variables (bucket job : string).

Abbreviation found := (chunk_found s3 bucket job).
Abbreviation loop := (merge_loop OVERLAP_SEC MIN_SEGMENT_SEC lib s3 bucket job).
Abbreviation step := (merge_segment OVERLAP_SEC MIN_SEGMENT_SEC lib).

Lemma merge_segment_chunks (w_start w_end : Q) (st : MergeState) (s : ChunkSeg) :
  chunks (meta (step w_start w_end st s)) = chunks (meta st).
Proof.
  unfold merge_segment.
  repeat match goal with
         | |- context [if ?b then _ else _] => destruct b
         end; reflexivity.
Qed.

Lemma fold_merge_chunks (w_start w_end : Q) (segs : list ChunkSeg) (st : MergeState) :
  chunks (meta (fold_left (step w_start w_end) segs st)) = chunks (meta st).
Proof.
  revert st. induction segs as [|s rest IH]; intros st; [done|].
  cbn [fold_left]. rewrite IH. apply merge_segment_chunks.
Qed.

Lemma merge_loop_found (manifest : list Entry) (st : MergeState) :
  (forall e, e ∈ manifest -> exists r, _guess_chunk_key s3 bucket job (index e) = Ok r) ->
  loop manifest st = loop (List.filter found manifest) st.
Proof.
  revert st. induction manifest as [|e rest IH]; intros st H; [done|].
  assert (Hrest : forall e', e' ∈ rest ->
            exists r, _guess_chunk_key s3 bucket job (index e') = Ok r)
    by (intros e' Hin; apply H; by right).
  destruct (H e) as [r Hr]; [by left|].
  cbn [merge_loop List.filter].
  unfold chunk_found at 1. unfold merge_entry at 1. rewrite Hr. cbn [bind].
  destruct r as [k|].
  - cbn [merge_loop]. unfold merge_entry. rewrite Hr. cbn [bind].
    destruct (_load_chunk_segments lib s3 bucket k); cbn [bind]; [|done].
    apply IH, Hrest.
  - apply IH, Hrest.
Qed.

Lemma merge_loop_chunks (manifest : list Entry) (st st' : MergeState) :
  loop manifest st = Ok st' ->
  chunks (meta st') = chunks (meta st) + Z.of_nat (length (List.filter found manifest)).
Proof.
  revert st. induction manifest as [|e rest IH]; intros st.
  - cbn. intros [= <-]. lia.
  - cbn [merge_loop List.filter].
    unfold chunk_found at 1. unfold merge_entry.
    destruct (_guess_chunk_key s3 bucket job (index e)) as [[k|]|err];
      cbn [bind]; [| |discriminate].
    + destruct (_load_chunk_segments lib s3 bucket k) as [segs|err];
        cbn [bind]; [|discriminate].
      intros Hloop. apply IH in Hloop. rewrite Hloop. cbn [meta bump_chunks chunks length].
      rewrite fold_merge_chunks. lia.
    + apply IH.
Qed.

Lemma merge_loop_succeeds (manifest : list Entry) (st : MergeState) :
  (forall e, e ∈ manifest -> exists r, _guess_chunk_key s3 bucket job (index e) = Ok r) ->
  (forall e k, e ∈ manifest -> _guess_chunk_key s3 bucket job (index e) = Ok (Some k) ->
               exists segs, _load_chunk_segments lib s3 bucket k = Ok segs) ->
  exists st', loop manifest st = Ok st'.
Proof.
  revert st. induction manifest as [|e rest IH]; intros st Hg Hl.
  - by exists st.
  - cbn [merge_loop]. unfold merge_entry.
    destruct (Hg e) as [r Hr]; [by left|]. rewrite Hr. cbn [bind].
    destruct r as [k|].
    + destruct (Hl e k) as [segs Hs]; [by left|done|]. rewrite Hs. cbn [bind].
      apply IH; [intros e' ?; apply Hg; by right | intros e' k' ?; apply Hl; by right].
    + apply IH; [intros e' ?; apply Hg; by right | intros e' k' ?; apply Hl; by right].
Qed.

End MissingChunks.

(** C6: a window whose chunk result is not found leaves the merge state
    as it was; and when the discovery answers for every window (found or
    not found) and every chunk that is found loads, the merge returns a
    result, the same result as for the manifest without the windows whose
    chunk was not found, the chunk counter is the number of windows whose
    chunk was found, and every output segment carries the text of a loaded
    segment of a found chunk and lies within that segment's span offset by
    the start of its own window (both ends rounded to three digits). *)
Theorem missing_chunk_skipped (OVERLAP_SEC MIN_SEGMENT_SEC : Q) (lib : PyLib)
    (s3 : S3Client) (manifest : list Entry) (bucket job : string) :
  (forall (st : MergeState) (e : Entry),
      _guess_chunk_key s3 bucket job (index e) = Ok None ->
      merge_entry OVERLAP_SEC MIN_SEGMENT_SEC lib s3 bucket job st e = Ok st)
  /\ ((forall e, e ∈ manifest ->
         exists r, _guess_chunk_key s3 bucket job (index e) = Ok r) ->
      (forall e k, e ∈ manifest ->
         _guess_chunk_key s3 bucket job (index e) = Ok (Some k) ->
         exists segs, _load_chunk_segments lib s3 bucket k = Ok segs) ->
      exists fixed meta,
        _merge_segments OVERLAP_SEC MIN_SEGMENT_SEC lib s3 manifest bucket job
          = Ok (fixed, meta)
        /\ _merge_segments OVERLAP_SEC MIN_SEGMENT_SEC lib s3
             (List.filter (chunk_found s3 bucket job) manifest) bucket job
           = Ok (fixed, meta)
        /\ chunks meta
           = Z.of_nat (length (List.filter (chunk_found s3 bucket job) manifest))
        /\ Forall (placed (offset_span lib s3 bucket job manifest)) fixed).
Proof.
  split.
  { intros st e He. unfold merge_entry. by rewrite He. }
  intros Hg Hl.
  destruct (merge_loop_succeeds OVERLAP_SEC MIN_SEGMENT_SEC lib s3 bucket job
              manifest initial_state Hg Hl) as [st' Hloop].
  exists (repair MIN_SEGMENT_SEC (merged st')), (meta st').
  unfold _merge_segments.
  rewrite <- (merge_loop_found OVERLAP_SEC MIN_SEGMENT_SEC lib s3 bucket job
                manifest initial_state Hg).
  rewrite Hloop. cbn [bind]. split; [done|]. split; [done|]. split.
  - apply (merge_loop_chunks OVERLAP_SEC MIN_SEGMENT_SEC lib s3 bucket job) in Hloop.
    rewrite Hloop. cbn. lia.
  - unfold repair. apply repair_fold_placed; [constructor| |].
    + apply (merge_loop_grid OVERLAP_SEC MIN_SEGMENT_SEC lib s3 bucket job
               manifest initial_state st'); [constructor | exact Hloop].
    + apply (merge_loop_placed OVERLAP_SEC MIN_SEGMENT_SEC lib s3 bucket job _
               manifest initial_state st'); [|constructor|exact Hloop].
      intros e key segs c He Hk Hs Hc. exists e, key, segs, c. done.
Qed.

Lemma missing_chunk_skipped_witness :
  exists fixed meta,
    _merge_segments 1 (6 # 100) (Fixture.lib []) (Fixture.bucket_client Fixture.gap_objects)
      Fixture.gap_manifest "results" "job"
    = Ok (fixed, meta)
    /\ map text fixed = ["first window"; "third window"]%string
    /\ chunks meta = 2.
Proof.
  destruct (proj2 (missing_chunk_skipped 1 (6 # 100) (Fixture.lib [])
                     (Fixture.bucket_client Fixture.gap_objects)
                     Fixture.gap_manifest "results" "job"))
    as (fixed & meta & H & _ & Hc & _).
  - intros e He. apply list_elem_of_In in He. cbn in He.
    destruct He as [<- | [<- | [<- | []]]].
    + exists (Some "chunks/job/00000/out.json"%string). vm_compute. reflexivity.
    + exists None. vm_compute. reflexivity.
    + exists (Some "chunks/job/2/out.json"%string). vm_compute. reflexivity.
  - intros e k He Hk. apply list_elem_of_In in He. cbn in He.
    destruct He as [<- | [<- | [<- | []]]];
      vm_compute in Hk; simplify_eq; eexists; vm_compute; reflexivity.
  - exists fixed, meta. split; [exact H|].
    assert (E : _merge_segments 1 (6 # 100) (Fixture.lib [])
                  (Fixture.bucket_client Fixture.gap_objects)
                  Fixture.gap_manifest "results" "job"
                = Ok ([ {| id := 0; start := py_round3 1; end_ := py_round3 4;
                           text := "first window" |};
                        {| id := 1; start := py_round3 (2401 # 2);
                           end_ := py_round3 1202; text := "third window" |} ],
                      {| chunks := 2; dropped_short := 0; dropped_overlap := 0 |}))
      by (vm_compute; reflexivity).
    rewrite E in H. injection H as <- <-. split; reflexivity.
Defined.

(** *** Texts *)

Lemma lstrip_head (s : string) (c : ascii) (rest : string) :
  lstrip s = String c rest -> isspace c = false.
Proof.
  induction s as [|a s IH]; cbn; [discriminate|].
  destruct (isspace a) eqn:E; [exact IH|].
  intros [= <- _]. exact E.
Qed.

Lemma rstrip_head (s : string) (c : ascii) (rest : string) :
  rstrip s = String c rest -> exists rest', s = String c rest'.
Proof.
  destruct s as [|a s]; cbn; [discriminate|].
  destruct (isspace a && is_empty (rstrip s)); [discriminate|].
  intros [= <- _]. eauto.
Qed.

Lemma rstrip_last (s front : string) (c : ascii) :
  rstrip s = front +:+ String c EmptyString -> isspace c = false.
Proof.
  revert front. induction s as [|a s IH]; intros front; cbn.
  - destruct front; discriminate.
  - destruct (isspace a && is_empty (rstrip s)) eqn:E.
    + destruct front; discriminate.
    + destruct front as [|b front]; cbn.
      * intros [= <- Hr]. rewrite Hr in E. cbn in E.
        by rewrite andb_true_r in E.
      * intros [= _ Hr]. by apply (IH front).
Qed.

Lemma strip_trimmed (s : string) : trimmed (strip s).
Proof.
  split.
  - intros c rest H. unfold strip in H.
    apply rstrip_head in H as [rest' H]. by apply lstrip_head in H.
  - intros front c H. by apply rstrip_last in H.
Qed.

Lemma map_result_elem {A B} (f : A -> result B) (l : list A) (ys : list B) (y : B) :
  map_result f l = Ok ys -> y ∈ ys -> exists x, x ∈ l /\ f x = Ok y.
Proof.
  revert ys. induction l as [|x l IH]; intros ys; cbn.
  - intros [= <-] Hy. by apply not_elem_of_nil in Hy.
  - destruct (f x) as [y0|] eqn:Ex; cbn [bind]; [|discriminate].
    destruct (map_result f l) as [ys0|]; cbn [bind]; [|discriminate].
    intros [= <-] Hy. apply elem_of_cons in Hy as [-> | Hy].
    + exists x. split; [left | done].
    + destruct (IH ys0 eq_refl Hy) as (x' & ? & ?). exists x'. split; [by right | done].
Qed.

Lemma normalized_text (lib : PyLib) (raw : json) (c : ChunkSeg) :
  normalized_segment lib raw = Ok c -> c_text c <> EmptyString ->
  exists t, dict_get raw "text" JNull = Ok (JStr t) /\ c_text c = strip t.
Proof.
  unfold normalized_segment.
  do 5 (step_bind; [|discriminate]).
  match goal with |- context [truthy ?v] => destruct v as [|b|z|q|t|l|m] end;
    cbn [truthy];
    try (match goal with |- context [if ?b then _ else _] => destruct b end;
         cbn; try discriminate; intros [= <-]; cbn; congruence).
  - cbn. intros [= <-]. cbn. congruence.
  - destruct (is_empty t) eqn:E; cbn; intros [= <-]; cbn; [congruence|].
    intros _. by exists t.
Qed.

Lemma loaded_texts (lib : PyLib) (s3 : S3Client) (bucket key : string)
    (segs : list ChunkSeg) (c : ChunkSeg) :
  _load_chunk_segments lib s3 bucket key = Ok segs -> c ∈ segs ->
  c_text c <> EmptyString
  /\ exists items raw t,
       raw_segments s3 bucket key = Ok items /\ raw ∈ items
       /\ dict_get raw "text" JNull = Ok (JStr t) /\ c_text c = strip t.
Proof.
  unfold _load_chunk_segments, raw_segments.
  do 3 (step_bind; [|discriminate]).
  rewrite load_loop_filter.
  destruct (map_result (normalized_segment lib) a1) as [raws|] eqn:Er;
    cbn [bind]; [|discriminate].
  intros [= <-] Hc. cbn [app] in Hc.
  apply list_elem_of_In, filter_In in Hc as [Hin Hk].
  apply list_elem_of_In in Hin.
  destruct (map_result_elem _ _ _ _ Er Hin) as (raw & Hraw & Hn).
  assert (Hne : c_text c <> EmptyString).
  { unfold kept in Hk. apply andb_true_iff in Hk as [Hk _].
    intros E. rewrite E in Hk. discriminate. }
  split; [exact Hne|].
  destruct (normalized_text lib raw c Hn Hne) as (t & Ht & Hs).
  exists a1, raw, t. done.
Qed.

Section TextsPreserved.

Variables (OVERLAP_SEC MIN_SEGMENT_SEC : Q) (lib : PyLib) (s3 : S3Client).
Variables (bucket job : string).
Variable P : string -> Prop.

Abbreviation texts_ok := (Forall (fun s => P (text s))).

Lemma merge_segment_texts (w_start w_end : Q) (st : MergeState) (s : ChunkSeg) :
  texts_ok (merged st) -> P (c_text s) ->
  texts_ok (merged (merge_segment OVERLAP_SEC MIN_SEGMENT_SEC lib w_start w_end st s)).
Proof.
  intros Hst Hs. unfold merge_segment.
  repeat match goal with
         | |- context [if ?b then _ else _] => destruct b
         end; cbn [merged drop_overlap drop_short]; try exact Hst.
  all: apply Forall_app; split; [exact Hst | by constructor].
Qed.

Lemma fold_merge_texts (w_start w_end : Q) (segs : list ChunkSeg) (st : MergeState) :
  texts_ok (merged st) -> Forall (fun c => P (c_text c)) segs ->
  texts_ok (merged (fold_left
                      (merge_segment OVERLAP_SEC MIN_SEGMENT_SEC lib w_start w_end)
                      segs st)).
Proof.
  revert st. induction segs as [|s rest IH]; intros st Hst Hs; [exact Hst|].
  apply Forall_cons in Hs as [Hs Hrest]. cbn [fold_left].
  apply IH; [by apply merge_segment_texts | exact Hrest].
Qed.

Lemma repair_fold_texts (l : list Seg) (acc : list Seg * Q) :
  texts_ok (fst acc) -> texts_ok l ->
  texts_ok (fst (fold_left (repair_segment MIN_SEGMENT_SEC) l acc)).
Proof.
  revert acc. induction l as [|seg rest IH]; intros [fixed last] Hacc Hl; [exact Hacc|].
  apply Forall_cons in Hl as [Hseg Hrest]. cbn [fold_left].
  apply IH; [|exact Hrest].
  unfold repair_segment.
  destruct (Qlt_bool _ MIN_SEGMENT_SEC); cbn [fst]; [exact Hacc|].
  apply Forall_app; split; [exact Hacc | by constructor].
Qed.

Lemma repair_texts (l : list Seg) : texts_ok l -> texts_ok (repair MIN_SEGMENT_SEC l).
Proof. intros Hl. unfold repair. apply repair_fold_texts; [constructor | exact Hl]. Qed.

Lemma merge_loop_texts (manifest : list Entry) (st st' : MergeState) :
  (forall e key segs c,
      e ∈ manifest ->
      _guess_chunk_key s3 bucket job (index e) = Ok (Some key) ->
      _load_chunk_segments lib s3 bucket key = Ok segs ->
      c ∈ segs -> P (c_text c)) ->
  texts_ok (merged st) ->
  merge_loop OVERLAP_SEC MIN_SEGMENT_SEC lib s3 bucket job manifest st = Ok st' ->
  texts_ok (merged st').
Proof.
  revert st. induction manifest as [|e rest IH]; intros st HP Hst.
  - cbn. by intros [= <-].
  - cbn [merge_loop]. unfold merge_entry.
    destruct (_guess_chunk_key s3 bucket job (index e)) as [[key|]|] eqn:Eg;
      cbn [bind]; [| |discriminate].
    + destruct (_load_chunk_segments lib s3 bucket key) as [segs|] eqn:El;
        cbn [bind]; [|discriminate].
      apply IH.
      * intros e' key' segs' c ?. apply HP. by right.
      * cbn [merged]. apply fold_merge_texts; [exact Hst|].
        apply Forall_forall. intros c Hc. eapply (HP e key segs c); [by left|done..].
    + apply IH; [|exact Hst]. intros e' key' segs' c ?. apply HP. by right.
Qed.

End TextsPreserved.

(** C10: every segment of the final output has a text that is not empty,
    has no white space at either end, and is the trimmed text of a raw
    segment of a chunk result found for a window of the manifest: the merge
    pass and the repair pass copy the text as it was loaded. *)
Theorem output_texts (OVERLAP_SEC MIN_SEGMENT_SEC : Q) (lib : PyLib) (s3 : S3Client)
    (manifest : list Entry) (bucket job : string) (fixed : list Seg) (meta : Meta) :
  _merge_segments OVERLAP_SEC MIN_SEGMENT_SEC lib s3 manifest bucket job
    = Ok (fixed, meta) ->
  forall seg, seg ∈ fixed ->
    text seg <> EmptyString
    /\ trimmed (text seg)
    /\ chunk_text s3 bucket job manifest (text seg).
Proof.
  unfold _merge_segments.
  destruct (merge_loop _ _ _ _ _ _ _ _) as [st|] eqn:Eloop; cbn [bind]; [|discriminate].
  intros [= <- <-].
  set (P := fun t => t <> EmptyString /\ trimmed t /\ chunk_text s3 bucket job manifest t).
  assert (H : Forall (fun s => P (text s)) (repair MIN_SEGMENT_SEC (merged st))).
  { apply repair_texts.
    eapply (merge_loop_texts _ _ lib s3 bucket job P manifest initial_state st);
      [|constructor|exact Eloop].
    intros e key segs c He Hg Hl Hc.
    destruct (loaded_texts lib s3 bucket key segs c Hl Hc)
      as (Hne & items & raw & t & Hi & Hr & Ht & Hs).
    split; [exact Hne|]. split.
    - rewrite Hs. apply strip_trimmed.
    - exists e, key, items, raw, t. done. }
  intros seg Hseg. rewrite Forall_forall in H. exact (H seg Hseg).
Qed.

Lemma output_texts_witness :
  Forall (fun seg =>
            text seg <> EmptyString
            /\ trimmed (text seg)
            /\ chunk_text (Fixture.bucket_client Fixture.gap_objects) "results" "job"
                 Fixture.gap_manifest (text seg))
    [ {| id := 0; start := py_round3 1; end_ := py_round3 4; text := "first window" |};
      {| id := 1; start := py_round3 (2401 # 2); end_ := py_round3 1202;
         text := "third window" |} ].
Proof.
  apply Forall_forall.
  apply (output_texts 1 (6 # 100) (Fixture.lib [])
           (Fixture.bucket_client Fixture.gap_objects)
           Fixture.gap_manifest "results" "job" _
           {| chunks := 2; dropped_short := 0; dropped_overlap := 0 |}).
  vm_compute. reflexivity.
Defined.

(** *** De-duplication by text *)

Lemma scan_back_scanned (OVERLAP_SEC : Q) (lib : PyLib) (recent : list Seg) (gs : Q)
    (t : string) :
  scan_back OVERLAP_SEC lib recent gs t
  = existsb (fun m => Qle_bool DEDUP_SIM_THRESH (sequence_ratio lib (text m) t))
      (take_while (fun m => Qle_bool (gs - DEDUP_BACK_WINDOW OVERLAP_SEC) (start m))
         recent).
Proof.
  induction recent as [|m older IH]; [done|].
  cbn [scan_back take_while].
  destruct (Qle_bool (gs - DEDUP_BACK_WINDOW OVERLAP_SEC) (start m)); [|done].
  cbn [existsb]. unfold _similar.
  destruct (Qle_bool DEDUP_SIM_THRESH (sequence_ratio lib (text m) t)); [done|].
  exact IH.
Qed.

(** C3: a candidate that passes the clamp is rejected, and
    [dropped_overlap] alone is incremented, whenever one of the accepted
    segments the backward scan visits (from the last one back, while the
    start is at least [gs - max(OVERLAP_SEC, 2.0)]) has a similarity of at
    least 0.85 to the candidate's text.  In particular, for the windows
    (0, 0, 600) and (1, 599, 1200), a first chunk that ends with
    {598.5, 599.8, "hello world"} and a second chunk that begins with
    {0.1, 1.3, "hello world"}, the merge emits one "hello world" segment
    and counts one dropped overlap. *)
Theorem text_duplicate_rejected :
  (forall (OVERLAP_SEC MIN_SEGMENT_SEC : Q) (lib : PyLib) (w_start w_end : Q)
          (st : MergeState) (s : ChunkSeg) (m : Seg),
      outside_window w_start w_end (c_start s + w_start) (c_end s + w_start) = false ->
      m ∈ scanned OVERLAP_SEC (merged st) (py_max (c_start s + w_start) w_start) ->
      (DEDUP_SIM_THRESH <= sequence_ratio lib (text m) (c_text s))%Q ->
      let st' := merge_segment OVERLAP_SEC MIN_SEGMENT_SEC lib w_start w_end st s in
      st' = drop_overlap st
      /\ merged st' = merged st
      /\ last_end st' = last_end st
      /\ dropped_overlap (meta st') = dropped_overlap (meta st) + 1
      /\ dropped_short (meta st') = dropped_short (meta st))
  /\ (exists fixed meta,
        _merge_segments 1 (6 # 100) (Fixture.lib [])
          (Fixture.bucket_client Fixture.hello_objects)
          Fixture.hello_manifest "results" "job"
        = Ok (fixed, meta)
        /\ length (List.filter (fun seg => String.eqb (text seg) "hello world") fixed)
           = 1%nat
        /\ 1 <= dropped_overlap meta).
Proof.
  split.
  - intros OVERLAP_SEC MIN_SEGMENT_SEC lib w_start w_end st s m Hin Hm Hsim st'.
    assert (E : st' = drop_overlap st).
    { subst st'. unfold merge_segment. rewrite Hin.
      rewrite scan_back_scanned.
      replace (existsb _ _) with true; [reflexivity|].
      symmetry. apply existsb_exists. exists m. split.
      - apply list_elem_of_In. exact Hm.
      - by apply Qle_bool_iff. }
    rewrite E. repeat split.
  - eexists _, _. split; [vm_compute; reflexivity|].
    split; [reflexivity|]. cbn. lia.
Qed.

Lemma text_duplicate_rejected_witness :
  merge_segment 1 (6 # 100) (Fixture.lib []) 599 1200
    Fixture.after_first_chunk Fixture.hello_again
  = drop_overlap Fixture.after_first_chunk.
Proof.
  refine (proj1 (proj1 text_duplicate_rejected 1%Q (6 # 100)%Q (Fixture.lib [])
                   599%Q 1200%Q Fixture.after_first_chunk Fixture.hello_again
                   {| id := 0; start := 5985 # 10; end_ := 5998 # 10;
                      text := "hello world" |} _ _ _)).
  - vm_compute. reflexivity.
  - vm_compute. left.
  - vm_compute. discriminate.
Defined.

(** *** The posted invariant *)

Section RepairPass.

Variable MIN_SEGMENT_SEC : Q.

Lemma repair_segment_inv (acc : list Seg * Q) (seg : Seg) :
  repair_inv MIN_SEGMENT_SEC acc -> seg_on_grid seg ->
  repair_inv MIN_SEGMENT_SEC (repair_segment MIN_SEGMENT_SEC acc seg).
Proof.
  destruct acc as [fixed cur]. intros (Hlast & Hend & Hall & Hadj) [Hs He].
  unfold repair_segment.
  set (s1 := if Qlt_bool (start seg) cur then cur else start seg).
  assert (Hs1 : on_grid s1 /\ (cur <= s1)%Q).
  { subst s1. destruct (Qlt_bool (start seg) cur) eqn:E.
    - split; [exact Hlast | lra].
    - apply Qlt_bool_false in E. by split. }
  destruct Hs1 as [Hgrid Hge].
  set (s2 := if Qlt_bool 0 (s1 - cur) then py_max cur s1 else s1).
  assert (Hs2 : s2 = s1).
  { subst s2. destruct (Qlt_bool 0 (s1 - cur)) eqn:E; [|done].
    apply Qlt_bool_iff in E. unfold py_max.
    replace (Qlt_bool cur s1) with true; [done|].
    symmetry. apply Qlt_bool_iff. lra. }
  rewrite Hs2. clearbody s1. clear s2 Hs2.
  destruct (Qlt_bool (end_ seg - s1) MIN_SEGMENT_SEC) eqn:Edur.
  { exact (conj Hlast (conj Hend (conj Hall Hadj))). }
  apply Qlt_bool_false in Edur. unfold on_grid in *.
  split; [exact He|]. split; [|split].
  - intros a. rewrite last_snoc. intros [= <-]. cbn [end_]. lra.
  - intros i a Hi. apply lookup_snoc_Some in Hi as [[Hlt Hi] | [-> <-]].
    + by apply Hall.
    + cbn [start end_ id]. split; [lra | reflexivity].
  - intros i a b Ha Hb.
    apply lookup_snoc_Some in Hb as [[Hlt Hb] | [Hlen <-]].
    + apply lookup_snoc_Some in Ha as [[_ Ha] | [Hlen _]]; [by eapply Hadj | lia].
    + apply lookup_snoc_Some in Ha as [[_ Ha] | [Hlen' _]]; [|lia].
      assert (Hl : last fixed = Some a).
      { rewrite last_lookup, <- Hlen. exact Ha. }
      apply Hend in Hl. cbn [start]. lra.
Qed.

Lemma repair_fold_inv (l : list Seg) (acc : list Seg * Q) :
  repair_inv MIN_SEGMENT_SEC acc -> Forall seg_on_grid l ->
  repair_inv MIN_SEGMENT_SEC (fold_left (repair_segment MIN_SEGMENT_SEC) l acc).
Proof.
  revert acc. induction l as [|seg rest IH]; intros acc Hacc Hl; [exact Hacc|].
  apply Forall_cons in Hl as [Hseg Hrest]. cbn [fold_left].
  apply IH; [by apply repair_segment_inv | exact Hrest].
Qed.

Lemma repair_keeps_invariant (merged : list Seg) :
  Forall seg_on_grid merged ->
  no_overlap (repair MIN_SEGMENT_SEC merged)
  /\ long_enough_and_dense MIN_SEGMENT_SEC (repair MIN_SEGMENT_SEC merged).
Proof.
  intros Hg. unfold repair.
  pose proof (repair_fold_inv merged ([], 0%Q)) as H.
  destruct (fold_left _ _ _) as [fixed cur]. cbn [fst].
  destruct H as (_ & _ & Hall & Hadj); [|exact Hg|by split].
  split; [apply zero_on_grid|]. split; [intros a; discriminate|].
  split; [intros i a | intros i a b]; by rewrite lookup_nil.
Qed.

Lemma posted_from_parts (fixed : list Seg) :
  (0 <= MIN_SEGMENT_SEC)%Q ->
  no_overlap fixed -> long_enough_and_dense MIN_SEGMENT_SEC fixed ->
  posted_invariant MIN_SEGMENT_SEC fixed.
Proof.
  intros Hmin Hadj Hall. split; [|exact Hall].
  intros i a b Ha Hb.
  pose proof (Hadj i a b Ha Hb) as H.
  destruct (Hall i a Ha) as [Hda _].
  destruct (Hall (S i) b Hb) as [Hdb _].
  repeat split; lra.
Qed.

End RepairPass.

(** *** On finite times the two readings of the handler agree *)

Lemma finite_val (x : Ieee.float) : finite x -> Ieee.Fin (val x) = x.
Proof. by destruct x. Qed.

Lemma py_max_fin (a b : Q) :
  Ieee.py_max (Ieee.Fin a) (Ieee.Fin b) = Ieee.Fin (py_max a b).
Proof. unfold Ieee.py_max, py_max. cbn. by destruct (Qlt_bool a b). Qed.

Lemma py_min_fin (a b : Q) :
  Ieee.py_min (Ieee.Fin a) (Ieee.Fin b) = Ieee.Fin (py_min a b).
Proof. unfold Ieee.py_min, py_min. cbn. by destruct (Qlt_bool b a). Qed.

Section Agreement.

Variables (OVERLAP_SEC MIN_SEGMENT_SEC : Q) (lib : PyLib).

Lemma scan_back_agrees (recent : list Seg) (gs : Q) (t : string) :
  Ieee.scan_back (Ieee.Fin OVERLAP_SEC) lib (map of_seg recent) (Ieee.Fin gs) t
  = scan_back OVERLAP_SEC lib recent gs t.
Proof.
  induction recent as [|m older IH]; [reflexivity|].
  cbn [map Ieee.scan_back scan_back]. unfold Ieee.DEDUP_BACK_WINDOW.
  rewrite py_max_fin. cbn [Ieee.sub Ieee.le of_seg Ieee.start Ieee.text].
  unfold Ieee._similar, _similar, DEDUP_BACK_WINDOW. by rewrite IH.
Qed.

Lemma merge_segment_agrees (w_start w_end : Q) (st : MergeState) (c : ChunkSeg) :
  Ieee.merge_segment (Ieee.Fin OVERLAP_SEC) (Ieee.Fin MIN_SEGMENT_SEC) lib
    (Ieee.Fin w_start) (Ieee.Fin w_end) (of_state st) (of_chunk_seg c)
  = of_state (merge_segment OVERLAP_SEC MIN_SEGMENT_SEC lib w_start w_end st c).
Proof.
  unfold Ieee.merge_segment, merge_segment, Ieee.outside_window, outside_window.
  cbn [of_state of_chunk_seg Ieee.c_start Ieee.c_end Ieee.c_text Ieee.merged
       Ieee.last_end Ieee.seg_id Ieee.meta Ieee.add Ieee.sub Ieee.lt Ieee.le Ieee.EPS].
  destruct (Qlt_bool _ _ || Qlt_bool _ _); [reflexivity|].
  rewrite py_max_fin, py_min_fin, <- map_rev, scan_back_agrees.
  destruct (scan_back _ _ _ _ _); [reflexivity|].
  cbn [Ieee.add Ieee.le].
  destruct (Qle_bool _ _); [reflexivity|].
  cbn [Ieee.lt].
  destruct (Qlt_bool (py_max _ _) (last_end st)); cbn [Ieee.sub Ieee.lt];
    (destruct (Qlt_bool (_ - _) MIN_SEGMENT_SEC); [reflexivity|]);
    unfold of_state; cbn [merged seg_id last_end meta Ieee.py_round3];
    by rewrite map_app.
Qed.

Lemma fold_merge_agrees (w_start w_end : Q) (segs : list ChunkSeg) (st : MergeState) :
  fold_left
    (Ieee.merge_segment (Ieee.Fin OVERLAP_SEC) (Ieee.Fin MIN_SEGMENT_SEC) lib
       (Ieee.Fin w_start) (Ieee.Fin w_end))
    (map of_chunk_seg segs) (of_state st)
  = of_state
      (fold_left (merge_segment OVERLAP_SEC MIN_SEGMENT_SEC lib w_start w_end) segs st).
Proof.
  revert st. induction segs as [|c rest IH]; intros st; [reflexivity|].
  cbn [map fold_left]. by rewrite merge_segment_agrees, IH.
Qed.

Lemma repair_segment_agrees (fixed : list Seg) (cur : Q) (seg : Seg) :
  Ieee.repair_segment (Ieee.Fin MIN_SEGMENT_SEC) (map of_seg fixed, Ieee.Fin cur)
    (of_seg seg)
  = (map of_seg (fst (repair_segment MIN_SEGMENT_SEC (fixed, cur) seg)),
     Ieee.Fin (snd (repair_segment MIN_SEGMENT_SEC (fixed, cur) seg))).
Proof.
  unfold Ieee.repair_segment, repair_segment.
  cbn [of_seg Ieee.start Ieee.end_ Ieee.text Ieee.lt].
  destruct (Qlt_bool (start seg) cur); cbn [Ieee.sub Ieee.lt];
    (destruct (Qlt_bool 0 (_ - cur)); rewrite ?py_max_fin; cbn [Ieee.sub Ieee.lt];
     (destruct (Qlt_bool (_ - _) MIN_SEGMENT_SEC); cbn [fst snd]; [reflexivity|]);
     by rewrite map_app, length_map).
Qed.

Lemma repair_fold_agrees (l fixed : list Seg) (cur : Q) :
  fold_left (Ieee.repair_segment (Ieee.Fin MIN_SEGMENT_SEC)) (map of_seg l)
    (map of_seg fixed, Ieee.Fin cur)
  = (map of_seg (fst (fold_left (repair_segment MIN_SEGMENT_SEC) l (fixed, cur))),
     Ieee.Fin (snd (fold_left (repair_segment MIN_SEGMENT_SEC) l (fixed, cur)))).
Proof.
  revert fixed cur. induction l as [|seg rest IH]; intros fixed cur; [reflexivity|].
  cbn [map fold_left]. rewrite repair_segment_agrees.
  destruct (repair_segment MIN_SEGMENT_SEC (fixed, cur) seg) as [fixed' cur'].
  cbn [fst snd]. apply IH.
Qed.

Lemma repair_agrees (l : list Seg) :
  Ieee.repair (Ieee.Fin MIN_SEGMENT_SEC) (map of_seg l)
  = map of_seg (repair MIN_SEGMENT_SEC l).
Proof.
  unfold Ieee.repair, repair.
  change ([], Ieee.Fin 0) with (map of_seg [], Ieee.Fin 0%Q).
  by rewrite repair_fold_agrees.
Qed.

End Agreement.

Lemma at_most_fin (a b : Q) : at_most (Ieee.Fin a) (Ieee.Fin b) <-> (a <= b)%Q.
Proof. unfold at_most. cbn. apply Qle_bool_iff. Qed.

Lemma of_seg_lookup (l : list Seg) (i : nat) (a : Ieee.Seg) :
  map of_seg l !! i = Some a -> exists a', l !! i = Some a' /\ a = of_seg a'.
Proof.
  change (map of_seg l) with (of_seg <$> l). rewrite list_lookup_fmap.
  destruct (l !! i) as [a'|]; [|discriminate]. intros [= <-]. by exists a'.
Qed.

Lemma of_seg_elem (l : list Seg) (a : Ieee.Seg) :
  a ∈ map of_seg l -> exists a', a' ∈ l /\ a = of_seg a'.
Proof.
  intros H. apply list_elem_of_fmap in H as (a' & -> & H). by exists a'.
Qed.

Lemma finite_of_segs (l : list Seg) : Forall finite_seg (map of_seg l).
Proof. apply Forall_forall. intros a Ha. apply of_seg_elem in Ha as (a' & _ & ->). by split. Qed.

Lemma float_no_overlap_of (l : list Seg) : no_overlap l -> float_no_overlap (map of_seg l).
Proof.
  intros H i a b Ha Hb.
  apply of_seg_lookup in Ha as (a' & Ha & ->). apply of_seg_lookup in Hb as (b' & Hb & ->).
  apply at_most_fin. by apply (H i).
Qed.

Lemma float_long_enough_of (m : Q) (l : list Seg) :
  long_enough_and_dense m l -> float_long_enough_and_dense (Ieee.Fin m) (map of_seg l).
Proof.
  intros H i a Ha. apply of_seg_lookup in Ha as (a' & Ha & ->).
  destruct (H i a' Ha) as [Hd Hid]. split; [|exact Hid]. by apply at_most_fin.
Qed.

Lemma float_posted_of (m : Q) (l : list Seg) :
  posted_invariant m l -> float_posted_invariant (Ieee.Fin m) (map of_seg l).
Proof.
  intros [H Hd]. split; [|by apply float_long_enough_of].
  intros i a b Ha Hb.
  apply of_seg_lookup in Ha as (a' & Ha & ->). apply of_seg_lookup in Hb as (b' & Hb & ->).
  destruct (H i a' b' Ha Hb) as (H1 & H2 & H3).
  split; [|split]; by apply at_most_fin.
Qed.

Lemma py_max_above (a b : Q) : (b <= py_max a b)%Q.
Proof.
  unfold py_max. destruct (Qlt_bool a b) eqn:E; [lra|].
  apply Qlt_bool_false in E. exact E.
Qed.

Lemma py_min_below (a b : Q) : (py_min a b <= b)%Q.
Proof.
  unfold py_min. destruct (Qlt_bool b a) eqn:E; [lra|].
  apply Qlt_bool_false in E. exact E.
Qed.

(** *** An infinite time of a segment is clamped to its window *)

Section StandIn.

Variables (ws we : Q).

Lemma eps_pos : (0 < EPS)%Q.
Proof. reflexivity. Qed.

Lemma after_not_before_start :
  Qlt_bool (after_window ws we + ws) (ws + EPS) = false.
Proof.
  apply Qlt_bool_false. unfold after_window.
  pose proof (py_max_ge EPS (we - ws)). lra.
Qed.

Lemma after_past_end : Qlt_bool we (after_window ws we + ws) = true.
Proof.
  apply Qlt_bool_iff. unfold after_window.
  pose proof (py_max_above EPS (we - ws)). lra.
Qed.

Lemma after_past_clamp : Qlt_bool (we - EPS) (after_window ws we + ws) = true.
Proof.
  apply Qlt_bool_iff. unfold after_window.
  pose proof (py_max_above EPS (we - ws)). pose proof eps_pos. lra.
Qed.

Lemma before_ahead_of_start : Qlt_bool (before_window ws we + ws) (ws + EPS) = true.
Proof.
  apply Qlt_bool_iff. unfold before_window.
  pose proof (py_min_le 0 (we - EPS - ws)). pose proof eps_pos. lra.
Qed.

Lemma before_not_past_clamp : Qlt_bool (we - EPS) (before_window ws we + ws) = false.
Proof.
  apply Qlt_bool_false. unfold before_window.
  pose proof (py_min_below 0 (we - EPS - ws)). lra.
Qed.

Lemma before_ahead_of_window : Qlt_bool (before_window ws we + ws) ws = true.
Proof.
  apply Qlt_bool_iff. unfold before_window.
  pose proof (py_min_le 0 (we - EPS - ws)). lra.
Qed.

Variables (OVERLAP_SEC MIN_SEGMENT_SEC : Ieee.float) (lib : PyLib).

Lemma merge_segment_stand_in (st : Ieee.MergeState) (c : Ieee.ChunkSeg) :
  numeric_chunk_seg c ->
  Ieee.merge_segment OVERLAP_SEC MIN_SEGMENT_SEC lib (Ieee.Fin ws) (Ieee.Fin we) st c
  = Ieee.merge_segment OVERLAP_SEC MIN_SEGMENT_SEC lib (Ieee.Fin ws) (Ieee.Fin we) st
      (of_chunk_seg (stand_in ws we c)).
Proof.
  destruct c as [a b t]. intros [Ha Hb]. cbn in Ha, Hb.
  unfold Ieee.merge_segment, Ieee.outside_window, stand_in, of_chunk_seg.
  cbn [Ieee.c_start Ieee.c_end Ieee.c_text c_start c_end c_text].
  destruct a as [qa| | |], b as [qb| | |]; try contradiction;
    cbn [stand_in_time Ieee.add Ieee.sub Ieee.lt Ieee.EPS orb];
    rewrite ?after_not_before_start, ?after_past_clamp, ?before_ahead_of_start,
      ?before_not_past_clamp, ?orb_true_r;
    cbn [orb]; try reflexivity.
  all: unfold Ieee.py_max, Ieee.py_min; cbn [Ieee.lt];
    rewrite ?after_past_end, ?before_ahead_of_window; try reflexivity.
Qed.


Lemma fold_merge_stand_in (segs : list Ieee.ChunkSeg)
    (st : Ieee.MergeState) :
  Forall numeric_chunk_seg segs ->
  fold_left
    (Ieee.merge_segment OVERLAP_SEC MIN_SEGMENT_SEC lib
       (Ieee.Fin ws) (Ieee.Fin we)) segs st
  = fold_left
      (Ieee.merge_segment OVERLAP_SEC MIN_SEGMENT_SEC lib
         (Ieee.Fin ws) (Ieee.Fin we))
      (map of_chunk_seg (map (stand_in ws we) segs)) st.
Proof.
  intros H. revert st. induction H as [|c rest Hc _ IH]; intros st; [reflexivity|].
  cbn [map fold_left]. by rewrite <- merge_segment_stand_in, IH.
Qed.

End StandIn.

Section FiniteRuns.

Variables (OVERLAP_SEC MIN_SEGMENT_SEC : Q) (lib : PyLib) (s3 : S3Client).
Variable float_of_str : string -> result Ieee.float.
Variable _read_s3_json : string -> string -> result Ieee.json.
Variables (bucket job : string).

(** A property [I] of the first pass on finite times, kept by the turns of
    the loop of [Stitcher] over any segments of a found window, holds of
    the state in which the first pass of [Ieee] ends. *)
Lemma merge_loop_finite (I : MergeState -> Prop) (manifest : list Ieee.Entry)
    (st : MergeState) (st' : Ieee.MergeState) :
  Forall finite_entry manifest ->
  numeric_results s3 float_of_str _read_s3_json bucket job manifest ->
  (forall (e : Ieee.Entry) (key : string) (segs : list ChunkSeg) (st0 : MergeState),
      e ∈ manifest ->
      _guess_chunk_key s3 bucket job (Ieee.index e) = Ok (Some key) ->
      I st0 ->
      let st1 :=
        fold_left
          (merge_segment OVERLAP_SEC MIN_SEGMENT_SEC lib
             (val (Ieee.start_sec e)) (val (Ieee.end_sec e))) segs st0 in
      I {| merged := merged st1; seg_id := seg_id st1; last_end := last_end st1;
           meta := bump_chunks (meta st1) |}) ->
  I st ->
  Ieee.merge_loop (Ieee.Fin OVERLAP_SEC) (Ieee.Fin MIN_SEGMENT_SEC) lib s3
    float_of_str _read_s3_json bucket job manifest (of_state st) = Ok st' ->
  exists stq : MergeState, st' = of_state stq /\ I stq.
Proof.
  revert st. induction manifest as [|e rest IH]; intros st Hfin Hres Hstep Hst.
  - cbn. intros [= <-]. by exists st.
  - apply Forall_cons in Hfin as [[Hs He] Hfin].
    assert (Hres' : numeric_results s3 float_of_str _read_s3_json bucket job rest).
    { intros e' key segs ?. apply Hres. by right. }
    assert (Hstep' : forall e' key segs st0, e' ∈ rest ->
              _guess_chunk_key s3 bucket job (Ieee.index e') = Ok (Some key) ->
              I st0 ->
              let st1 :=
                fold_left
                  (merge_segment OVERLAP_SEC MIN_SEGMENT_SEC lib
                     (val (Ieee.start_sec e')) (val (Ieee.end_sec e'))) segs st0 in
              I {| merged := merged st1; seg_id := seg_id st1; last_end := last_end st1;
                   meta := bump_chunks (meta st1) |}).
    { intros e' key segs st0 ?. apply Hstep. by right. }
    cbn [Ieee.merge_loop]. unfold Ieee.merge_entry.
    destruct (_guess_chunk_key s3 bucket job (Ieee.index e)) as [[key|]|] eqn:Eg;
      cbn [bind]; [| |discriminate].
    + destruct (Ieee._load_chunk_segments float_of_str _read_s3_json bucket key)
        as [segs|] eqn:El; cbn [bind]; [|discriminate].
      pose proof (Hres e key segs ltac:(left) Eg El) as Hsegs.
      rewrite <- (finite_val _ Hs), <- (finite_val _ He).
      rewrite (fold_merge_stand_in _ _ _ _ _ _ _ Hsegs), fold_merge_agrees.
      set (st1 := fold_left _ (map (stand_in _ _) segs) st).
      apply (IH {| merged := merged st1; seg_id := seg_id st1; last_end := last_end st1;
                   meta := bump_chunks (meta st1) |} Hfin Hres' Hstep').
      apply (Hstep e key (map (stand_in _ _) segs) st ltac:(left) Eg Hst).
    + by apply IH.
Qed.

End FiniteRuns.

(** C1: when the tunables are finite numbers, every window of the
    manifest has a finite start and a finite end and no loaded segment of a
    found chunk has NaN as its start or its end, then in the sequence the
    merge returns after the repair pass every time is finite, every segment
    starts at or after the end of the one before it, lasts at least
    [MIN_SEGMENT_SEC] and has its position as id (0, 1, 2, ...); and when
    moreover [MIN_SEGMENT_SEC] is not negative, the starts are
    non-decreasing and the ends never retreat. *)
Theorem repair_posts_invariant (OVERLAP_SEC MIN_SEGMENT_SEC : Q) (lib : PyLib)
    (s3 : S3Client) (float_of_str : string -> result Ieee.float)
    (_read_s3_json : string -> string -> result Ieee.json)
    (manifest : list Ieee.Entry) (bucket job : string)
    (fixed : list Ieee.Seg) (meta : Meta) :
  Forall finite_entry manifest ->
  numeric_results s3 float_of_str _read_s3_json bucket job manifest ->
  Ieee._merge_segments (Ieee.Fin OVERLAP_SEC) (Ieee.Fin MIN_SEGMENT_SEC) lib s3
    float_of_str _read_s3_json manifest bucket job = Ok (fixed, meta) ->
  Forall finite_seg fixed
  /\ float_no_overlap fixed
  /\ float_long_enough_and_dense (Ieee.Fin MIN_SEGMENT_SEC) fixed
  /\ ((0 <= MIN_SEGMENT_SEC)%Q ->
      float_posted_invariant (Ieee.Fin MIN_SEGMENT_SEC) fixed).
Proof.
  intros Hfin Hres. unfold Ieee._merge_segments.
  destruct (Ieee.merge_loop _ _ _ _ _ _ _ _ _ _) as [st|] eqn:Eloop;
    cbn [bind]; [|discriminate].
  intros [= <- <-].
  apply (merge_loop_finite OVERLAP_SEC MIN_SEGMENT_SEC lib s3 float_of_str
           _read_s3_json bucket job (fun st => Forall seg_on_grid (merged st))
           manifest initial_state st Hfin Hres) in Eloop as (stq & -> & Hgrid).
  - cbn [of_state Ieee.merged]. rewrite repair_agrees.
    destruct (repair_keeps_invariant MIN_SEGMENT_SEC (merged stq) Hgrid) as [Hadj Hall].
    split; [apply finite_of_segs|].
    split; [by apply float_no_overlap_of|].
    split; [by apply float_long_enough_of|].
    intros Hmin. by apply float_posted_of, posted_from_parts.
  - intros e key segs st0 _ _ H. cbn [merged]. by apply fold_merge_grid.
  - constructor.
Qed.

Lemma repair_posts_invariant_witness :
  float_posted_invariant (Ieee.Fin (6 # 100))
    [ {| Ieee.id := 0; Ieee.start := Ieee.Fin (py_round3 590);
         Ieee.end_ := Ieee.Fin (py_round3 598); Ieee.text := "good morning" |};
      {| Ieee.id := 1; Ieee.start := Ieee.Fin (py_round3 (5985 # 10));
         Ieee.end_ := Ieee.Fin (py_round3 (5998 # 10)); Ieee.text := "hello world" |};
      {| Ieee.id := 2; Ieee.start := Ieee.Fin (py_round3 601);
         Ieee.end_ := Ieee.Fin (py_round3 604); Ieee.text := "how are you" |} ].
Proof.
  refine (proj2 (proj2 (proj2
            (repair_posts_invariant 1 (6 # 100) (Fixture.lib [])
               (Fixture.bucket_client Fixture.hello_objects) Fixture.no_float_of_str
               (Fixture.reader Fixture.hello_documents)
               Fixture.hello_windows "results" "job" _
               {| chunks := 2; dropped_short := 0; dropped_overlap := 1 |} _ _ _))) _).
  - repeat constructor.
  - intros e key segs He Hg Hl.
    repeat (apply elem_of_cons in He as [-> | He]);
      [| |by apply not_elem_of_nil in He];
      vm_compute in Hg; injection Hg as <-; vm_compute in Hl; injection Hl as <-;
      repeat constructor.
  - vm_compute. reflexivity.
  - vm_compute. discriminate.
Defined.

(** The claim as it stands fails on three inputs. With the default
    tunables, a chunk segment whose end is NaN passes every test of both
    passes (each comparison with NaN is false): the output holds a segment
    that ends at NaN and the starts 6 and then 1. With the default
    tunables again, a window from [Infinity] to [Infinity] yields a segment
    whose duration, infinity less infinity, is NaN and so not at least
    [MIN_SEGMENT_SEC]. With finite times and [MIN_SEGMENT_SEC = -10], a
    window that ends before it starts yields a segment from 5 to 2,
    followed by one that starts at 3. *)
Lemma repair_posts_invariant_counterexample :
  Ieee._merge_segments (Ieee.Fin 1) (Ieee.Fin (6 # 100)) (Fixture.lib [])
    (Fixture.bucket_client Fixture.nan_bucket) Fixture.no_float_of_str
    (Fixture.reader Fixture.nan_documents) Fixture.nan_manifest "results" "job"
  = Ok ([ {| Ieee.id := 0; Ieee.start := Ieee.Fin (py_round3 5);
             Ieee.end_ := Ieee.Fin (py_round3 6); Ieee.text := "a" |};
          {| Ieee.id := 1; Ieee.start := Ieee.Fin (py_round3 6);
             Ieee.end_ := Ieee.NaN; Ieee.text := "b" |};
          {| Ieee.id := 2; Ieee.start := Ieee.Fin (py_round3 1);
             Ieee.end_ := Ieee.Fin (py_round3 2); Ieee.text := "c" |} ],
        {| chunks := 1; dropped_short := 0; dropped_overlap := 0 |})
  /\ Ieee.le (Ieee.Fin (py_round3 6)) (Ieee.Fin (py_round3 1)) = false
  /\ Ieee.le Ieee.NaN (Ieee.Fin (py_round3 1)) = false
  /\ Ieee._merge_segments (Ieee.Fin 1) (Ieee.Fin (6 # 100)) (Fixture.lib [])
       (Fixture.bucket_client Fixture.nan_bucket) Fixture.no_float_of_str
       (Fixture.reader Fixture.plain_documents) Fixture.endless_manifest
       "results" "job"
     = Ok ([ {| Ieee.id := 0; Ieee.start := Ieee.PosInf; Ieee.end_ := Ieee.PosInf;
                Ieee.text := "a" |} ],
           {| chunks := 1; dropped_short := 0; dropped_overlap := 0 |})
  /\ Ieee.le (Ieee.Fin (6 # 100)) (Ieee.sub Ieee.PosInf Ieee.PosInf) = false
  /\ _merge_segments 1 (-10) (Fixture.lib [])
       (Fixture.bucket_client Fixture.crossed_objects)
       Fixture.crossed_manifest "results" "job"
     = Ok ([ {| id := 0; start := py_round3 5; end_ := py_round3 2; text := "a" |};
             {| id := 1; start := py_round3 3; end_ := py_round3 4; text := "b" |} ],
           {| chunks := 2; dropped_short := 0; dropped_overlap := 0 |})
  /\ Qle_bool (py_round3 5) (py_round3 3) = false.
Proof. vm_compute. repeat split. Qed.

(** ** Further properties of the stitcher *)

(** *** Strings *)

Lemma append_cons (x : ascii) (a b : string) : String x a +:+ b = String x (a +:+ b).
Proof. reflexivity. Qed.

Lemma append_nil (b : string) : EmptyString +:+ b = b.
Proof. reflexivity. Qed.

Lemma append_assoc (a b c : string) : (a +:+ b) +:+ c = a +:+ (b +:+ c).
Proof.
  induction a as [|x a IH]; [done|]. rewrite !append_cons. by rewrite IH.
Qed.

Lemma append_empty_r (a : string) : a +:+ EmptyString = a.
Proof. induction a as [|x a IH]; [done|]. rewrite append_cons. by rewrite IH. Qed.

Lemma length_append (a b : string) :
  String.length (a +:+ b) = (String.length a + String.length b)%nat.
Proof.
  induction a as [|x a IH]; [done|]. rewrite append_cons. cbn. by rewrite IH.
Qed.

Lemma substring_all (s : string) : substring 0 (String.length s) s = s.
Proof. induction s as [|x s IH]; cbn; [done|]. by rewrite IH. Qed.

Lemma substring_front (a b : string) : substring 0 (String.length a) (a +:+ b) = a.
Proof.
  induction a as [|x a IH]; [by destruct b|].
  rewrite append_cons. cbn. by rewrite IH.
Qed.

Lemma substring_back (a b : string) (n : nat) :
  substring (String.length a) n (a +:+ b) = substring 0 n b.
Proof.
  induction a as [|x a IH]; [done|]. rewrite append_cons. cbn. exact IH.
Qed.

Lemma endswith_append (a suffix : string) : endswith (a +:+ suffix) suffix = true.
Proof.
  unfold endswith. rewrite length_append.
  replace (String.length a + String.length suffix - String.length suffix)%nat
    with (String.length a) by lia.
  rewrite substring_back, substring_all, String.eqb_refl, andb_true_r.
  apply Nat.leb_le. lia.
Qed.

Lemma drop_last_append (a suffix : string) :
  drop_last (String.length suffix) (a +:+ suffix) = a.
Proof.
  unfold drop_last. rewrite length_append.
  replace (String.length a + String.length suffix - String.length suffix)%nat
    with (String.length a) by lia.
  apply substring_front.
Qed.

Lemma list_ascii_append (a b : string) :
  list_ascii_of_string (a +:+ b) = list_ascii_of_string a ++ list_ascii_of_string b.
Proof.
  induction a as [|x a IH]; [done|]. rewrite append_cons. cbn. by rewrite IH.
Qed.

Lemma no_slash_append (a b : string) : no_slash a -> no_slash b -> no_slash (a +:+ b).
Proof.
  unfold no_slash. rewrite list_ascii_append, existsb_app.
  intros -> ->. reflexivity.
Qed.

Lemma last_component_no_slash (s : string) : no_slash s -> last_component s = s.
Proof.
  unfold no_slash. destruct s as [|c s]; [done|].
  intros H. cbn [last_component]. by rewrite H.
Qed.

Lemma last_component_after_slash (a b : string) :
  no_slash b -> last_component (a +:+ "/" +:+ b) = b.
Proof.
  intros Hb. induction a as [|c a IH].
  - rewrite append_nil, append_cons, append_nil. cbn [last_component].
    cbn [list_ascii_of_string existsb]. cbn [nat_of_ascii]. cbn.
    by apply last_component_no_slash.
  - rewrite append_cons. cbn [last_component].
    replace (existsb _ (list_ascii_of_string (String c (a +:+ "/" +:+ b))))
      with true; [exact IH|].
    symmetry. rewrite <- append_cons.
    rewrite !list_ascii_append, !existsb_app. cbn. by rewrite orb_true_r.
Qed.

(** *** Job id *)

(** X1: the job id read off a manifest key [<dir>/<job>.jsonl], or off
    [<job>.jsonl] alone, is [<job>], for every job id that holds no slash. *)
Theorem derive_job_id_of_manifest_key (dir job : string) :
  no_slash job ->
  _derive_job_id_from_manifest_key (dir +:+ "/" +:+ job +:+ ".jsonl") = job
  /\ _derive_job_id_from_manifest_key (job +:+ ".jsonl") = job.
Proof.
  intros Hjob.
  assert (Hname : no_slash (job +:+ ".jsonl")) by (by apply no_slash_append).
  unfold _derive_job_id_from_manifest_key, basename. split.
  - rewrite (last_component_after_slash dir (job +:+ ".jsonl") Hname).
    rewrite endswith_append. apply (drop_last_append job ".jsonl").
  - rewrite (last_component_no_slash _ Hname).
    rewrite endswith_append. apply (drop_last_append job ".jsonl").
Qed.

Lemma derive_job_id_of_manifest_key_witness :
  _derive_job_id_from_manifest_key ("manifests" +:+ "/" +:+ "job-42" +:+ ".jsonl")
  = "job-42"%string.
Proof.
  apply (proj1 (derive_job_id_of_manifest_key "manifests" "job-42" eq_refl)).
Defined.

(** *** Discovery of the chunk results *)

Lemma s3_key_exists_true (s3 : S3Client) (bucket key : string) :
  _s3_key_exists s3 bucket key = Ok true <-> head_object s3 bucket key = HeadFound.
Proof.
  unfold _s3_key_exists. destruct (head_object s3 bucket key) as [|status code].
  - done.
  - destruct ((status =? 404) || _); split; discriminate.
Qed.

Lemma first_existing_some (s3 : S3Client) (bucket : string) (keys : list string)
    (k : string) :
  first_existing s3 bucket keys = Ok (Some k) ->
  k ∈ keys /\ head_object s3 bucket k = HeadFound.
Proof.
  induction keys as [|k0 rest IH]; cbn [first_existing]; [discriminate|].
  destruct (_s3_key_exists s3 bucket k0) as [[|]|] eqn:E; cbn [bind].
  - intros [= <-]. split; [left | by apply s3_key_exists_true].
  - intros H. destruct (IH H) as [Hin Hh]. split; [by right | done].
  - discriminate.
Qed.

Lemma first_existing_none (s3 : S3Client) (bucket : string) (keys : list string) :
  first_existing s3 bucket keys = Ok None ->
  forall k, k ∈ keys -> _s3_key_exists s3 bucket k = Ok false.
Proof.
  induction keys as [|k0 rest IH]; cbn [first_existing].
  - intros _ k Hk. by apply not_elem_of_nil in Hk.
  - destruct (_s3_key_exists s3 bucket k0) as [[|]|] eqn:E; cbn [bind];
      [discriminate| |discriminate].
    intros H k Hk. apply elem_of_cons in Hk as [-> | Hk]; [exact E | by apply IH].
Qed.

Lemma match_prefixes_some (s3 : S3Client) (bucket : string) (idx : Z)
    (cps : list (option string)) (k : string) :
  match_prefixes s3 bucket idx cps = Ok (Some k) ->
  head_object s3 bucket k = HeadFound /\ exists pfx, k = pfx +:+ "out.json".
Proof.
  induction cps as [|cp rest IH]; cbn [match_prefixes]; [discriminate|].
  destruct (bool_decide _ || bool_decide _); [|exact IH].
  destruct (_s3_key_exists s3 bucket (default EmptyString cp +:+ "out.json"))
    as [[|]|] eqn:E; cbn [bind]; [|exact IH|discriminate].
  intros [= <-]. split; [by apply s3_key_exists_true | eauto].
Qed.

(** X2: a key the discovery returns was answered as present by the
    probe and ends with [out.json]; and when the discovery returns no key,
    both exact keys (index padded to five digits, index as it is) were
    answered as absent. *)
Theorem guess_chunk_key_sound (s3 : S3Client) (bucket job : string) (idx : Z) :
  (forall k, _guess_chunk_key s3 bucket job idx = Ok (Some k) ->
     head_object s3 bucket k = HeadFound /\ exists front, k = front +:+ "out.json")
  /\ (_guess_chunk_key s3 bucket job idx = Ok None ->
      _s3_key_exists s3 bucket (padded_key job idx) = Ok false
      /\ _s3_key_exists s3 bucket (plain_key job idx) = Ok false).
Proof.
  unfold _guess_chunk_key. fold (padded_key job idx) (plain_key job idx).
  destruct (first_existing s3 bucket [padded_key job idx; plain_key job idx])
    as [[k0|]|] eqn:E; cbn [bind]; split.
  - intros k [= <-]. apply first_existing_some in E as [Hin Hh]. split; [done|].
    apply list_elem_of_In in Hin. cbn in Hin. destruct Hin as [<- | [<- | []]].
    + exists ("chunks/" +:+ job +:+ "/" +:+ fmt_0d 5 idx +:+ "/").
      unfold padded_key. by rewrite !append_assoc.
    + exists ("chunks/" +:+ job +:+ "/" +:+ str_int idx +:+ "/").
      unfold plain_key. by rewrite !append_assoc.
  - discriminate.
  - intros k. apply match_prefixes_some.
  - intros _. split; apply (first_existing_none _ _ _ E); [left | right; left].
  - discriminate.
  - discriminate.
Qed.

Lemma guess_chunk_key_sound_witness :
  head_object (Fixture.bucket_client Fixture.gap_objects) "results"
    "chunks/job/2/out.json" = HeadFound
  /\ exists front, "chunks/job/2/out.json"%string = front +:+ "out.json".
Proof.
  apply (proj1 (guess_chunk_key_sound (Fixture.bucket_client Fixture.gap_objects)
                  "results" "job" 2)).
  vm_compute. reflexivity.
Defined.

(** X3: the exact keys are tried in order: when the padded key is present
    it is the answer, and when it is absent and the plain key is present the
    plain key is the answer; the listing is not consulted. *)
Theorem guess_chunk_key_order (s3 : S3Client) (bucket job : string) (idx : Z) :
  (head_object s3 bucket (padded_key job idx) = HeadFound ->
   _guess_chunk_key s3 bucket job idx = Ok (Some (padded_key job idx)))
  /\ (_s3_key_exists s3 bucket (padded_key job idx) = Ok false ->
      head_object s3 bucket (plain_key job idx) = HeadFound ->
      _guess_chunk_key s3 bucket job idx = Ok (Some (plain_key job idx))).
Proof.
  unfold _guess_chunk_key. fold (padded_key job idx) (plain_key job idx).
  cbn [first_existing]. split.
  - intros H. apply s3_key_exists_true in H. by rewrite H.
  - intros H1 H2. apply s3_key_exists_true in H2. by rewrite H1, H2.
Qed.

Lemma guess_chunk_key_order_witness :
  _guess_chunk_key (Fixture.bucket_client Fixture.gap_objects) "results" "job" 0
  = Ok (Some (padded_key "job" 0))
  /\ _guess_chunk_key (Fixture.bucket_client Fixture.gap_objects) "results" "job" 2
     = Ok (Some (plain_key "job" 2)).
Proof.
  split.
  - apply (proj1 (guess_chunk_key_order _ _ _ _)). vm_compute. reflexivity.
  - apply (proj2 (guess_chunk_key_order _ _ _ _)); vm_compute; reflexivity.
Defined.

Lemma merge_loop_raises (OVERLAP_SEC MIN_SEGMENT_SEC : Q) (lib : PyLib) (s3 : S3Client)
    (bucket job : string) (manifest : list Entry) (st : MergeState) (e : Entry) :
  e ∈ manifest ->
  (exists err, merge_entry OVERLAP_SEC MIN_SEGMENT_SEC lib s3 bucket job st e = Raise err
               /\ forall st', merge_entry OVERLAP_SEC MIN_SEGMENT_SEC lib s3 bucket job
                                st' e = Raise err) ->
  exists err', merge_loop OVERLAP_SEC MIN_SEGMENT_SEC lib s3 bucket job manifest st
               = Raise err'.
Proof.
  intros Hin (err & _ & Hall). revert st.
  induction manifest as [|e0 rest IH]; intros st.
  - by apply not_elem_of_nil in Hin.
  - cbn [merge_loop].
    destruct (merge_entry _ _ _ _ _ _ st e0) as [st'|err0] eqn:E0; cbn [bind];
      [|eauto].
    apply elem_of_cons in Hin as [-> | Hin]; [|by apply IH].
    rewrite Hall in E0. discriminate.
Qed.

(** X4: a probe answered with a client error that is not a not-found
    (status other than 404, code other than 404, NotFound, NoSuchKey) makes
    the discovery raise [ClientError]; and a window of the manifest whose
    discovery raises, or whose found chunk fails to load, makes the whole
    merge raise: no partial transcript is returned. *)
Theorem storage_error_aborts_merge (OVERLAP_SEC MIN_SEGMENT_SEC : Q) (lib : PyLib)
    (s3 : S3Client) (bucket job : string) :
  (forall idx status code,
      head_object s3 bucket (padded_key job idx) = HeadClientError status code ->
      status <> 404 -> code ∉ ["404"; "NotFound"; "NoSuchKey"]%string ->
      _guess_chunk_key s3 bucket job idx = Raise ClientError)
  /\ (forall manifest e err,
        e ∈ manifest ->
        _guess_chunk_key s3 bucket job (index e) = Raise err
        \/ (exists k, _guess_chunk_key s3 bucket job (index e) = Ok (Some k)
                      /\ _load_chunk_segments lib s3 bucket k = Raise err) ->
        exists err',
          _merge_segments OVERLAP_SEC MIN_SEGMENT_SEC lib s3 manifest bucket job
          = Raise err').
Proof.
  split.
  - intros idx status code Hh Hs Hc.
    unfold _guess_chunk_key. fold (padded_key job idx) (plain_key job idx).
    cbn [first_existing]. unfold _s3_key_exists at 1. rewrite Hh.
    replace (status =? 404) with false by (symmetry; by apply Z.eqb_neq).
    rewrite bool_decide_eq_false_2 by exact Hc. reflexivity.
  - intros manifest e err Hin Hbad.
    destruct (merge_loop_raises OVERLAP_SEC MIN_SEGMENT_SEC lib s3 bucket job
                manifest initial_state e Hin) as [err' Hloop].
    + exists err. unfold merge_entry.
      destruct Hbad as [Hg | (k & Hg & Hl)]; rewrite Hg; cbn [bind];
        [done | rewrite Hl; done].
    + exists err'. unfold _merge_segments. by rewrite Hloop.
Qed.

Lemma storage_error_aborts_merge_witness :
  _guess_chunk_key
    {| head_object := fun _ _ => HeadClientError 403 "AccessDenied";
       list_common_prefixes := fun _ _ => [];
       get_object_json := fun _ _ => Raise ClientError |}
    "results" "job" 7
  = Raise ClientError.
Proof.
  apply (proj1 (storage_error_aborts_merge 1 (6 # 100) (Fixture.lib []) _
                  "results" "job") 7 403 "AccessDenied"%string).
  - reflexivity.
  - discriminate.
  - vm_compute. intros H. apply list_elem_of_In in H. cbn in H.
    destruct H as [H | [H | [H | []]]]; discriminate.
Defined.

(** *** Rendering of any sequence *)

Lemma join_cons2 (sep x y : string) (l : list string) :
  join sep (x :: y :: l) = x +:+ sep +:+ join sep (y :: l).
Proof. reflexivity. Qed.

(** X5: the plain-text output is the texts of the segments in order, each
    followed by one line feed. *)
Theorem txt_is_one_line_per_segment (segs : list Seg) :
  _to_txt segs = concat_strings (map (fun s => text s +:+ LF) segs).
Proof.
  unfold _to_txt. destruct segs as [|s rest]; [reflexivity|].
  revert s. induction rest as [|s' rest IH]; intros s.
  - cbn [map join concat_strings foldr]. by rewrite append_empty_r.
  - specialize (IH s').
    cbn [map concat_strings foldr] in *. rewrite join_cons2.
    fold LF. rewrite <- IH. by rewrite !append_assoc.
Qed.

Lemma vtt_lines_join (segs : list Seg) :
  join LF (EmptyString :: concat (map vtt_cue segs))
  = concat_strings (map vtt_block segs).
Proof.
  induction segs as [|s rest IH]; [reflexivity|].
  cbn [map concat vtt_cue app concat_strings foldr].
  rewrite !join_cons2, IH. unfold vtt_block, concat_strings.
  rewrite append_nil. by rewrite !append_assoc.
Qed.

(** X6: the WebVTT output is the header line followed, for each segment
    in order, by a blank line, the time line and the text line. *)
Theorem vtt_is_header_then_cues (segs : list Seg) :
  _to_vtt segs = "WEBVTT" +:+ LF +:+ concat_strings (map vtt_block segs).
Proof.
  unfold _to_vtt. fold LF. cbn [app]. rewrite join_cons2.
  by rewrite vtt_lines_join.
Qed.

Lemma srt_parts_join (i : Z) (segs : list Seg) :
  join LF (srt_parts i segs) = join LF (srt_blocks i segs).
Proof.
  revert i. induction segs as [|s rest IH]; intros i; [reflexivity|].
  cbn [srt_parts srt_cue app srt_blocks].
  specialize (IH (i + 1)).
  destruct rest as [|s' rest].
  - cbn [srt_parts join]. unfold srt_block. by rewrite !append_assoc.
  - cbn [srt_parts srt_cue app srt_blocks] in *.
    rewrite !join_cons2. rewrite !join_cons2 in IH. rewrite IH.
    unfold srt_block. by rewrite !append_assoc.
Qed.

(** X7: the SubRip output is one cue per segment in order (the number,
    counted from 1, the time line and the text line), with one blank line
    between two cues and none after the last. *)
Theorem srt_is_numbered_cues (segs : list Seg) :
  _to_srt segs = join LF (srt_blocks 1 segs)
  /\ length (srt_blocks 1 segs) = length segs
  /\ (forall (k : nat) (s : Seg),
        segs !! k = Some s ->
        srt_blocks 1 segs !! k = Some (srt_block (Z.of_nat k + 1) s)).
Proof.
  split; [|split].
  - unfold _to_srt. fold LF. apply srt_parts_join.
  - generalize 1. induction segs as [|s rest IH]; intros i; cbn; [done|].
    by rewrite IH.
  - generalize 1 as i. induction segs as [|s0 rest IH]; intros i k s Hk.
    + by rewrite lookup_nil in Hk.
    + destruct k as [|k]; cbn in *.
      * injection Hk as <-. reflexivity.
      * transitivity (Some (srt_block (Z.of_nat k + (i + 1)) s));
          [exact (IH (i + 1) k s Hk) | do 2 f_equal; lia].
Qed.

Lemma srt_is_numbered_cues_witness :
  srt_blocks 1 [Fixture.hi; Fixture.hi] !! 1%nat
  = Some (srt_block (Z.of_nat 1 + 1) Fixture.hi).
Proof.
  apply (proj2 (proj2 (srt_is_numbered_cues [Fixture.hi; Fixture.hi]))).
  reflexivity.
Defined.

(** *** Time stamps *)

Lemma fmt_0d_2_width (n : Z) : 0 <= n < 100 -> String.length (fmt_0d 2 n) = 2%nat.
Proof.
  intros Hn.
  assert (H : forallb (fun k => (String.length (fmt_0d 2 (Z.of_nat k)) =? 2)%nat)
                (seq 0 100) = true) by (vm_compute; reflexivity).
  rewrite forallb_forall in H.
  specialize (H (Z.to_nat n)). rewrite Z2Nat.id in H by lia.
  apply Nat.eqb_eq, H, in_seq. lia.
Qed.

Lemma fmt_0d_3_width (n : Z) : 0 <= n < 1000 -> String.length (fmt_0d 3 n) = 3%nat.
Proof.
  intros Hn.
  assert (H : forallb (fun k => (String.length (fmt_0d 3 (Z.of_nat k)) =? 3)%nat)
                (seq 0 1000) = true) by (vm_compute; reflexivity).
  rewrite forallb_forall in H.
  specialize (H (Z.to_nat n)). rewrite Z2Nat.id in H by lia.
  apply Nat.eqb_eq, H, in_seq. lia.
Qed.

Lemma hhmmss_msec_fields (sep : string) (s : Q) :
  let t := py_round (s * 1000) in
  hhmmss_msec sep s
  = fmt_0d 2 (t / 3600000) +:+ ":" +:+ fmt_0d 2 (t / 60000 mod 60) +:+ ":"
    +:+ fmt_0d 2 (t / 1000 mod 60) +:+ sep +:+ fmt_0d 3 (t mod 1000).
Proof.
  intros t. unfold hhmmss_msec. fold t.
  assert (Hm : (t - t / 3600000 * 3600000) / 60000 = t / 60000 mod 60)
    by (Z.div_mod_to_equations; lia).
  assert (Hs : (t - t / 3600000 * 3600000
                - (t - t / 3600000 * 3600000) / 60000 * 60000) / 1000
               = t / 1000 mod 60)
    by (Z.div_mod_to_equations; lia).
  assert (Hms : t - t / 3600000 * 3600000
                - (t - t / 3600000 * 3600000) / 60000 * 60000
                - (t - t / 3600000 * 3600000
                   - (t - t / 3600000 * 3600000) / 60000 * 60000) / 1000 * 1000
                = t mod 1000)
    by (Z.div_mod_to_equations; lia).
  cbv zeta. by rewrite Hms, Hs, Hm.
Qed.

(** X8: for every time, negative ones included, the stamp is built from
    the milliseconds [t = round(1000 s)]: the hours are [t // 3600000] (not
    reduced, negative for a negative time), the minutes and the seconds are
    taken modulo 60 and the milliseconds modulo 1000, so these three fields
    are always in range; WebVTT and SubRip differ by the separator only. *)
Theorem timestamp_fields (s : Q) :
  let t := py_round (s * 1000) in
  _sec_to_hhmmss_msec_vtt s
  = fmt_0d 2 (t / 3600000) +:+ ":" +:+ fmt_0d 2 (t / 60000 mod 60) +:+ ":"
    +:+ fmt_0d 2 (t / 1000 mod 60) +:+ "." +:+ fmt_0d 3 (t mod 1000)
  /\ _sec_to_hhmmss_msec_srt s
     = fmt_0d 2 (t / 3600000) +:+ ":" +:+ fmt_0d 2 (t / 60000 mod 60) +:+ ":"
       +:+ fmt_0d 2 (t / 1000 mod 60) +:+ "," +:+ fmt_0d 3 (t mod 1000).
Proof. split; apply hhmmss_msec_fields. Qed.

(** X9: a time whose rounded milliseconds lie between 0 and 100 hours
    gives a stamp of exactly twelve characters, in both formats. *)
Theorem timestamp_width (s : Q) :
  0 <= py_round (s * 1000) < 360000000 ->
  String.length (_sec_to_hhmmss_msec_vtt s) = 12%nat
  /\ String.length (_sec_to_hhmmss_msec_srt s) = 12%nat.
Proof.
  intros Ht.
  assert (H : forall sep, String.length sep = 1%nat ->
                String.length (hhmmss_msec sep s) = 12%nat).
  { intros sep Hsep. rewrite hhmmss_msec_fields. cbv zeta.
    rewrite !length_append, Hsep.
    rewrite !fmt_0d_2_width, fmt_0d_3_width; [reflexivity|..];
      Z.div_mod_to_equations; lia. }
  split; apply H; reflexivity.
Qed.

Lemma timestamp_width_witness :
  String.length (_sec_to_hhmmss_msec_vtt (36615 # 10)) = 12%nat
  /\ String.length (_sec_to_hhmmss_msec_srt (36615 # 10)) = 12%nat.
Proof. apply timestamp_width. vm_compute. split; [discriminate | reflexivity]. Defined.

(** *** What the counters count *)

Section Counting.

Variables (OVERLAP_SEC MIN_SEGMENT_SEC : Q) (lib : PyLib) (s3 : S3Client).
Variables (bucket job : string).

Lemma merge_segment_settles (w_start w_end : Q) (st : MergeState) (s : ChunkSeg) :
  settled (merge_segment OVERLAP_SEC MIN_SEGMENT_SEC lib w_start w_end st s)
  = settled st + (if inside_window w_start w_end s then 1 else 0)
  /\ dropped_short (meta st)
     <= dropped_short
          (meta (merge_segment OVERLAP_SEC MIN_SEGMENT_SEC lib w_start w_end st s))
  /\ dropped_overlap (meta st)
     <= dropped_overlap
          (meta (merge_segment OVERLAP_SEC MIN_SEGMENT_SEC lib w_start w_end st s)).
Proof.
  unfold merge_segment, inside_window, settled.
  destruct (outside_window _ _ _ _); cbn [negb].
  { repeat split; lia. }
  destruct (scan_back _ _ _ _ _); [cbn; repeat split; lia|].
  destruct (Qle_bool _ _); [cbn; repeat split; lia|].
  destruct (Qlt_bool (_ - _) MIN_SEGMENT_SEC); cbn; [repeat split; lia|].
  rewrite length_app. cbn. repeat split; lia.
Qed.

Lemma fold_merge_settles (w_start w_end : Q) (segs : list ChunkSeg) (st : MergeState) :
  let st' := fold_left (merge_segment OVERLAP_SEC MIN_SEGMENT_SEC lib w_start w_end)
               segs st in
  settled st'
  = settled st + Z.of_nat (length (List.filter (inside_window w_start w_end) segs))
  /\ dropped_short (meta st) <= dropped_short (meta st')
  /\ dropped_overlap (meta st) <= dropped_overlap (meta st').
Proof.
  revert st. induction segs as [|s rest IH]; intros st; cbn zeta.
  - cbn. repeat split; lia.
  - cbn [fold_left List.filter].
    destruct (IH (merge_segment OVERLAP_SEC MIN_SEGMENT_SEC lib w_start w_end st s))
      as (H1 & H2 & H3).
    destruct (merge_segment_settles w_start w_end st s) as (G1 & G2 & G3).
    rewrite H1, G1.
    destruct (inside_window w_start w_end s); cbn [length]; repeat split; lia.
Qed.

Lemma merge_loop_settles (manifest : list Entry) (st st' : MergeState) :
  merge_loop OVERLAP_SEC MIN_SEGMENT_SEC lib s3 bucket job manifest st = Ok st' ->
  settled st' = settled st + candidates lib s3 bucket job manifest
  /\ dropped_short (meta st) <= dropped_short (meta st')
  /\ dropped_overlap (meta st) <= dropped_overlap (meta st').
Proof.
  revert st. induction manifest as [|e rest IH]; intros st.
  - cbn. intros [= <-]. repeat split; lia.
  - cbn [merge_loop candidates]. unfold merge_entry.
    destruct (_guess_chunk_key s3 bucket job (index e)) as [[key|]|];
      cbn [bind]; [| |discriminate].
    + destruct (_load_chunk_segments lib s3 bucket key) as [segs|];
        cbn [bind]; [|discriminate].
      intros H. apply IH in H as (H1 & H2 & H3).
      destruct (fold_merge_settles (start_sec e) (end_sec e) segs st) as (G1 & G2 & G3).
      unfold settled in *. cbn [merged meta bump_chunks dropped_short dropped_overlap] in *.
      repeat split; lia.
    + intros H. apply IH in H as (H1 & H2 & H3). repeat split; lia.
Qed.

Lemma repair_fold_length (l : list Seg) (acc : list Seg * Q) :
  (length (fst (fold_left (repair_segment MIN_SEGMENT_SEC) l acc))
   <= length (fst acc) + length l)%nat.
Proof.
  revert acc. induction l as [|seg rest IH]; intros [fixed cur]; cbn [fold_left length].
  - lia.
  - etrans; [apply IH|]. unfold repair_segment.
    destruct (Qlt_bool _ MIN_SEGMENT_SEC); cbn [fst]; rewrite ?length_app; cbn; lia.
Qed.

End Counting.

(** X10: when the merge returns, the first pass has ended in a state
    [st], the counters returned are those of [st] and the segments returned
    are the repair of the segments accepted in [st]; every loaded segment
    that passes the clamp of its window was counted exactly once by the
    first pass, as accepted, as dropped short or as dropped overlap; the two
    counters are never negative; and the repair pass only takes accepted
    segments away, without counting them. *)
Theorem counters_account_for_candidates (OVERLAP_SEC MIN_SEGMENT_SEC : Q) (lib : PyLib)
    (s3 : S3Client) (manifest : list Entry) (bucket job : string)
    (fixed : list Seg) (meta : Meta) :
  _merge_segments OVERLAP_SEC MIN_SEGMENT_SEC lib s3 manifest bucket job
    = Ok (fixed, meta) ->
  exists st : MergeState,
    merge_loop OVERLAP_SEC MIN_SEGMENT_SEC lib s3 bucket job manifest initial_state
      = Ok st
    /\ meta = Stitcher.meta st
    /\ fixed = repair MIN_SEGMENT_SEC (merged st)
    /\ Z.of_nat (length (merged st)) + dropped_short meta + dropped_overlap meta
       = candidates lib s3 bucket job manifest
    /\ (length fixed <= length (merged st))%nat
    /\ 0 <= dropped_short meta
    /\ 0 <= dropped_overlap meta.
Proof.
  unfold _merge_segments.
  destruct (merge_loop _ _ _ _ _ _ _ _) as [st|] eqn:Eloop; cbn [bind]; [|discriminate].
  intros [= <- <-]. exists st.
  apply merge_loop_settles in Eloop as (H1 & H2 & H3).
  unfold settled in H1. cbn in H1, H2, H3.
  split; [reflexivity|]. split; [reflexivity|]. split; [reflexivity|].
  split; [lia|]. split; [|split; lia].
  unfold repair.
  pose proof (repair_fold_length MIN_SEGMENT_SEC (merged st) ([], 0%Q)) as H.
  cbn [fst length] in H. lia.
Qed.

Lemma counters_account_for_candidates_witness :
  exists st : MergeState,
    merge_loop 1 (6 # 100) (Fixture.lib [])
      (Fixture.bucket_client Fixture.hello_objects) "results" "job"
      Fixture.hello_manifest initial_state = Ok st
    /\ Z.of_nat (length (merged st)) + 0 + 1
       = candidates (Fixture.lib []) (Fixture.bucket_client Fixture.hello_objects)
           "results" "job" Fixture.hello_manifest.
Proof.
  destruct (counters_account_for_candidates 1 (6 # 100) (Fixture.lib [])
              (Fixture.bucket_client Fixture.hello_objects)
              Fixture.hello_manifest "results" "job"
              [ {| id := 0; start := py_round3 590; end_ := py_round3 598;
                   text := "good morning" |};
                {| id := 1; start := py_round3 (5985 # 10); end_ := py_round3 (5998 # 10);
                   text := "hello world" |};
                {| id := 2; start := py_round3 601; end_ := py_round3 604;
                   text := "how are you" |} ]
              {| chunks := 2; dropped_short := 0; dropped_overlap := 1 |})
    as (st & Hloop & _ & _ & Hcount & _).
  - vm_compute. reflexivity.
  - exists st. split; [exact Hloop | exact Hcount].
Defined.

(** *** The repair pass on a sequence that needs no repair *)

Section RepairStable.

Variable MIN_SEGMENT_SEC : Q.

Lemma repair_segment_keeps (fixed : list Seg) (cur : Q) (a : Seg) :
  id a = Z.of_nat (length fixed) -> rounded a -> (cur <= start a)%Q ->
  (MIN_SEGMENT_SEC <= end_ a - start a)%Q ->
  repair_segment MIN_SEGMENT_SEC (fixed, cur) a = (fixed ++ [a], end_ a).
Proof.
  intros Hid [Hs He] Hcur Hdur. unfold repair_segment.
  replace (Qlt_bool (start a) cur) with false
    by (symmetry; by apply Qlt_bool_false).
  assert (Hs2 : (if Qlt_bool 0 (start a - cur) then py_max cur (start a) else start a)
                = start a).
  { destruct (Qlt_bool 0 (start a - cur)) eqn:E; [|done].
    apply Qlt_bool_iff in E. unfold py_max.
    replace (Qlt_bool cur (start a)) with true; [done|].
    symmetry. apply Qlt_bool_iff. lra. }
  rewrite Hs2.
  replace (Qlt_bool (end_ a - start a) MIN_SEGMENT_SEC) with false
    by (symmetry; by apply Qlt_bool_false).
  rewrite Hs, He, <- Hid. by destruct a.
Qed.

Lemma repair_fold_stable (l fixed : list Seg) (cur : Q) :
  stable_from MIN_SEGMENT_SEC (length fixed) cur l ->
  fst (fold_left (repair_segment MIN_SEGMENT_SEC) l (fixed, cur)) = fixed ++ l.
Proof.
  revert fixed cur. induction l as [|a rest IH]; intros fixed cur.
  - intros _. cbn. by rewrite app_nil_r.
  - intros (Hid & Hr & Hcur & Hdur & Hrest). cbn [fold_left].
    rewrite (repair_segment_keeps fixed cur a Hid Hr Hcur Hdur).
    rewrite IH; [by rewrite <- app_assoc|].
    rewrite length_app. cbn [length].
    by replace (length fixed + 1)%nat with (S (length fixed)) by lia.
Qed.

Lemma stable_from_lookup (l : list Seg) (n : nat) (cur : Q) :
  Forall rounded l ->
  (forall a, head l = Some a -> (cur <= start a)%Q) ->
  no_overlap l ->
  (forall (i : nat) (a : Seg), l !! i = Some a ->
     (MIN_SEGMENT_SEC <= end_ a - start a)%Q /\ id a = Z.of_nat (n + i)) ->
  stable_from MIN_SEGMENT_SEC n cur l.
Proof.
  revert n cur. induction l as [|a rest IH]; intros n cur Hr Hh Hadj Hall; [done|].
  apply Forall_cons in Hr as [Ha Hr].
  destruct (Hall 0%nat a eq_refl) as [Hd Hid].
  cbn [stable_from]. rewrite Hid, Nat.add_0_r.
  split; [done|]. split; [done|]. split; [by apply Hh|]. split; [done|].
  apply IH.
  - exact Hr.
  - intros b Hb. destruct rest as [|b' rest']; [discriminate|].
    injection Hb as ->. exact (Hadj 0%nat a b eq_refl eq_refl).
  - intros i x y Hx Hy. exact (Hadj (S i) x y Hx Hy).
  - intros i x Hx. destruct (Hall (S i) x Hx) as [Hdx Hix].
    split; [done|]. rewrite Hix. f_equal. lia.
Qed.

Lemma stable_from_snoc (l : list Seg) (n : nat) (cur : Q) (a : Seg) :
  stable_from MIN_SEGMENT_SEC n cur l ->
  id a = Z.of_nat (n + length l) -> rounded a -> (final_end cur l <= start a)%Q ->
  (MIN_SEGMENT_SEC <= end_ a - start a)%Q ->
  stable_from MIN_SEGMENT_SEC n cur (l ++ [a]).
Proof.
  revert n cur. induction l as [|b rest IH]; intros n cur Hl Hid Hr Hcur Hdur.
  - cbn in *. rewrite Nat.add_0_r in Hid. done.
  - destruct Hl as (Hb1 & Hb2 & Hb3 & Hb4 & Hrest). cbn [app stable_from].
    split; [done|]. split; [done|]. split; [done|]. split; [done|].
    apply IH; [done| |done| |done].
    + rewrite Hid. cbn [length]. f_equal. lia.
    + unfold final_end in *. destruct rest as [|c rest'].
      * cbn in Hcur |- *. exact Hcur.
      * rewrite last_cons_cons in Hcur.
        destruct (last (c :: rest')) eqn:El; [exact Hcur|].
        apply last_None in El. discriminate.
Qed.

Lemma repair_fold_makes_stable (l fixed : list Seg) (cur : Q) :
  Forall seg_on_grid l -> on_grid cur ->
  stable_from MIN_SEGMENT_SEC 0 0 fixed -> (final_end 0 fixed == cur)%Q ->
  stable_from MIN_SEGMENT_SEC 0 0
    (fst (fold_left (repair_segment MIN_SEGMENT_SEC) l (fixed, cur))).
Proof.
  revert fixed cur. induction l as [|seg rest IH]; intros fixed cur Hg Hcur Hst Hfin;
    [exact Hst|].
  apply Forall_cons in Hg as [[Hs He] Hg]. cbn [fold_left]. unfold repair_segment.
  set (s1 := if Qlt_bool (start seg) cur then cur else start seg).
  assert (Hs1 : on_grid s1 /\ (cur <= s1)%Q).
  { subst s1. destruct (Qlt_bool (start seg) cur) eqn:E.
    - split; [exact Hcur | lra].
    - apply Qlt_bool_false in E. by split. }
  destruct Hs1 as [Hgrid Hge].
  set (s2 := if Qlt_bool 0 (s1 - cur) then py_max cur s1 else s1).
  assert (Hs2 : s2 = s1).
  { subst s2. destruct (Qlt_bool 0 (s1 - cur)) eqn:E; [|done].
    apply Qlt_bool_iff in E. unfold py_max.
    replace (Qlt_bool cur s1) with true; [done|].
    symmetry. apply Qlt_bool_iff. lra. }
  rewrite Hs2. clearbody s1. clear s2 Hs2.
  destruct (Qlt_bool (end_ seg - s1) MIN_SEGMENT_SEC) eqn:Edur.
  { by apply IH. }
  apply Qlt_bool_false in Edur. unfold on_grid in *.
  apply IH; [exact Hg | exact He | |].
  - apply stable_from_snoc; cbn [id start end_]; [exact Hst|done| | |].
    + split; apply py_round3_idempotent.
    + lra.
    + lra.
  - unfold final_end. rewrite last_snoc. cbn [end_]. exact He.
Qed.

End RepairStable.

(** X11: the repair pass returns unchanged a sequence that needs no
    repair: times as [round(., 3)] returns them, first start not negative,
    every start at or after the end before it, every duration at least
    [MIN_SEGMENT_SEC], ids 0, 1, 2, ... *)
Theorem repair_keeps_valid_sequence (MIN_SEGMENT_SEC : Q) (l : list Seg) :
  Forall rounded l ->
  (forall a, head l = Some a -> (0 <= start a)%Q) ->
  no_overlap l -> long_enough_and_dense MIN_SEGMENT_SEC l ->
  repair MIN_SEGMENT_SEC l = l.
Proof.
  intros Hr Hh Hadj Hall. unfold repair.
  apply (repair_fold_stable MIN_SEGMENT_SEC l [] 0%Q).
  apply stable_from_lookup; done.
Qed.

Lemma repair_keeps_valid_sequence_witness :
  repair (6 # 100)
    [ {| id := 0; start := py_round3 1; end_ := py_round3 2; text := "a" |};
      {| id := 1; start := py_round3 2; end_ := py_round3 (5 # 2); text := "b" |} ]
  = [ {| id := 0; start := py_round3 1; end_ := py_round3 2; text := "a" |};
      {| id := 1; start := py_round3 2; end_ := py_round3 (5 # 2); text := "b" |} ].
Proof.
  apply repair_keeps_valid_sequence.
  - repeat constructor.
  - intros a [= <-]. vm_compute. discriminate.
  - intros [|[|i]] a b Ha Hb; cbn in Ha, Hb; try discriminate.
    injection Ha as <-. injection Hb as <-. vm_compute. discriminate.
  - intros [|[|i]] a Ha; cbn in Ha; try discriminate; injection Ha as <-;
      (split; [vm_compute; discriminate | reflexivity]).
Defined.

(** X12: the repair pass is idempotent on what the first pass emits (times
    that are multiples of 1/1000): repairing its own output changes
    nothing, for any minimum duration. *)
Theorem repair_idempotent (MIN_SEGMENT_SEC : Q) (l : list Seg) :
  Forall seg_on_grid l ->
  repair MIN_SEGMENT_SEC (repair MIN_SEGMENT_SEC l) = repair MIN_SEGMENT_SEC l.
Proof.
  intros Hg. unfold repair at 1.
  apply (repair_fold_stable MIN_SEGMENT_SEC (repair MIN_SEGMENT_SEC l) [] 0%Q).
  unfold repair. apply repair_fold_makes_stable; [exact Hg|apply zero_on_grid|done|].
  reflexivity.
Qed.

Lemma repair_idempotent_witness :
  repair (6 # 100)
    (repair (6 # 100)
       [ {| id := 0; start := 1; end_ := 2; text := "a" |};
         {| id := 1; start := 3 # 2; end_ := 5 # 2; text := "b" |};
         {| id := 2; start := 5 # 2; end_ := 251 # 100; text := "c" |} ])
  = repair (6 # 100)
      [ {| id := 0; start := 1; end_ := 2; text := "a" |};
        {| id := 1; start := 3 # 2; end_ := 5 # 2; text := "b" |};
        {| id := 2; start := 5 # 2; end_ := 251 # 100; text := "c" |} ].
Proof.
  apply repair_idempotent.
  repeat constructor; vm_compute; reflexivity.
Defined.

(** *** The transcript as a whole *)

Lemma stable_from_bounds (MIN_SEGMENT_SEC : Q) (l : list Seg) (n : nat) (cur : Q) :
  (0 <= MIN_SEGMENT_SEC)%Q -> stable_from MIN_SEGMENT_SEC n cur l ->
  (cur <= final_end cur l)%Q
  /\ forall a, a ∈ l -> (cur <= start a)%Q /\ (end_ a <= final_end cur l)%Q.
Proof.
  intros Hmin. revert n cur. induction l as [|b rest IH]; intros n cur Hst.
  - split; [unfold final_end; cbn; lra|]. intros a Ha. by apply not_elem_of_nil in Ha.
  - destruct Hst as (_ & _ & Hcur & Hdur & Hrest).
    destruct (IH _ _ Hrest) as [Hfin Hall].
    assert (Efin : final_end cur (b :: rest) = final_end (end_ b) rest).
    { unfold final_end. destruct rest as [|c rest']; [reflexivity|].
      rewrite last_cons_cons. destruct (last (c :: rest')) eqn:El; [reflexivity|].
      apply last_None in El. discriminate. }
    rewrite Efin. split; [lra|].
    intros a Ha. apply elem_of_cons in Ha as [-> | Ha].
    + split; [exact Hcur | lra].
    + destruct (Hall a Ha) as [H1 H2]. split; [lra | exact H2].
Qed.

Lemma duration_of_segs (job : string) (lang : option string) (l : list Seg) :
  Ieee.duration_sec (Ieee._to_transcript_json job lang (map of_seg l))
  = Ieee.Fin (final_end 0 l).
Proof.
  unfold Ieee._to_transcript_json, final_end. cbn [Ieee.duration_sec].
  change (map of_seg l) with (of_seg <$> l). rewrite fmap_last.
  by destruct (last l).
Qed.

(** X13: when the tunables and the windows of the manifest are finite,
    no loaded segment of a found chunk has NaN as its start or its end and
    [MIN_SEGMENT_SEC] is not negative, the [duration_sec] of the transcript
    built from the merged segments is not negative, no segment ends after
    it, and no segment starts before 0. *)
Theorem duration_is_latest_end (OVERLAP_SEC MIN_SEGMENT_SEC : Q) (lib : PyLib)
    (s3 : S3Client) (float_of_str : string -> result Ieee.float)
    (_read_s3_json : string -> string -> result Ieee.json)
    (manifest : list Ieee.Entry) (bucket job : string)
    (lang : option string) (fixed : list Ieee.Seg) (meta : Meta) :
  Forall finite_entry manifest ->
  numeric_results s3 float_of_str _read_s3_json bucket job manifest ->
  (0 <= MIN_SEGMENT_SEC)%Q ->
  Ieee._merge_segments (Ieee.Fin OVERLAP_SEC) (Ieee.Fin MIN_SEGMENT_SEC) lib s3
    float_of_str _read_s3_json manifest bucket job = Ok (fixed, meta) ->
  at_most (Ieee.Fin 0) (Ieee.duration_sec (Ieee._to_transcript_json job lang fixed))
  /\ forall seg, seg ∈ fixed ->
       at_most (Ieee.Fin 0) (Ieee.start seg)
       /\ at_most (Ieee.end_ seg)
            (Ieee.duration_sec (Ieee._to_transcript_json job lang fixed)).
Proof.
  intros Hfin Hres Hmin. unfold Ieee._merge_segments.
  destruct (Ieee.merge_loop _ _ _ _ _ _ _ _ _ _) as [st|] eqn:Eloop;
    cbn [bind]; [|discriminate].
  intros [= <- <-].
  apply (merge_loop_finite OVERLAP_SEC MIN_SEGMENT_SEC lib s3 float_of_str
           _read_s3_json bucket job (fun st => Forall seg_on_grid (merged st))
           manifest initial_state st Hfin Hres) in Eloop as (stq & -> & Hgrid).
  - cbn [of_state Ieee.merged]. rewrite repair_agrees, duration_of_segs.
    assert (Hst : stable_from MIN_SEGMENT_SEC 0 0 (repair MIN_SEGMENT_SEC (merged stq))).
    { unfold repair. apply repair_fold_makes_stable;
        [exact Hgrid | apply zero_on_grid | done | reflexivity]. }
    destruct (stable_from_bounds MIN_SEGMENT_SEC _ 0 0 Hmin Hst) as [H0 Hall].
    split; [by apply at_most_fin|].
    intros seg Hseg. apply of_seg_elem in Hseg as (a & Ha & ->).
    destruct (Hall a Ha) as [H1 H2]. split; by apply at_most_fin.
  - intros e key segs st0 _ _ H. cbn [merged]. by apply fold_merge_grid.
  - constructor.
Qed.


Lemma duration_is_latest_end_witness :
  at_most (Ieee.Fin 0)
    (Ieee.duration_sec
       (Ieee._to_transcript_json "job" None
          [ {| Ieee.id := 0; Ieee.start := Ieee.Fin (py_round3 590);
               Ieee.end_ := Ieee.Fin (py_round3 598); Ieee.text := "good morning" |};
            {| Ieee.id := 1; Ieee.start := Ieee.Fin (py_round3 (5985 # 10));
               Ieee.end_ := Ieee.Fin (py_round3 (5998 # 10)); Ieee.text := "hello world" |};
            {| Ieee.id := 2; Ieee.start := Ieee.Fin (py_round3 601);
               Ieee.end_ := Ieee.Fin (py_round3 604); Ieee.text := "how are you" |} ])).
Proof.
  refine (proj1 (duration_is_latest_end 1 (6 # 100) (Fixture.lib [])
                   (Fixture.bucket_client Fixture.hello_objects) Fixture.no_float_of_str
                   (Fixture.reader Fixture.hello_documents)
                   Fixture.hello_windows "results" "job" None _
                   {| chunks := 2; dropped_short := 0; dropped_overlap := 1 |} _ _ _ _)).
  - repeat constructor.
  - intros e key segs He Hg Hl.
    repeat (apply elem_of_cons in He as [-> | He]);
      [| |by apply not_elem_of_nil in He];
      vm_compute in Hg; injection Hg as <-; vm_compute in Hl; injection Hl as <-;
      repeat constructor.
  - vm_compute. discriminate.
  - vm_compute. reflexivity.
Defined.

Section InWindow.

Variables (OVERLAP_SEC MIN_SEGMENT_SEC : Q) (lib : PyLib) (s3 : S3Client).
Variables (bucket job : string).
Variable X : Q -> Q -> string -> Prop.

Lemma merge_segment_in_window (w_start w_end : Q) (st : MergeState) (s : ChunkSeg) :
  Forall (placed X) (merged st) ->
  (forall t, X w_start w_end t) ->
  Forall (placed X)
    (merged (merge_segment OVERLAP_SEC MIN_SEGMENT_SEC lib w_start w_end st s)).
Proof.
  intros Hst Hs. unfold merge_segment.
  destruct (outside_window _ _ _ _); [exact Hst|].
  destruct (scan_back _ _ _ _ _); [exact Hst|].
  destruct (Qle_bool _ _); [exact Hst|].
  destruct (Qlt_bool (_ - _) MIN_SEGMENT_SEC); [exact Hst|].
  cbn [merged]. apply Forall_app. split; [exact Hst|].
  constructor; [|constructor].
  exists w_start, w_end, (c_text s).
  split; [apply Hs|]. unfold spans. cbn [start end_ text].
  split; [|split; [|reflexivity]].
  - apply py_round3_mono.
    pose proof (py_max_above (c_start s + w_start) w_start) as Hmax.
    destruct (Qlt_bool _ (last_end st)) eqn:E; [|exact Hmax].
    apply Qlt_bool_iff in E.
    eapply Qle_trans; [exact Hmax | by apply Qlt_le_weak].
  - apply py_round3_mono, py_min_below.
Qed.

Lemma fold_merge_in_window (w_start w_end : Q) (segs : list ChunkSeg) (st : MergeState) :
  Forall (placed X) (merged st) ->
  (forall t, X w_start w_end t) ->
  Forall (placed X)
    (merged (fold_left (merge_segment OVERLAP_SEC MIN_SEGMENT_SEC lib w_start w_end)
               segs st)).
Proof.
  revert st. induction segs as [|s rest IH]; intros st Hst Hs; [exact Hst|].
  cbn [fold_left]. apply IH; [by apply merge_segment_in_window | exact Hs].
Qed.

Lemma merge_loop_in_window (manifest : list Entry) (st st' : MergeState) :
  (forall e t, e ∈ manifest -> chunk_found s3 bucket job e = true ->
               X (start_sec e) (end_sec e) t) ->
  Forall (placed X) (merged st) ->
  merge_loop OVERLAP_SEC MIN_SEGMENT_SEC lib s3 bucket job manifest st = Ok st' ->
  Forall (placed X) (merged st').
Proof.
  revert st. induction manifest as [|e rest IH]; intros st HX Hst.
  - cbn. by intros [= <-].
  - cbn [merge_loop]. unfold merge_entry.
    destruct (_guess_chunk_key s3 bucket job (index e)) as [[key|]|] eqn:Eg;
      cbn [bind]; [| |discriminate].
    + destruct (_load_chunk_segments lib s3 bucket key) as [segs|] eqn:El;
        cbn [bind]; [|discriminate].
      apply IH.
      * intros e' t ?. apply HX. by right.
      * cbn [merged]. apply fold_merge_in_window; [exact Hst|].
        intros t. apply HX; [by left|]. unfold chunk_found. by rewrite Eg.
    + apply IH; [|exact Hst]. intros e' t ?. apply HX. by right.
Qed.

End InWindow.

(** X14: when the tunables and the windows of the manifest are finite
    and no loaded segment of a found chunk has NaN as its start or its end,
    every output segment lies within the window of a manifest entry whose
    chunk was found: it starts at or after the window's start and ends at
    or before the window's end, both rounded to three digits. *)
Theorem segments_stay_in_their_window (OVERLAP_SEC MIN_SEGMENT_SEC : Q) (lib : PyLib)
    (s3 : S3Client) (float_of_str : string -> result Ieee.float)
    (_read_s3_json : string -> string -> result Ieee.json)
    (manifest : list Ieee.Entry) (bucket job : string)
    (fixed : list Ieee.Seg) (meta : Meta) :
  Forall finite_entry manifest ->
  numeric_results s3 float_of_str _read_s3_json bucket job manifest ->
  Ieee._merge_segments (Ieee.Fin OVERLAP_SEC) (Ieee.Fin MIN_SEGMENT_SEC) lib s3
    float_of_str _read_s3_json manifest bucket job = Ok (fixed, meta) ->
  forall seg, seg ∈ fixed ->
    exists (e : Ieee.Entry) (key : string),
      e ∈ manifest
      /\ _guess_chunk_key s3 bucket job (Ieee.index e) = Ok (Some key)
      /\ at_most (Ieee.py_round3 (Ieee.start_sec e)) (Ieee.start seg)
      /\ at_most (Ieee.end_ seg) (Ieee.py_round3 (Ieee.end_sec e)).
Proof.
  intros Hfin Hres. unfold Ieee._merge_segments.
  destruct (Ieee.merge_loop _ _ _ _ _ _ _ _ _ _) as [st|] eqn:Eloop;
    cbn [bind]; [|discriminate].
  intros [= <- <-].
  set (X := fun (lo hi : Q) (_ : string) =>
              exists (e : Ieee.Entry) (key : string),
                e ∈ manifest
                /\ _guess_chunk_key s3 bucket job (Ieee.index e) = Ok (Some key)
                /\ lo = val (Ieee.start_sec e) /\ hi = val (Ieee.end_sec e)).
  assert (Hstep : forall (e : Ieee.Entry) (key : string) (segs : list ChunkSeg)
                    (st0 : MergeState),
             e ∈ manifest ->
             _guess_chunk_key s3 bucket job (Ieee.index e) = Ok (Some key) ->
             Forall seg_on_grid (merged st0) /\ Forall (placed X) (merged st0) ->
             let st1 :=
               fold_left
                 (merge_segment OVERLAP_SEC MIN_SEGMENT_SEC lib
                    (val (Ieee.start_sec e)) (val (Ieee.end_sec e))) segs st0 in
             Forall seg_on_grid (merged st1) /\ Forall (placed X) (merged st1)).
  { intros e key segs st0 He Hg [H1 H2]. split.
    - by apply fold_merge_grid.
    - apply fold_merge_in_window; [exact H2|]. intros t. by exists e, key. }
  destruct (merge_loop_finite OVERLAP_SEC MIN_SEGMENT_SEC lib s3 float_of_str
              _read_s3_json bucket job
              (fun st => Forall seg_on_grid (merged st) /\ Forall (placed X) (merged st))
              manifest initial_state st Hfin Hres Hstep
              ltac:(split; constructor) Eloop)
    as (stq & Est & Hgrid & Hpl).
  rewrite Est. cbn [of_state Ieee.merged Ieee.meta]. rewrite repair_agrees.
  assert (H : Forall (placed X) (repair MIN_SEGMENT_SEC (merged stq))).
  { unfold repair. apply repair_fold_placed; [constructor | exact Hgrid | exact Hpl]. }
  intros seg Hseg. apply of_seg_elem in Hseg as (a & Ha & ->).
  rewrite Forall_forall in H.
  destruct (H a Ha) as (lo & hi & t & (e & key & He & Hg & -> & ->) & Hlo & Hhi & _).
  exists e, key. split; [exact He|]. split; [exact Hg|].
  rewrite Forall_forall in Hfin. destruct (Hfin e He) as [Hs Hend].
  rewrite <- (finite_val _ Hs), <- (finite_val _ Hend).
  cbn [of_seg Ieee.start Ieee.end_ Ieee.py_round3 val].
  split; by apply at_most_fin.
Qed.

Lemma segments_stay_in_their_window_witness :
  exists (e : Ieee.Entry) (key : string),
    e ∈ Fixture.hello_windows
    /\ _guess_chunk_key (Fixture.bucket_client Fixture.hello_objects) "results" "job"
         (Ieee.index e) = Ok (Some key)
    /\ at_most (Ieee.py_round3 (Ieee.start_sec e)) (Ieee.Fin (py_round3 601))
    /\ at_most (Ieee.Fin (py_round3 604)) (Ieee.py_round3 (Ieee.end_sec e)).
Proof.
  refine (segments_stay_in_their_window 1 (6 # 100) (Fixture.lib [])
            (Fixture.bucket_client Fixture.hello_objects) Fixture.no_float_of_str
            (Fixture.reader Fixture.hello_documents)
            Fixture.hello_windows "results" "job"
            [ {| Ieee.id := 0; Ieee.start := Ieee.Fin (py_round3 590);
                 Ieee.end_ := Ieee.Fin (py_round3 598); Ieee.text := "good morning" |};
              {| Ieee.id := 1; Ieee.start := Ieee.Fin (py_round3 (5985 # 10));
                 Ieee.end_ := Ieee.Fin (py_round3 (5998 # 10));
                 Ieee.text := "hello world" |};
              {| Ieee.id := 2; Ieee.start := Ieee.Fin (py_round3 601);
                 Ieee.end_ := Ieee.Fin (py_round3 604); Ieee.text := "how are you" |} ]
            {| chunks := 2; dropped_short := 0; dropped_overlap := 1 |} _ _ _
            {| Ieee.id := 2; Ieee.start := Ieee.Fin (py_round3 601);
               Ieee.end_ := Ieee.Fin (py_round3 604); Ieee.text := "how are you" |} _).
  - repeat constructor.
  - intros e key segs He Hg Hl.
    repeat (apply elem_of_cons in He as [-> | He]);
      [| |by apply not_elem_of_nil in He];
      vm_compute in Hg; injection Hg as <-; vm_compute in Hl; injection Hl as <-;
      repeat constructor.
  - vm_compute. reflexivity.
  - right. right. left.
Defined.

(** *** Finite documents *)

Lemma dict_get_of (obj : json) (key : string) (dflt : json) :
  Ieee.dict_get (of_json obj) key (of_json dflt)
  = of_result of_json (dict_get obj key dflt).
Proof.
  destruct obj; try reflexivity. cbn. rewrite lookup_fmap. by destruct (m !! key).
Qed.

Lemma truthy_of (v : json) : Ieee.truthy (of_json v) = truthy v.
Proof.
  destruct v; try reflexivity.
  - by destruct l.
  - cbn. f_equal. apply bool_decide_ext. split.
    + intros H. by apply fmap_empty_inv in H.
    + intros ->. apply fmap_empty.
Qed.

Lemma py_strip_of (v : json) : Ieee.py_strip (of_json v) = py_strip v.
Proof. by destruct v. Qed.

Section Documents.

Variables (lib : PyLib) (float_str : string -> result Ieee.float).
Hypothesis float_str_agrees :
  forall s, float_str s = of_result Ieee.Fin (float_of_str lib s).

Lemma py_float_of (v : json) :
  Ieee.py_float float_str (of_json v) = of_result Ieee.Fin (py_float lib v).
Proof.
  destruct v as [|b|z|q|s|l|m]; try reflexivity.
  - cbn. by destruct (float_overflows z).
  - cbn. apply float_str_agrees.
Qed.

Lemma load_loop_of (items : list json) (norm : list ChunkSeg) :
  Ieee.load_loop float_str (map of_json items) (map of_chunk_seg norm)
  = of_result (map of_chunk_seg) (load_loop lib items norm).
Proof.
  revert norm. induction items as [|s rest IH]; intros norm; [reflexivity|].
  cbn [map Ieee.load_loop load_loop].
  change (Ieee.JFloat (Ieee.Fin 0)) with (of_json (JFloat 0)).
  rewrite !dict_get_of.
  destruct (dict_get s "start" (JFloat 0)) as [v1|]; cbn [of_result bind]; [|reflexivity].
  rewrite py_float_of.
  destruct (py_float lib v1) as [a|]; cbn [of_result bind]; [|reflexivity].
  destruct (dict_get s "end" (JFloat 0)) as [v2|]; cbn [of_result bind]; [|reflexivity].
  rewrite py_float_of.
  destruct (py_float lib v2) as [b|]; cbn [of_result bind]; [|reflexivity].
  change Ieee.JNull with (of_json JNull). rewrite dict_get_of.
  destruct (dict_get s "text" JNull) as [v3|]; cbn [of_result bind]; [|reflexivity].
  rewrite truthy_of.
  replace (if truthy v3 then of_json v3 else Ieee.JStr EmptyString)
    with (of_json (if truthy v3 then v3 else JStr EmptyString)) by (by destruct (truthy v3)).
  rewrite py_strip_of.
  destruct (py_strip _) as [t|]; cbn [of_result bind]; [|reflexivity].
  destruct (is_empty t); [apply IH|].
  cbn [Ieee.sub Ieee.le Ieee.EPS].
  destruct (Qle_bool (b - a) EPS); [apply IH|].
  rewrite <- IH. by rewrite map_app.
Qed.


Lemma load_loop_strings (items : list json) (norm : list ChunkSeg) :
  Forall (fun x => exists s, x = JStr s) items ->
  load_loop lib items norm
  = match items with [] => Ok norm | _ => Raise AttributeError end.
Proof. intros H. destruct H as [|x rest [s ->] _]; reflexivity. Qed.

Lemma float_load_loop_strings (items : list Ieee.json) (norm : list Ieee.ChunkSeg) :
  Forall (fun x => exists s, x = Ieee.JStr s) items ->
  Ieee.load_loop float_str items norm
  = match items with [] => Ok norm | _ => Raise AttributeError end.
Proof. intros H. destruct H as [|x rest [s ->] _]; reflexivity. Qed.

Lemma key_strings {A} (m : gmap string A) :
  Forall (fun x => exists s, x = JStr s) (map (fun kv => JStr (fst kv)) (map_to_list m)).
Proof. apply Forall_forall. intros x Hx. apply list_elem_of_fmap in Hx as (kv & -> & _). eauto. Qed.

Lemma float_key_strings {A} (m : gmap string A) :
  Forall (fun x => exists s, x = Ieee.JStr s)
    (map (fun kv => Ieee.JStr (fst kv)) (map_to_list m)).
Proof. apply Forall_forall. intros x Hx. apply list_elem_of_fmap in Hx as (kv & -> & _). eauto. Qed.

Lemma iterate_and_load_of (v : json) :
  (items <- Ieee.py_iter (of_json v);; Ieee.load_loop float_str items [])
  = of_result (map of_chunk_seg) (items <- py_iter v;; load_loop lib items []).
Proof.
  destruct v as [|b|z|q|s|l|m]; try reflexivity.
  - cbn [of_json Ieee.py_iter py_iter bind].
    rewrite <- (load_loop_of _ []). f_equal. by rewrite map_map.
  - cbn [of_json Ieee.py_iter py_iter bind]. apply (load_loop_of l []).
  - cbn [of_json Ieee.py_iter py_iter bind].
    rewrite (float_load_loop_strings _ _ (float_key_strings _)).
    rewrite (load_loop_strings _ _ (key_strings _)).
    destruct (decide (m = ∅)) as [-> | Hne].
    + by rewrite fmap_empty, !map_to_list_empty.
    + assert (Hne' : of_json <$> m ≠ ∅) by (intros H; by apply fmap_empty_inv in H).
      destruct (map_to_list m) as [|kv l] eqn:E1;
        [by apply map_to_list_empty_iff in E1|].
      destruct (map_to_list (of_json <$> m)) as [|kv' l'] eqn:E2;
        [by apply map_to_list_empty_iff in E2|].
      reflexivity.
Qed.

Variable s3 : S3Client.
Variable _read_s3_json : string -> string -> result Ieee.json.
Hypothesis read_agrees :
  forall bucket key,
    _read_s3_json bucket key = of_result of_json (get_object_json s3 bucket key).

Lemma load_chunk_segments_of (bucket key : string) :
  Ieee._load_chunk_segments float_str _read_s3_json bucket key
  = of_result (map of_chunk_seg) (_load_chunk_segments lib s3 bucket key).
Proof.
  unfold Ieee._load_chunk_segments, _load_chunk_segments. rewrite read_agrees.
  destruct (get_object_json s3 bucket key) as [data|]; cbn [of_result bind]; [|reflexivity].
  change (Ieee.JArr []) with (of_json (JArr [])). rewrite dict_get_of.
  destruct (dict_get data "segments" (JArr [])) as [v|]; cbn [of_result bind];
    [|reflexivity].
  apply iterate_and_load_of.
Qed.

Variables (OVERLAP_SEC MIN_SEGMENT_SEC : Q) (bucket job : string).

Lemma merge_loop_of (manifest : list Entry) (st : MergeState) :
  Ieee.merge_loop (Ieee.Fin OVERLAP_SEC) (Ieee.Fin MIN_SEGMENT_SEC) lib s3
    float_str _read_s3_json bucket job (map of_entry manifest) (of_state st)
  = of_result of_state
      (merge_loop OVERLAP_SEC MIN_SEGMENT_SEC lib s3 bucket job manifest st).
Proof.
  revert st. induction manifest as [|e rest IH]; intros st; [reflexivity|].
  cbn [map Ieee.merge_loop merge_loop]. unfold Ieee.merge_entry, merge_entry.
  cbn [of_entry Ieee.index Ieee.start_sec Ieee.end_sec].
  destruct (_guess_chunk_key s3 bucket job (index e)) as [[key|]|]; cbn [bind];
    [| apply IH | reflexivity].
  rewrite load_chunk_segments_of.
  destruct (_load_chunk_segments lib s3 bucket key) as [segs|]; cbn [of_result bind];
    [|reflexivity].
  rewrite fold_merge_agrees. apply (IH {| merged := _ |}).
Qed.

End Documents.



(** ** Properties of the prepare handler *)

(** *** Windows *)

Lemma inject_Z_pos (c : Z) : 0 < c -> (0 < inject_Z c)%Q.
Proof. intros H. change 0%Q with (inject_Z 0). rewrite <- Zlt_Qlt. lia. Qed.

Lemma below_ceiling (d : Q) (c i : Z) :
  0 < c -> i < Qceiling (d / inject_Z c) -> (inject_Z (i * c) < d)%Q.
Proof.
  intros Hc Hi. pose proof (inject_Z_pos c Hc) as Hcq.
  pose proof (Qceiling_lt (d / inject_Z c)) as H.
  assert (Hi' : (inject_Z i <= inject_Z (Qceiling (d / inject_Z c) - 1))%Q)
    by (rewrite <- Zle_Qle; lia).
  assert (H2 : (inject_Z i < d / inject_Z c)%Q) by lra.
  rewrite inject_Z_mult.
  apply (Qmult_lt_r _ _ (inject_Z c)) in H2; [|exact Hcq].
  assert (E : (d / inject_Z c * inject_Z c == d)%Q) by (field; lra).
  by rewrite E in H2.
Qed.

Lemma ceiling_covers (d : Q) (c : Z) :
  0 < c -> (d <= inject_Z (Qceiling (d / inject_Z c) * c))%Q.
Proof.
  intros Hc. pose proof (inject_Z_pos c Hc) as Hcq.
  pose proof (Qle_ceiling (d / inject_Z c)) as H.
  rewrite inject_Z_mult.
  apply (Qmult_le_r _ _ (inject_Z c)) in H; [|exact Hcq].
  assert (E : (d / inject_Z c * inject_Z c == d)%Q) by (field; lra).
  by rewrite E in H.
Qed.

Lemma ceiling_positive (d : Q) (c : Z) :
  (0 < d)%Q -> 0 < c -> 0 < Qceiling (d / inject_Z c).
Proof.
  intros Hd Hc. pose proof (ceiling_covers d c Hc) as H.
  assert (H0 : (0 < inject_Z (Qceiling (d / inject_Z c) * c))%Q) by lra.
  change 0%Q with (inject_Z 0) in H0. rewrite <- Zlt_Qlt in H0. nia.
Qed.

Lemma range_lookup (n : Z) (k : nat) :
  (k < Z.to_nat n)%nat -> Prepare.range n !! k = Some (Z.of_nat k).
Proof.
  intros Hk. unfold Prepare.range. rewrite list_lookup_fmap.
  by rewrite lookup_seq_lt.
Qed.

Lemma range_length (n : Z) : length (Prepare.range n) = Z.to_nat n.
Proof. unfold Prepare.range. by rewrite length_map, length_seq. Qed.

Lemma range_elem (n i : Z) : i ∈ Prepare.range n -> 0 <= i < n.
Proof.
  unfold Prepare.range. intros H. apply list_elem_of_fmap in H as (k & -> & Hk).
  apply elem_of_seq in Hk. lia.
Qed.

Lemma omap_all_some {A B} (f : A -> option B) (g : A -> B) (l : list A) :
  (forall x, x ∈ l -> f x = Some (g x)) -> omap f l = map g l.
Proof.
  induction l as [|x l IH]; intros H; [done|].
  cbn. rewrite (H x) by left. f_equal. apply IH. intros y Hy. apply H. by right.
Qed.

Lemma py_round3_Z (z : Z) : (py_round3 (inject_Z z) == inject_Z z)%Q.
Proof.
  unfold py_round3.
  rewrite (py_round_integer (inject_Z z * 1000) (z * 1000)).
  - unfold Qeq, inject_Z. cbn [Qnum Qden]. lia.
  - rewrite inject_Z_mult. reflexivity.
Qed.

Lemma value_max (a b : Prepare.number) :
  Prepare.value (Prepare.max_number a b) = py_max (Prepare.value a) (Prepare.value b).
Proof. unfold Prepare.max_number, py_max. by destruct (Qlt_bool _ _). Qed.

Lemma value_min (a b : Prepare.number) :
  Prepare.value (Prepare.min_number a b) = py_min (Prepare.value a) (Prepare.value b).
Proof. unfold Prepare.min_number, py_min. by destruct (Qlt_bool _ _). Qed.

Lemma value_round3 (x : Prepare.number) :
  (Prepare.value (Prepare.round3_number x) == py_round3 (Prepare.value x))%Q.
Proof. destruct x; cbn; [symmetry; apply py_round3_Z | reflexivity]. Qed.

Lemma window_at_start (duration : Q) (chunk_sec overlap_sec i : Z) :
  (Prepare.w_start (window_at duration chunk_sec overlap_sec i)
   == py_round3
        (py_max 0 (inject_Z (i * chunk_sec - (if 0 <? i then overlap_sec else 0)))))%Q.
Proof.
  unfold window_at, Prepare.w_start, Prepare.start_number. cbn [fst snd].
  by rewrite value_round3, value_max.
Qed.

Lemma window_at_end (duration : Q) (chunk_sec overlap_sec i : Z) :
  (Prepare.w_end (window_at duration chunk_sec overlap_sec i)
   == py_round3 (py_min duration (inject_Z ((i + 1) * chunk_sec))))%Q.
Proof.
  unfold window_at, Prepare.w_end, Prepare.end_number. cbn [fst snd].
  by rewrite value_round3, value_min.
Qed.

Section Windows.

Variables (duration : Q) (chunk_sec overlap_sec : Z).
Hypothesis duration_pos : (0 < duration)%Q.
Hypothesis chunk_pos : 0 < chunk_sec.
Hypothesis overlap_nonneg : 0 <= overlap_sec.

Local Abbreviation n := (Qceiling (duration / inject_Z chunk_sec)).

Lemma window_start_below (i : Z) :
  0 <= i ->
  (py_max 0 (inject_Z (i * chunk_sec - (if 0 <? i then overlap_sec else 0)))
   <= inject_Z (i * chunk_sec))%Q.
Proof.
  intros Hi. unfold py_max.
  destruct (Qlt_bool 0 _) eqn:E.
  - rewrite <- Zle_Qle. destruct (0 <? i); lia.
  - change 0%Q with (inject_Z 0). rewrite <- Zle_Qle. nia.
Qed.

Lemma window_end_above (i : Z) :
  i < n ->
  (inject_Z (i * chunk_sec) < py_min duration (inject_Z ((i + 1) * chunk_sec)))%Q.
Proof.
  intros Hi. unfold py_min. destruct (Qlt_bool _ duration).
  - rewrite <- Zlt_Qlt. nia.
  - by apply below_ceiling.
Qed.

Lemma chunk_window_kept (i : Z) :
  0 <= i < n ->
  Prepare.chunk_window duration chunk_sec overlap_sec i
  = Some (window_at duration chunk_sec overlap_sec i).
Proof.
  intros [Hi0 Hin]. unfold Prepare.chunk_window, window_at.
  rewrite value_max, value_min. cbn [Prepare.value].
  pose proof (window_start_below i Hi0) as H1.
  pose proof (window_end_above i Hin) as H2.
  replace (Qle_bool _ _) with false; [reflexivity|].
  symmetry. apply Qle_bool_false. lra.
Qed.

Lemma compute_chunks_windows :
  Prepare.compute_chunks duration chunk_sec overlap_sec
  = Some (map (window_at duration chunk_sec overlap_sec) (Prepare.range n)).
Proof.
  unfold Prepare.compute_chunks.
  replace (Qle_bool duration 0) with false
    by (symmetry; by apply Qle_bool_false).
  replace (chunk_sec =? 0) with false by (symmetry; apply Z.eqb_neq; lia).
  f_equal. apply omap_all_some. intros i Hi.
  apply chunk_window_kept, range_elem, Hi.
Qed.

End Windows.



Lemma map_range_lookup {A} (f : Z -> A) (n : Z) (k : nat) (w : A) :
  map f (Prepare.range n) !! k = Some w ->
  (k < Z.to_nat n)%nat /\ w = f (Z.of_nat k).
Proof.
  intros H.
  assert (Hk : (k < Z.to_nat n)%nat).
  { apply lookup_lt_Some in H. by rewrite length_map, range_length in H. }
  split; [exact Hk|].
  change (map f (Prepare.range n)) with (f <$> Prepare.range n) in H.
  rewrite list_lookup_fmap, (range_lookup n k Hk) in H. by injection H.
Qed.

(** X16: for a positive duration, a positive chunk length and an overlap
    that is not negative, the windows cover the audio without a gap: the
    first starts at 0, the last ends at the duration (rounded to three
    digits), every window but the last ends on its chunk boundary, the next
    window starts at or before that end, and no window ends before it
    starts. *)
Theorem compute_chunks_cover (duration : Q) (chunk_sec overlap_sec : Z)
    (ws : list Prepare.Window) :
  (0 < duration)%Q -> 0 < chunk_sec -> 0 <= overlap_sec ->
  Prepare.compute_chunks duration chunk_sec overlap_sec = Some ws ->
  (forall w, head ws = Some w -> (Prepare.w_start w == 0)%Q)
  /\ (forall w, last ws = Some w -> Prepare.w_end w = py_round3 duration)
  /\ (forall (k : nat) (a b : Prepare.Window),
        ws !! k = Some a -> ws !! S k = Some b ->
        (Prepare.w_end a == inject_Z ((Z.of_nat k + 1) * chunk_sec))%Q
        /\ (Prepare.w_start b <= Prepare.w_end a)%Q)
  /\ (forall w, w ∈ ws -> (Prepare.w_start w <= Prepare.w_end w)%Q).
Proof.
  intros Hd Hc Ho. rewrite (compute_chunks_windows _ _ _ Hd Hc Ho). intros [= <-].
  pose proof (ceiling_positive duration chunk_sec Hd Hc) as Hn.
  set (n := Qceiling (duration / inject_Z chunk_sec)) in *.
  split; [|split; [|split]].
  - intros w Hw. rewrite head_lookup in Hw.
    apply map_range_lookup in Hw as [_ ->]. reflexivity.
  - intros w Hw. rewrite last_lookup, length_map, range_length in Hw.
    apply map_range_lookup in Hw as [Hk ->].
    unfold window_at, Prepare.w_end, Prepare.end_number, Prepare.min_number.
    cbn [snd Prepare.value].
    replace (Qlt_bool _ duration) with false; [reflexivity|].
    symmetry. apply Qlt_bool_false.
    replace ((Z.of_nat (Init.Nat.pred (Z.to_nat n)) + 1) * chunk_sec)
      with (n * chunk_sec) by (f_equal; lia).
    by apply ceiling_covers.
  - intros k a b Ha Hb.
    apply map_range_lookup in Ha as [Hka ->].
    apply map_range_lookup in Hb as [Hkb ->].
    rewrite window_at_start, window_at_end.
    assert (Hlt : (inject_Z ((Z.of_nat k + 1) * chunk_sec) < duration)%Q)
      by (apply below_ceiling; [done | fold n; lia]).
    assert (Hmin : py_min duration (inject_Z ((Z.of_nat k + 1) * chunk_sec))
                   = inject_Z ((Z.of_nat k + 1) * chunk_sec)).
    { unfold py_min. replace (Qlt_bool _ duration) with true; [reflexivity|].
      symmetry. by apply Qlt_bool_iff. }
    rewrite Hmin. split; [apply py_round3_Z|].
    apply py_round3_mono.
    replace (Z.of_nat k + 1) with (Z.of_nat (S k)) by lia.
    apply window_start_below; lia.
  - intros w Hw. apply list_elem_of_In, in_map_iff in Hw as (i & <- & Hi).
    apply list_elem_of_In, range_elem in Hi.
    rewrite window_at_start, window_at_end.
    apply py_round3_mono.
    pose proof (window_start_below chunk_sec overlap_sec Hc Ho i) as H1.
    pose proof (window_end_above duration chunk_sec Hc i) as H2.
    fold n in H2. specialize (H1 ltac:(lia)). specialize (H2 ltac:(lia)). lra.
Qed.

Lemma compute_chunks_cover_witness :
  Prepare.w_end (3, Prepare.NInt 1799, Prepare.NFloat (py_round3 (18005 # 10)))
  = py_round3 (18005 # 10).
Proof.
  refine (proj1 (proj2 (compute_chunks_cover (18005 # 10) 600 1
                          [ (0, Prepare.NFloat (py_round3 0), Prepare.NInt 600);
                            (1, Prepare.NInt 599, Prepare.NInt 1200);
                            (2, Prepare.NInt 1199, Prepare.NInt 1800);
                            (3, Prepare.NInt 1799,
                             Prepare.NFloat (py_round3 (18005 # 10))) ]
                          _ _ _ _)) _ _).
  - reflexivity.
  - lia.
  - lia.
  - vm_compute. reflexivity.
  - reflexivity.
Defined.



(** *** Cutting the windows *)

Lemma py_round_above_half (y : Q) : (1 # 2 < y)%Q -> 1 <= py_round y.
Proof.
  intros Hy.
  assert (Hf : 0 <= Qfloor y).
  { rewrite <- (Qfloor_Z 0). apply Qfloor_resp_le.
    change (inject_Z 0) with 0%Q. lra. }
  unfold py_round.
  destruct (Qlt_bool (y - inject_Z (Qfloor y)) (1 # 2)) eqn:E1.
  - apply Qlt_bool_iff in E1.
    assert (H0 : (inject_Z 0 < inject_Z (Qfloor y))%Q)
      by (change (inject_Z 0) with 0%Q; lra).
    rewrite <- Zlt_Qlt in H0. lia.
  - destruct (Qlt_bool (1 # 2) (y - inject_Z (Qfloor y))) eqn:E2; [lia|].
    destruct (Z.even (Qfloor y)); [|lia].
    apply Qlt_bool_false in E1, E2.
    assert (H0 : (inject_Z 0 < inject_Z (Qfloor y))%Q)
      by (change (inject_Z 0) with 0%Q; lra).
    rewrite <- Zlt_Qlt in H0. lia.
Qed.

Lemma py_round3_positive (x : Q) : (1 # 2000 < x)%Q -> (0 < py_round3 x)%Q.
Proof.
  intros Hx. unfold py_round3.
  assert (H : 1 <= py_round (x * 1000)) by (apply py_round_above_half; lra).
  unfold Qlt. cbn [Qnum Qden]. lia.
Qed.

Lemma window_is_positive (duration : Q) (chunk_sec overlap_sec i : Z) :
  (1 # 2000 < duration)%Q -> 1 <= chunk_sec -> 1 <= overlap_sec ->
  0 <= i < Qceiling (duration / inject_Z chunk_sec) ->
  (Prepare.w_start (window_at duration chunk_sec overlap_sec i)
   < Prepare.w_end (window_at duration chunk_sec overlap_sec i))%Q.
Proof.
  intros Hd Hc Ho [Hi0 Hin].
  rewrite window_at_start, window_at_end.
  destruct (Z.eq_dec i 0) as [-> | Hne].
  - assert (E0 : (py_round3 (py_max 0 (inject_Z (0 * chunk_sec - (if 0 <? 0 then overlap_sec else 0)))) == 0)%Q)
      by reflexivity.
    rewrite E0. apply py_round3_positive.
    unfold py_min. destruct (Qlt_bool _ duration); [|exact Hd].
    assert (H1 : (inject_Z 1 <= inject_Z ((0 + 1) * chunk_sec))%Q)
      by (rewrite <- Zle_Qle; lia).
    change (inject_Z 1) with 1%Q in H1. lra.
  - assert (Hs : (py_max 0 (inject_Z (i * chunk_sec - (if 0 <? i then overlap_sec else 0)))
                  <= inject_Z (i * chunk_sec - 1))%Q).
    { unfold py_max. destruct (Qlt_bool 0 _).
      - rewrite <- Zle_Qle. replace (0 <? i) with true by (symmetry; apply Z.ltb_lt; lia).
        lia.
      - change 0%Q with (inject_Z 0). rewrite <- Zle_Qle. nia. }
    pose proof (window_end_above duration chunk_sec ltac:(lia) i Hin) as He.
    apply py_round3_mono in Hs. apply Qlt_le_weak, py_round3_mono in He.
    rewrite py_round3_Z in Hs, He.
    assert (Hz : (inject_Z (i * chunk_sec - 1) < inject_Z (i * chunk_sec))%Q)
      by (rewrite <- Zlt_Qlt; lia).
    lra.
Qed.

(** X18: with a chunk length and an overlap of at least one second and a
    duration above half a millisecond, every window [compute_chunks]
    returns has its end after its start, so [ffmpeg_cut] never raises its
    "Non-positive cut duration" error on it and builds a command for the
    extensions wav and mp3, in any letter case. *)
Theorem windows_can_be_cut (duration : Q) (chunk_sec overlap_sec : Z)
    (ws : list Prepare.Window) :
  (1 # 2000 < duration)%Q -> 1 <= chunk_sec -> 1 <= overlap_sec ->
  Prepare.compute_chunks duration chunk_sec overlap_sec = Some ws ->
  forall w, w ∈ ws ->
    (Prepare.w_start w < Prepare.w_end w)%Q
    /\ forall (str_float : Q -> string) (bin input out ext : string),
         lower ext = "wav"%string \/ lower ext = "mp3"%string ->
         exists cmd,
           Prepare.ffmpeg_cut str_float bin input
             (Prepare.w_start w) (Prepare.w_end w) out ext = Ok cmd.
Proof.
  intros Hd Hc Ho.
  rewrite (compute_chunks_windows duration chunk_sec overlap_sec) by (lra || lia).
  intros [= <-] w Hw.
  apply list_elem_of_In, in_map_iff in Hw as (i & <- & Hi).
  apply list_elem_of_In, range_elem in Hi.
  pose proof (window_is_positive duration chunk_sec overlap_sec i Hd Hc Ho Hi) as Hpos.
  split; [exact Hpos|].
  intros str_float bin input out ext Hext. unfold Prepare.ffmpeg_cut.
  replace (Qle_bool (py_max 0 _) 0) with false.
  - destruct Hext as [-> | ->]; cbn; eauto.
  - symmetry. apply Qle_bool_false. unfold py_max.
    destruct (Qlt_bool 0 _) eqn:E; [by apply Qlt_bool_iff in E|].
    apply Qlt_bool_false in E. lra.
Qed.

Lemma windows_can_be_cut_witness :
  (Prepare.w_start (1%Z, Prepare.NInt 599, Prepare.NInt 1200)
   < Prepare.w_end (1%Z, Prepare.NInt 599, Prepare.NInt 1200))%Q.
Proof.
  refine (proj1 (windows_can_be_cut 1800 600 1
                   [ (0, Prepare.NFloat (py_round3 0), Prepare.NInt 600);
                     (1, Prepare.NInt 599, Prepare.NInt 1200);
                     (2, Prepare.NInt 1199, Prepare.NFloat (py_round3 1800)) ]
                   _ _ _ _ (1, Prepare.NInt 599, Prepare.NInt 1200) _)).
  - reflexivity.
  - lia.
  - lia.
  - vm_compute. reflexivity.
  - right. left.
Defined.

(** *** Job id and manifest, from the prepare handler to the stitcher *)

Lemma derive_of_manifest_key (dir job : string) :
  no_slash job ->
  _derive_job_id_from_manifest_key (dir +:+ "/" +:+ job +:+ ".jsonl") = job.
Proof.
  intros Hjob.
  assert (Hname : no_slash (job +:+ ".jsonl")) by (by apply no_slash_append).
  unfold _derive_job_id_from_manifest_key, basename.
  rewrite (last_component_after_slash dir (job +:+ ".jsonl") Hname).
  rewrite endswith_append. apply (drop_last_append job ".jsonl").
Qed.

Lemma split_slash_nonempty (s : string) : split_slash s <> [].
Proof.
  destruct s as [|c s]; cbn; [done|].
  destruct (nat_of_ascii c =? 47)%nat; [done|]. by destruct (split_slash s).
Qed.

Lemma split_slash_pieces (s p : string) : p ∈ split_slash s -> no_slash p.
Proof.
  revert p. induction s as [|c s IH]; intros p; cbn [split_slash].
  - intros H. apply list_elem_of_singleton in H as ->. reflexivity.
  - destruct (nat_of_ascii c =? 47)%nat eqn:Ec.
    + intros H. apply elem_of_cons in H as [-> | H]; [reflexivity | by apply IH].
    + destruct (split_slash s) as [|piece rest] eqn:Es.
      * intros H. apply list_elem_of_singleton in H as ->.
        unfold no_slash. cbn. by rewrite Ec.
      * intros H. apply elem_of_cons in H as [-> | H].
        -- unfold no_slash. cbn. rewrite Ec. apply (IH piece). left.
        -- apply IH. by right.
Qed.

Lemma split_slash_no_slash (s : string) : no_slash s -> split_slash s = [s].
Proof.
  unfold no_slash. induction s as [|c s IH]; [done|].
  cbn. destruct (nat_of_ascii c =? 47)%nat; [discriminate|].
  cbn. intros H. by rewrite (IH H).
Qed.

Lemma split_slash_append (a b : string) :
  split_slash (a +:+ "/" +:+ b) = split_slash a ++ split_slash b.
Proof.
  induction a as [|c a IH].
  - reflexivity.
  - rewrite append_cons. cbn [split_slash].
    destruct (nat_of_ascii c =? 47)%nat; rewrite IH; [reflexivity|].
    pose proof (split_slash_nonempty a) as Hne.
    by destruct (split_slash a).
Qed.

Lemma after_audio_elem (parts : list string) (job : string) :
  Prepare.after_audio parts = Some job -> job ∈ parts.
Proof.
  induction parts as [|p rest IH]; cbn; [discriminate|].
  destruct (String.eqb p "audio").
  - destruct rest as [|next rest']; [discriminate|].
    intros [= <-]. right. left.
  - intros H. right. by apply IH.
Qed.

Lemma after_audio_first (front back : list string) (job : string) :
  "audio"%string ∉ front ->
  Prepare.after_audio (front ++ "audio"%string :: job :: back) = Some job.
Proof.
  induction front as [|p front IH]; intros Hno; [reflexivity|].
  cbn [app Prepare.after_audio].
  apply not_elem_of_cons in Hno as [Hp Hno].
  replace (String.eqb p "audio") with false; [by apply IH|].
  symmetry. apply String.eqb_neq. congruence.
Qed.

(** X19: the job id the prepare handler infers from a source key names
    the manifest under which the stitcher finds the same job id again: the
    id never holds a slash (given that the UUID fallback yields none), and
    the stitcher's job id of the manifest key
    [<MANIFEST_PREFIX_BASE>/<job>.jsonl] is that id. *)
Theorem job_id_survives_manifest_key (INGEST_BUCKET MANIFEST_PREFIX_BASE : string)
    (uuid5_url : string -> string) (key : string) :
  (forall url, no_slash (uuid5_url url)) ->
  no_slash (Prepare.infer_job_id_from_key INGEST_BUCKET uuid5_url key)
  /\ _derive_job_id_from_manifest_key
       (Prepare.manifest_key MANIFEST_PREFIX_BASE
          (Prepare.infer_job_id_from_key INGEST_BUCKET uuid5_url key))
     = Prepare.infer_job_id_from_key INGEST_BUCKET uuid5_url key.
Proof.
  intros Huuid.
  assert (H : no_slash (Prepare.infer_job_id_from_key INGEST_BUCKET uuid5_url key)).
  { unfold Prepare.infer_job_id_from_key.
    destruct (Prepare.after_audio (split_slash key)) as [job|] eqn:Ea.
    - apply after_audio_elem in Ea. by apply (split_slash_pieces key).
    - destruct (split_slash key) as [|first [|second rest]] eqn:Es; [done..|].
      destruct (is_empty first); [done|].
      apply (split_slash_pieces key). rewrite Es. left. }
  split; [exact H|]. unfold Prepare.manifest_key. by apply derive_of_manifest_key.
Qed.

Lemma job_id_survives_manifest_key_witness :
  _derive_job_id_from_manifest_key
    (Prepare.manifest_key "manifests"
       (Prepare.infer_job_id_from_key "ingest" (fun _ => "0000-uuid")
          "uploads/audio/job-7/talk.wav"))
  = Prepare.infer_job_id_from_key "ingest" (fun _ => "0000-uuid")
      "uploads/audio/job-7/talk.wav".
Proof.
  apply (proj2 (job_id_survives_manifest_key "ingest" "manifests"
                  (fun _ => "0000-uuid"%string) "uploads/audio/job-7/talk.wav"
                  (fun _ => eq_refl))).
Defined.

(** X20: for a key [<dir>/audio/<job>/<rest>] whose [<dir>] has no piece
    [audio], and for a key [audio/<job>/<rest>], the inferred job id is
    [<job>]: the piece after the first [audio] piece wins, whatever
    follows. *)
Theorem job_id_follows_first_audio (INGEST_BUCKET : string)
    (uuid5_url : string -> string) (dir job rest : string) :
  "audio"%string ∉ split_slash dir -> no_slash job ->
  Prepare.infer_job_id_from_key INGEST_BUCKET uuid5_url
    (dir +:+ "/" +:+ "audio" +:+ "/" +:+ job +:+ "/" +:+ rest) = job
  /\ Prepare.infer_job_id_from_key INGEST_BUCKET uuid5_url
       ("audio" +:+ "/" +:+ job +:+ "/" +:+ rest) = job.
Proof.
  intros Hdir Hjob. unfold Prepare.infer_job_id_from_key.
  assert (E : split_slash ("audio" +:+ "/" +:+ job +:+ "/" +:+ rest)
              = "audio"%string :: job :: split_slash rest).
  { rewrite (split_slash_append "audio"), (split_slash_append job).
    by rewrite (split_slash_no_slash job Hjob). }
  split.
  - rewrite (split_slash_append dir), E.
    by rewrite (after_audio_first (split_slash dir) (split_slash rest) job Hdir).
  - rewrite E. reflexivity.
Qed.

Lemma job_id_follows_first_audio_witness :
  Prepare.infer_job_id_from_key "ingest" (fun _ => "0000-uuid")
    ("uploads/2024" +:+ "/" +:+ "audio" +:+ "/" +:+ "job-7" +:+ "/" +:+ "audio/talk.wav")
  = "job-7"%string.
Proof.
  apply (proj1 (job_id_follows_first_audio "ingest" (fun _ => "0000-uuid"%string)
                  "uploads/2024" "job-7" "audio/talk.wav"
                  ltac:(vm_compute; intros H; apply list_elem_of_In in H; cbn in H;
                        destruct H as [H | [H | []]]; discriminate)
                  eq_refl)).
Defined.

Lemma manifest_line_entry (lib : PyLib)
    (INGEST_BUCKET CHUNK_PREFIX_BASE CHUNK_EXT job src_bucket src_key : string)
    (w : Prepare.Window) :
  converts (Prepare.start_number w) -> converts (Prepare.end_number w) ->
  manifest_entry lib
    (Prepare.manifest_line INGEST_BUCKET CHUNK_PREFIX_BASE CHUNK_EXT
       job src_bucket src_key w)
  = Ok (entry_of w).
Proof.
  destruct w as [[i a] b]. intros Ha Hb.
  change (manifest_entry lib _)
    with (s <- py_float lib (Prepare.number_json a);;
          e <- py_float lib (Prepare.number_json b);;
          Ok {| index := i; start_sec := s; end_sec := e |}).
  destruct a as [za|qa], b as [zb|qb]; cbn in Ha, Hb |- *; rewrite ?Ha, ?Hb; reflexivity.
Qed.

Lemma float_max_converts (z : Z) :
  (inject_Z (Z.abs z) <= float_max)%Q -> float_overflows z = false.
Proof.
  unfold float_max, float_overflows. rewrite <- Zle_Qle. intros H.
  apply Z.leb_gt.
  assert (Hp : 2 ^ 970 < 2 ^ 971) by (apply Z.pow_lt_mono_r; lia).
  lia.
Qed.

Lemma chunk_window_converts (duration : Q) (chunk_sec overlap_sec i : Z)
    (w : Prepare.Window) :
  (duration <= float_max)%Q ->
  Prepare.chunk_window duration chunk_sec overlap_sec i = Some w ->
  converts (Prepare.start_number w) /\ converts (Prepare.end_number w).
Proof.
  intros Hd. unfold Prepare.chunk_window.
  set (k := i * chunk_sec - (if 0 <? i then overlap_sec else 0)).
  set (m := (i + 1) * chunk_sec).
  destruct (Qle_bool _ _) eqn:Ekept; [discriminate|]. intros [= <-].
  apply Qle_bool_false in Ekept. rewrite value_max, value_min in Ekept.
  cbn [Prepare.value] in Ekept.
  pose proof (py_max_ge 0 (inject_Z k)) as H0.
  pose proof (py_min_le duration (inject_Z m)) as Hmin.
  unfold Prepare.start_number, Prepare.end_number. cbn [fst snd]. split.
  - unfold Prepare.max_number. cbn [Prepare.value].
    destruct (Qlt_bool 0 (inject_Z k)) eqn:E; [|exact Logic.I].
    cbn [Prepare.round3_number converts]. apply float_max_converts.
    apply Qlt_bool_iff in E.
    assert (Hk : py_max 0 (inject_Z k) = inject_Z k).
    { unfold py_max. by rewrite (proj2 (Qlt_bool_iff _ _) E). }
    rewrite Hk in Ekept.
    change 0%Q with (inject_Z 0) in E. rewrite <- Zlt_Qlt in E.
    rewrite Z.abs_eq by lia. lra.
  - unfold Prepare.min_number. cbn [Prepare.value].
    destruct (Qlt_bool (inject_Z m) duration) eqn:E; [|exact Logic.I].
    cbn [Prepare.round3_number converts]. apply float_max_converts.
    apply Qlt_bool_iff in E.
    assert (Hm : py_min duration (inject_Z m) = inject_Z m).
    { unfold py_min. by rewrite (proj2 (Qlt_bool_iff _ _) E). }
    rewrite Hm in Ekept.
    assert (Hpos : (inject_Z 0 < inject_Z m)%Q) by (change (inject_Z 0) with 0%Q; lra).
    rewrite <- Zlt_Qlt in Hpos.
    rewrite Z.abs_eq by lia. lra.
Qed.

Lemma compute_chunks_converts (duration : Q) (chunk_sec overlap_sec : Z)
    (ws : list Prepare.Window) :
  (duration <= float_max)%Q ->
  Prepare.compute_chunks duration chunk_sec overlap_sec = Some ws ->
  Forall (fun w => converts (Prepare.start_number w) /\ converts (Prepare.end_number w)) ws.
Proof.
  intros Hd. unfold Prepare.compute_chunks.
  destruct (Qle_bool duration 0); [intros [= <-]; constructor|].
  destruct (chunk_sec =? 0); [discriminate|].
  intros [= <-]. apply Forall_forall. intros w Hw.
  apply list_elem_of_omap in Hw as (i & _ & Hw).
  by apply (chunk_window_converts duration chunk_sec overlap_sec i).
Qed.

Lemma sort_by_index_sorted_id (l : list Entry) :
  StronglySorted by_index l -> sort_by_index l = l.
Proof.
  induction 1 as [|e l Hl IH He]; [reflexivity|].
  unfold sort_by_index in *. cbn [foldr]. rewrite IH.
  destruct l as [|x r]; [reflexivity|]. cbn [insert_by_index].
  apply Forall_cons in He as [Hx _]. unfold by_index in Hx.
  by replace (index e <=? index x) with true by (symmetry; apply Z.leb_le; lia).
Qed.

Lemma range_sorted (n : Z) : StronglySorted Z.le (Prepare.range n).
Proof.
  unfold Prepare.range. generalize 0%nat as a.
  induction (Z.to_nat n) as [|k IH]; intros a; cbn [seq map]; constructor.
  - apply IH.
  - apply Forall_forall. intros x Hx.
    apply list_elem_of_fmap in Hx as (y & -> & Hy).
    apply elem_of_seq in Hy. lia.
Qed.

Lemma chunk_windows_sorted (duration : Q) (chunk_sec overlap_sec : Z) (l : list Z) :
  StronglySorted Z.le l ->
  StronglySorted by_index
    (map entry_of (omap (Prepare.chunk_window duration chunk_sec overlap_sec) l)).
Proof.
  induction 1 as [|i l Hl IH Hi]; [constructor|].
  cbn [omap list_omap]. unfold Prepare.chunk_window at 1.
  destruct (Qle_bool _ _); [exact IH|].
  cbn [map]. constructor; [exact IH|].
  apply Forall_forall. intros e He.
  apply list_elem_of_fmap in He as (w & -> & Hw).
  apply list_elem_of_omap in Hw as (j & Hj & Hw).
  unfold Prepare.chunk_window in Hw. destruct (Qle_bool _ _); [discriminate|].
  injection Hw as <-. unfold by_index. cbn.
  rewrite Forall_forall in Hi. by apply Hi.
Qed.

Lemma compute_chunks_sorted (duration : Q) (chunk_sec overlap_sec : Z)
    (ws : list Prepare.Window) :
  Prepare.compute_chunks duration chunk_sec overlap_sec = Some ws ->
  StronglySorted by_index (map entry_of ws).
Proof.
  unfold Prepare.compute_chunks.
  destruct (Qle_bool duration 0); [intros [= <-]; constructor|].
  destruct (chunk_sec =? 0); [discriminate|].
  intros [= <-]. apply chunk_windows_sorted, range_sorted.
Qed.

Lemma decode_prepared_lines (lib : PyLib)
    (INGEST_BUCKET CHUNK_PREFIX_BASE CHUNK_EXT job src_bucket src_key : string)
    (lines : list string) (ws : list Prepare.Window) :
  Forall (fun w => converts (Prepare.start_number w) /\ converts (Prepare.end_number w)) ws ->
  Forall2 (fun line w =>
             json_loads lib (strip line)
             = Ok (Prepare.manifest_line INGEST_BUCKET CHUNK_PREFIX_BASE CHUNK_EXT
                     job src_bucket src_key w))
          lines ws ->
  map_result (decode_line lib) lines = Ok (map entry_of ws).
Proof.
  intros Hconv H. induction H as [|line w lines ws Hline _ IH]; [reflexivity|].
  apply Forall_cons in Hconv as [[Ha Hb] Hconv].
  cbn [map_result map]. unfold decode_line at 1. rewrite Hline. cbn [bind].
  rewrite (manifest_line_entry _ _ _ _ _ _ _ _ Ha Hb). cbn [bind].
  rewrite (IH Hconv). reflexivity.
Qed.


